(** * Resume analyzer: parsing and scoring pipeline of [main.py]

    A shallow embedding of [normalize_text], [ResumeParser] and
    [JobMatcher], together with the per-document loop of the script,
    and the properties of the pipeline stated in the specification.

    Modelling conventions.
    - A Python [str] is a [string]; the scanners work on its list of
      characters.  Character classes are those of the ASCII range:
      a character outside it is neither a letter, a digit nor a space.
      Python classifies the characters outside the ASCII range with the
      Unicode tables (a no-break space is a space for [\s], [strip] and
      [split], an Arabic-Indic digit a digit for [\d] and [int], an accented
      letter a word character for [\b], with a lower case for [lower]); the
      model agrees with it on the texts made of ASCII characters
      ([ascii_text]), and a property that depends on the class of other
      characters is stated for these texts.
    - The module [Uni] has [normalize_text], [extract_experience] and
      [JobMatcher] on texts of arbitrary code points; what the interpreter
      reads in the Unicode tables for a character outside the ASCII range is
      a parameter there.  The module [Agree] shows that it gives on ASCII
      texts what the ASCII model gives.
    - A Python [set] of strings is a [gset string].  Turning a set into a
      list ([list(s)]) enumerates it in an order fixed by the interpreter
      process (string hashing is seeded per process); that order is the
      [set_order] field of a [runtime].
    - A Python [float] is the rational number it denotes; every float
      operation is the exact one followed by rounding to the nearest
      binary64 value, ties to even ([RN]).  No value of the scoring function
      exceeds 100, so infinities and NaN do not arise.  The module [IEEE]
      runs the same arithmetic with the operations of [SpecFloat], and
      [ieee_agreement] compares the two on a grid of inputs.
    - A Python [int] is unbounded; years of experience, which the parser
      only produces from digits, are natural numbers.  [int] raises
      [ValueError] on a string of more than 4300 digits: [Str.to_int],
      [extract_experience] and [parse] give the value computed when nothing
      is raised, and the module [Raising] has the same functions with the
      exception, which the loop over the uploaded files does not catch.
    - The document readers ([PdfReader], [docx.Document], [read] and
      [decode]) are libraries: an uploaded file carries what each of them
      answers, a value or a raised exception. *)

From Stdlib Require Import ZArith QArith Qround Qpower Lqa SpecFloat Ascii String List.
From stdpp Require Import base decidable list strings gmap.
Import ListNotations.
Local Open Scope Z_scope.
Local Open Scope string_scope.

(** ** Characters *)

Module Chars.

Definition code (c : ascii) : N := N_of_ascii c.

Definition in_range (lo hi : N) (c : ascii) : bool :=
  ((lo <=? code c) && (code c <=? hi))%N.

(** [\d] *)
Definition is_digit (c : ascii) : bool := in_range 48 57 c.
Definition is_upper (c : ascii) : bool := in_range 65 90 c.
Definition is_lower (c : ascii) : bool := in_range 97 122 c.
Definition is_alpha (c : ascii) : bool := is_upper c || is_lower c.

(** [\w]: letters, digits and the underscore. *)
Definition is_word (c : ascii) : bool :=
  is_alpha c || is_digit c || (code c =? 95)%N.

(** [\s], also the characters removed by [str.strip()] and separating the
    tokens of [str.split()]: space, tab, line feed, vertical tab, form
    feed, carriage return and the four separators 28 to 31. *)
Definition is_space (c : ascii) : bool :=
  (code c =? 32)%N || in_range 9 13 c || in_range 28 31 c.

(** [str.lower()] on one character. *)
Definition lower (c : ascii) : ascii :=
  if is_upper c then ascii_of_N (code c + 32) else c.

Definition digit_val (c : ascii) : N := (code c - 48)%N.

End Chars.

(** ** Regular expressions, with the matching order of Python's [re] *)

Module Re.

Inductive regex : Type :=
| Eps : regex
| Chr : ascii -> regex
| Cls : (ascii -> bool) -> regex
| Cat : regex -> regex -> regex
| Alt : regex -> regex -> regex
| Star : regex -> regex          (* greedy [r*] *)
| Grp : regex -> regex           (* capturing group [(r)] *)
| WordB : regex.                 (* [\b] *)

Definition Opt (r : regex) : regex := Alt r Eps.       (* greedy [r?] *)
Definition Plus (r : regex) : regex := Cat r (Star r). (* greedy [r+] *)

(** [r{n}] *)
Fixpoint Rep (n : nat) (r : regex) : regex :=
  match n with
  | O => Eps
  | S n' => Cat r (Rep n' r)
  end.

(** [r{n,m}] with [m = n + k], greedy *)
Fixpoint UpTo (k : nat) (r : regex) : regex :=
  match k with
  | O => Eps
  | S k' => Opt (Cat r (UpTo k' r))
  end.
Definition RepRange (n k : nat) (r : regex) : regex := Cat (Rep n r) (UpTo k r).

(** [r{n,}] *)
Definition RepMin (n : nat) (r : regex) : regex := Cat (Rep n r) (Star r).

(** The literal text [s], as [re.escape] quotes it. *)
Fixpoint Lit (s : list ascii) : regex :=
  match s with
  | [] => Eps
  | c :: s' => Cat (Chr c) (Lit s')
  end.

(** A position in the subject: the characters already passed, last one
    first, the characters still ahead, and the text of the groups closed
    so far, last one first. *)
Record pos : Type := Pos {
  before : list ascii;
  ahead : list ascii;
  groups : list (list ascii)
}.

Definition at_boundary (p : pos) : bool :=
  let l := match before p with c :: _ => Chars.is_word c | [] => false end in
  let r := match ahead p with c :: _ => Chars.is_word c | [] => false end in
  xorb l r.

Definition step (p : pos) (ok : ascii -> bool) : option pos :=
  match ahead p with
  | c :: rest => if ok c then Some (Pos (c :: before p) rest (groups p)) else None
  | [] => None
  end.

Definition close_group (start : pos) (p : pos) : pos :=
  let n := (length (before p) - length (before start))%nat in
  Pos (before p) (ahead p) (rev (firstn n (before p)) :: groups p).

(** The greedy loop of [r*]: [body] matches [r] once; a turn that
    consumes nothing is not repeated. *)
Fixpoint star_loop {A : Type} (body : pos -> (pos -> option A) -> option A)
    (k : pos -> option A) (fuel : nat) (p : pos) : option A :=
  match fuel with
  | O => k p
  | S fuel' =>
      match body p (fun p' =>
              if (length (ahead p') <? length (ahead p))%nat
              then star_loop body k fuel' p' else None) with
      | Some a => Some a
      | None => k p
      end
  end.

(** Backtracking matcher: [run r p k] tries the ways [r] matches at [p],
    in Python's order of preference, and returns the first one the
    continuation [k] accepts. *)
Fixpoint run {A : Type} (r : regex) (p : pos) (k : pos -> option A) : option A :=
  match r with
  | Eps => k p
  | Chr c => match step p (fun d => bool_decide (d = c)) with
             | Some p' => k p'
             | None => None
             end
  | Cls f => match step p f with
             | Some p' => k p'
             | None => None
             end
  | Cat r1 r2 => run r1 p (fun p' => run r2 p' k)
  | Alt r1 r2 => match run r1 p k with
                 | Some a => Some a
                 | None => run r2 p k
                 end
  | Star r1 => star_loop (run r1) k (length (ahead p)) p
  | Grp r1 => run r1 p (fun p' => k (close_group p p'))
  | WordB => if at_boundary p then k p else None
  end.

(** One attempt at the position [p]: the position after the match. *)
Definition match_at (r : regex) (p : pos) : option pos :=
  run r (Pos (before p) (ahead p) []) Some.

(** The text matched between two positions. *)
Definition matched (start stop : pos) : list ascii :=
  rev (firstn (length (before stop) - length (before start)) (before stop)).

Definition advance (p : pos) : option pos :=
  match ahead p with
  | c :: rest => Some (Pos (c :: before p) rest [])
  | [] => None
  end.

(** [re.search]: the leftmost match at or after [p]. *)
Fixpoint search_from (fuel : nat) (r : regex) (p : pos) : option (pos * pos) :=
  match match_at r p with
  | Some q => Some (p, q)
  | None =>
      match fuel, advance p with
      | S fuel', Some p' => search_from fuel' r p'
      | _, _ => None
      end
  end.

Definition start_of (s : list ascii) : pos := Pos [] s [].

Definition search (r : regex) (s : list ascii) : option (list ascii) :=
  match search_from (length s) r (start_of s) with
  | Some (p, q) => Some (matched p q)
  | None => None
  end.

Definition search_bool (r : regex) (s : list ascii) : bool :=
  match search r s with Some _ => true | None => false end.

(** The successive, non-overlapping leftmost matches from [p] on.  After a
    match the scan resumes where it stopped (one character further when
    the match was empty; no pattern of the program matches the empty
    text). *)
Fixpoint matches_from (fuel : nat) (r : regex) (p : pos) : list (pos * pos) :=
  match fuel with
  | O => []
  | S fuel' =>
      match search_from (length (ahead p)) r p with
      | None => []
      | Some (a, b) =>
          (a, b) ::
          (if (length (ahead b) <? length (ahead a))%nat
           then matches_from fuel' r b
           else match advance b with
                | Some b' => matches_from fuel' r b'
                | None => []
                end)
      end
  end.

Definition all_matches (r : regex) (s : list ascii) : list (pos * pos) :=
  matches_from (S (length s)) r (start_of s).

(** [re.findall] for a pattern with exactly one group: the text of the
    group in every match. *)
Definition findall1 (r : regex) (s : list ascii) : list (list ascii) :=
  map (fun m => match groups (snd m) with g :: _ => g | [] => [] end)
      (all_matches r s).

(** [re.sub(r, repl, s)] for a replacement text without references. *)
Fixpoint sub_from (fuel : nat) (r : regex) (repl : list ascii) (p : pos) : list ascii :=
  match fuel with
  | O => ahead p
  | S fuel' =>
      match search_from (length (ahead p)) r p with
      | None => ahead p
      | Some (a, b) =>
          matched p a ++ repl ++
          (if (length (ahead b) <? length (ahead a))%nat
           then sub_from fuel' r repl b
           else match ahead b with
                | c :: rest => c :: sub_from fuel' r repl (Pos (c :: before b) rest [])
                | [] => []
                end)
      end
  end.

Definition sub (r : regex) (repl s : list ascii) : list ascii :=
  sub_from (S (length s)) r repl (start_of s).

End Re.

(** ** Binary64 arithmetic *)

Module F64.

Local Open Scope Q_scope.

Definition pow2 (e : Z) : Q := Qpower 2 e.

(** The integer [e] with [2^e <= x < 2^(e+1)], for [x > 0]. *)
Definition ilog2 (x : Q) : Z :=
  let n := Qnum x in
  let d := Zpos (Qden x) in
  let e := (Z.log2 n - Z.log2 d)%Z in
  if Qle_bool (pow2 e) x then e else (e - 1)%Z.

(** Rounding to the nearest integer, ties to the even one. *)
Definition round_half_even (y : Q) : Z :=
  let f := Qfloor y in
  match Qcompare (y - inject_Z f) (1 # 2) with
  | Lt => f
  | Gt => (f + 1)%Z
  | Eq => if Z.even f then f else (f + 1)%Z
  end.

(** Exponent of the last place of the binary64 values around [x]:
    53 significant bits, subnormal numbers below [2^-1022]. *)
Definition ulp_exp (x : Q) : Z := Z.max (ilog2 x - 52) (-1074).

Definition round_pos (x : Q) : Q :=
  let fe := ulp_exp x in
  Qred (inject_Z (round_half_even (x * pow2 (- fe))) * pow2 fe).

(** Round to nearest binary64 value, ties to even. *)
Definition RN (x : Q) : Q :=
  if Qle_bool 0 x then round_pos x else Qred (- round_pos (- x)).

Definition of_int (z : Z) : Q := RN (inject_Z z).
Definition mul (x y : Q) : Q := RN (x * y).
Definition add (x y : Q) : Q := RN (x + y).

(** [a / b] on Python integers: the quotient, correctly rounded. *)
Definition int_div (a b : Z) : Q := RN (inject_Z a / inject_Z b).

(** The literal [d.ddd] denotes the nearest binary64 value. *)
Definition literal (q : Q) : Q := RN q.

(** [round(x, 1)] on a float: the exact value of [x] is rounded to one
    decimal, ties to even, and the decimal read back as a float. *)
Definition round1 (x : Q) : Q :=
  RN (inject_Z (round_half_even (x * 10)) / 10).

End F64.

(** ** Strings *)

Definition chars (s : string) : list ascii := list_ascii_of_string s.
Definition text_of (l : list ascii) : string := string_of_list_ascii l.

Module Str.

(** [s.lower()] *)
Definition lower (s : list ascii) : list ascii := map Chars.lower s.

Fixpoint lstrip (s : list ascii) : list ascii :=
  match s with
  | c :: s' => if Chars.is_space c then lstrip s' else s
  | [] => []
  end.

(** [s.strip()] *)
Definition strip (s : list ascii) : list ascii := rev (lstrip (rev (lstrip s))).

(** [s.split(sep)] for a separator of one character. *)
Fixpoint split_on (sep : ascii) (s : list ascii) : list (list ascii) :=
  match s with
  | [] => [[]]
  | c :: s' =>
      if bool_decide (c = sep) then [] :: split_on sep s'
      else match split_on sep s' with
           | w :: ws => (c :: w) :: ws
           | [] => [[c]]
           end
  end.

(** [s.split()]: the maximal runs of characters that are not spaces. *)
Fixpoint words_aux (cur : list ascii) (s : list ascii) : list (list ascii) :=
  match s with
  | [] => match cur with [] => [] | _ => [rev cur] end
  | c :: s' =>
      if Chars.is_space c
      then match cur with [] => words_aux [] s' | _ => rev cur :: words_aux [] s' end
      else words_aux (c :: cur) s'
  end.
Definition words (s : list ascii) : list (list ascii) := words_aux [] s.

(** [int(s)] on a string of digits. *)
Definition to_int (s : list ascii) : N :=
  fold_left (fun acc c => (10 * acc + Chars.digit_val c)%N) s 0%N.

(** [sep.join(l)] *)
Fixpoint join (sep : string) (l : list string) : string :=
  match l with
  | [] => ""
  | [x] => x
  | x :: rest => x +:+ sep +:+ join sep rest
  end.

(** [s.endswith(suffix)] *)
Definition endswith (s suffix : string) : bool :=
  let n := String.length s in
  let k := String.length suffix in
  (k <=? n)%nat && bool_decide (substring (n - k) k s = suffix).

End Str.

(** ** Utility functions *)

Definition ws_run : Re.regex := Re.Plus (Re.Cls Chars.is_space).

Definition normalize_chars (s : list ascii) : list ascii :=
  Str.strip (Re.sub ws_run [" "%char] (Str.lower s)).

Definition normalize_text (text : string) : string :=
  text_of (normalize_chars (chars text)).

(** ** The interpreter process *)

(** [list(s)] on a set: some enumeration of its elements, each once. *)
Record runtime : Type := Runtime {
  set_order : gset string -> list string;
  set_order_perm : forall s, set_order s ≡ₚ elements s
}.

(** ** ResumeParser *)

Record candidate : Type := Candidate {
  name : string;
  email : string;
  phone : string;
  skills : list string;
  years_experience : N;
  raw_text : string
}.

Definition SKILL_DB : list string :=
  [ "python"; "java"; "c++"; "sql"; "aws"; "docker"; "kubernetes";
    "react"; "angular"; "django"; "flask"; "machine learning";
    "data analysis"; "communication"; "project management";
    "git"; "linux"; "html"; "css"; "javascript";
    "typescript"; "node.js"; "pandas"; "numpy" ].

Definition one_of (l : string) (c : ascii) : bool :=
  bool_decide (c ∈ chars l).

(** [[a-zA-Z0-9._%+-]+@[a-zA-Z0-9.-]+\.[a-zA-Z]{2,}] *)
Definition email_re : Re.regex :=
  let alnum c := Chars.is_alpha c || Chars.is_digit c in
  Re.Cat (Re.Plus (Re.Cls (fun c => alnum c || one_of "._%+-" c)))
 (Re.Cat (Re.Chr "@")
 (Re.Cat (Re.Plus (Re.Cls (fun c => alnum c || one_of ".-" c)))
 (Re.Cat (Re.Chr ".")
         (Re.RepMin 2 (Re.Cls Chars.is_alpha))))).

(** [(\+?\d{1,3}[-.\s]?)?\(?\d{3}\)?[-.\s]?\d{3}[-.\s]?\d{4}] *)
Definition phone_re : Re.regex :=
  let d := Re.Cls Chars.is_digit in
  let sep := Re.Opt (Re.Cls (fun c => one_of "-." c || Chars.is_space c)) in
  Re.Cat (Re.Opt (Re.Grp (Re.Cat (Re.Opt (Re.Chr "+"))
                         (Re.Cat (Re.RepRange 1 2 d) sep))))
 (Re.Cat (Re.Opt (Re.Chr "("))
 (Re.Cat (Re.Rep 3 d)
 (Re.Cat (Re.Opt (Re.Chr ")"))
 (Re.Cat sep
 (Re.Cat (Re.Rep 3 d)
 (Re.Cat sep
         (Re.Rep 4 d))))))).

(** [\b] + [re.escape(skill)] + [\b] *)
Definition skill_re (skill : string) : Re.regex :=
  Re.Cat Re.WordB (Re.Cat (Re.Lit (chars skill)) Re.WordB).

(** [(\d+)\+?\s*years?] *)
Definition years_re : Re.regex :=
  Re.Cat (Re.Grp (Re.Plus (Re.Cls Chars.is_digit)))
 (Re.Cat (Re.Opt (Re.Chr "+"))
 (Re.Cat (Re.Star (Re.Cls Chars.is_space))
 (Re.Cat (Re.Lit (chars "year"))
         (Re.Opt (Re.Chr "s"))))).

(** [(20\d{2})] *)
Definition calendar_re : Re.regex :=
  Re.Grp (Re.Cat (Re.Lit (chars "20")) (Re.Rep 2 (Re.Cls Chars.is_digit))).

Definition extract_email (text : string) : string :=
  match Re.search email_re (chars text) with
  | Some m => text_of m
  | None => "Not Found"
  end.

Definition extract_phone (text : string) : string :=
  match Re.search phone_re (chars text) with
  | Some m => text_of m
  | None => "Not Found"
  end.

Definition extract_name (text : string) : string :=
  let lines :=
    map Str.strip
        (filter (fun line => Str.strip line <> [])
                (Str.split_on "010"%char (chars text))) in
  match lines with
  | first :: _ =>
      if (length (Str.words first) <=? 4)%nat then text_of first else "Unknown"
  | [] => "Unknown"
  end.

(** The vocabulary entries found in the text, in the order of [SKILL_DB]. *)
Definition found_skills (text : string) : list string :=
  let text_lower := chars (normalize_text text) in
  filter (fun skill => Re.search_bool (skill_re skill) text_lower = true) SKILL_DB.

Definition max_list (l : list N) : N := fold_right N.max 0%N l.
Definition min_list (l : list N) : N :=
  match l with
  | [] => 0%N
  | x :: rest => fold_right N.min x rest
  end.

(** The numbers of the "N years" phrases of a normalized text. *)
Definition stated_years (text_lower : list ascii) : list N :=
  map Str.to_int (Re.findall1 years_re text_lower).

(** The calendar years 20xx of a normalized text. *)
Definition calendar_years (text_lower : list ascii) : list N :=
  map Str.to_int (Re.findall1 calendar_re text_lower).

Definition extract_experience (text : string) : N :=
  let text_lower := chars (normalize_text text) in
  let matches := stated_years text_lower in
  match matches with
  | _ :: _ => max_list matches
  | [] =>
      let years := calendar_years text_lower in
      if (2 <=? length years)%nat
      then (max_list years - min_list years)%N
      else 0%N
  end.

Section Parser.

Context (rt : runtime).

(** [list(set(found))] *)
Definition extract_skills (text : string) : list string :=
  set_order rt (list_to_set (found_skills text)).

Definition parse (text : string) : candidate :=
  {| name := extract_name text;
     email := extract_email text;
     phone := extract_phone text;
     skills := extract_skills text;
     years_experience := extract_experience text;
     raw_text := text |}.

End Parser.

(** ** JobMatcher *)

(** A Python number: an [int] or a [float]. *)
Inductive pynum : Type :=
| PyInt (z : Z)
| PyFloat (q : Q).

Definition to_float (x : pynum) : Q :=
  match x with
  | PyInt z => F64.of_int z
  | PyFloat q => q
  end.

(** [x * y] for a float [y] *)
Definition mul_float (x : pynum) (y : Q) : Q := F64.mul (to_float x) y.

(** [round(x, 1)]: an [int] is returned as it is. *)
Definition py_round1 (x : pynum) : pynum :=
  match x with
  | PyInt z => PyInt z
  | PyFloat q => PyFloat (F64.round1 q)
  end.

(** The exact value of a number, for comparisons. *)
Definition value (x : pynum) : Q :=
  match x with
  | PyInt z => inject_Z z
  | PyFloat q => q
  end.

Record job_matcher : Type := JobMatcher {
  req_skills : gset string;
  min_exp : N
}.

(** [JobMatcher.__init__] *)
Definition new_matcher (required_skills : list string) (min_exp : N) : job_matcher :=
  {| req_skills := list_to_set (map normalize_text required_skills);
     min_exp := min_exp |}.

Definition weight_skill : Q := F64.literal (7 # 10).
Definition weight_exp : Q := F64.literal (3 # 10).

Section Matcher.

Context (rt : runtime).

Definition skill_part (self : job_matcher) (c : candidate) : pynum * list string :=
  let candidate_skills : gset string := list_to_set (skills c) in
  if decide (req_skills self = ∅) then (PyInt 100, [])
  else
    let matched := candidate_skills ∩ req_skills self in
    let missing := set_order rt (req_skills self ∖ candidate_skills) in
    (PyFloat (F64.mul (F64.int_div (Z.of_nat (size matched))
                                   (Z.of_nat (size (req_skills self))))
                      (F64.of_int 100)),
     missing).

Definition skill_score (self : job_matcher) (c : candidate) : pynum :=
  fst (skill_part self c).

Definition exp_score (self : job_matcher) (c : candidate) : pynum :=
  let candidate_exp := years_experience c in
  if (min_exp self <=? candidate_exp)%N then PyInt 100
  else if (0 <? min_exp self)%N
       then PyFloat (F64.mul (F64.int_div (Z.of_N candidate_exp) (Z.of_N (min_exp self)))
                             (F64.of_int 100))
       else PyInt 100.

Definition final_score (self : job_matcher) (c : candidate) : Q :=
  F64.add (mul_float (skill_score self c) weight_skill)
          (mul_float (exp_score self c) weight_exp).

Definition calculate_score (self : job_matcher) (c : candidate)
  : Q * list string * pynum :=
  (F64.round1 (final_score self c),
   snd (skill_part self c),
   py_round1 (skill_score self c)).

End Matcher.

(** ** Reading a document *)

(** What a library call answers. *)
Inductive outcome (A : Type) : Type :=
| Returns (a : A)
| Raises (e : string).
Arguments Returns {A} a.
Arguments Raises {A} e.

(** An uploaded file: its name and, for each reader, what it answers on
    the content: [PdfReader(f)] and [page.extract_text()] for each page,
    [docx.Document(f)] and the text of each paragraph,
    [f.read().decode("utf-8")]. *)
Record uploaded_file : Type := UploadedFile {
  file_name : string;
  as_pdf : outcome (list (outcome string));
  as_docx : outcome (list (outcome string));
  as_utf8 : outcome string
}.

(** The loop over the pages: the text gathered so far, and the exception
    that stopped the loop, if any. *)
Fixpoint read_pages (pages : list (outcome string)) (text : string)
  : string * option string :=
  match pages with
  | [] => (text, None)
  | Returns extracted :: rest =>
      read_pages rest
        (if bool_decide (extracted = "") then text
         else text +:+ extracted +:+ "
")
  | Raises e :: _ => (text, Some e)
  end.

(** The loop over the paragraphs. *)
Fixpoint read_paragraphs (paras : list (outcome string)) (text : string)
  : string * option string :=
  match paras with
  | [] => (text, None)
  | Returns para :: rest => read_paragraphs rest (text +:+ para +:+ "
")
  | Raises e :: _ => (text, Some e)
  end.

(** The body of the [try] block. *)
Definition read_document (f : uploaded_file) : string * option string :=
  if Str.endswith (file_name f) ".pdf" then
    match as_pdf f with
    | Returns pages => read_pages pages ""
    | Raises e => ("", Some e)
    end
  else if Str.endswith (file_name f) ".docx" then
    match as_docx f with
    | Returns paras => read_paragraphs paras ""
    | Raises e => ("", Some e)
    end
  else if Str.endswith (file_name f) ".txt" then
    match as_utf8 f with
    | Returns text => (text, None)
    | Raises e => ("", Some e)
    end
  else ("", None).

(** [ResumeParser.extract_text]: the text, and the messages shown with
    [st.error]. *)
Definition extract_text (f : uploaded_file) : string * list string :=
  match read_document f with
  | (text, None) => (text, [])
  | (text, Some e) => (text, ["Error reading " +:+ file_name f +:+ ": " +:+ e])
  end.

(** ** The limit on the digits given to [int] *)

(** [int(s)] raises [ValueError] when [s] has more digits than
    [sys.get_int_max_str_digits()], which is 4300 unless the interpreter is
    started with another value; leading zeros count. *)
Definition int_max_str_digits : nat := 4300.

Module Raising.

(** [int(s)] on a string of digits. *)
Definition int (s : list ascii) : outcome N :=
  if (int_max_str_digits <? length s)%nat then Raises "ValueError"
  else Returns (Str.to_int s).

(** [map(int, l)], consumed from left to right. *)
Fixpoint ints (l : list (list ascii)) : outcome (list N) :=
  match l with
  | [] => Returns []
  | s :: rest =>
      match int s with
      | Raises e => Raises e
      | Returns n =>
          match ints rest with
          | Raises e => Raises e
          | Returns ns => Returns (n :: ns)
          end
      end
  end.

(** [extract_experience]: the first branch lets the exception of [int]
    through, the second one catches it and returns 0. *)
Definition extract_experience (text : string) : outcome N :=
  let text_lower := chars (normalize_text text) in
  let matches := Re.findall1 years_re text_lower in
  match matches with
  | _ :: _ =>
      match ints matches with
      | Returns ns => Returns (max_list ns)
      | Raises e => Raises e
      end
  | [] =>
      let years := Re.findall1 calendar_re text_lower in
      if (2 <=? length years)%nat
      then match ints years with
           | Returns ys => Returns (max_list ys - min_list ys)%N
           | Raises _ => Returns 0%N
           end
      else Returns 0%N
  end.

(** [parse]: the entries of the dictionary are computed in order, and the
    only one that can raise is the years of experience. *)
Definition parse (rt : runtime) (text : string) : outcome candidate :=
  match extract_experience text with
  | Returns years =>
      Returns {| name := extract_name text;
                 email := extract_email text;
                 phone := extract_phone text;
                 skills := extract_skills rt text;
                 years_experience := years;
                 raw_text := text |}
  | Raises e => Raises e
  end.

End Raising.

(** ** The loop over the uploaded files *)

Inductive recommendation : Type := StrongHire | Interview | Reject.

Definition recommend (score : Q) : recommendation :=
  if Qle_bool 85 score then StrongHire
  else if Qle_bool 60 score then Interview
  else Reject.

Record row : Type := Row {
  Name : string;
  Score : Q;
  Skill_Match : pynum;
  Experience : N;
  Recommendation : recommendation;
  Email : string;
  Missing_Skills : string;
  Matched_Skills : string
}.

Section Pipeline.

Context (rt : runtime) (matcher : job_matcher).

(** The row appended to [results] for a candidate. *)
Definition result_row (c : candidate) : row :=
  let '(score, missing, skill_percent) := calculate_score rt matcher c in
  {| Name := name c;
     Score := score;
     Skill_Match := skill_percent;
     Experience := years_experience c;
     Recommendation := recommend score;
     Email := email c;
     Missing_Skills := Str.join ", " missing;
     Matched_Skills := Str.join ", " (skills c) |}.

(** The loop, from the rows appended and the messages shown so far.  A
    failure inside [extract_text] only adds a message.  When [parse] raises,
    the exception leaves the loop: the script stops there and no table is
    built from [results]; the messages already shown stay. *)
Fixpoint loop (files : list uploaded_file) (results : list row) (messages : list string)
  : outcome (list row) * list string :=
  match files with
  | [] => (Returns results, messages)
  | file :: rest =>
      let '(text, errors) := extract_text file in
      match Raising.parse rt text with
      | Returns c => loop rest (results ++ [result_row c])%list (messages ++ errors)%list
      | Raises e => (Raises e, (messages ++ errors)%list)
      end
  end.

Definition process_files (files : list uploaded_file) : outcome (list row) * list string :=
  loop files [] [].

End Pipeline.

(** Two interpreter processes that enumerate sets in opposite orders. *)
Definition sorted_runtime : runtime := Runtime elements (fun s => reflexivity _).

Lemma reverse_elements_perm (s : gset string) : reverse (elements s) ≡ₚ elements s.
Proof. apply reverse_Permutation. Qed.

Definition reversed_runtime : runtime :=
  Runtime (fun s => reverse (elements s)) reverse_elements_perm.

Definition scenario_A : string :=
  "Jane Doe
jane.doe@example.com
555-123-4567
Skills: Python, SQL, AWS
5 years experience".

Definition profile_A : job_matcher := new_matcher ["python"; "sql"; "aws"; "docker"] 3.

(** ** Scanning a text, as the specification words it *)

Module Scan.

(** The longest prefix of [s] whose characters satisfy [f], and what
    follows it. *)
Fixpoint take_run (f : ascii -> bool) (s : list ascii) : list ascii :=
  match s with
  | c :: s' => if f c then c :: take_run f s' else []
  | [] => []
  end.

Fixpoint drop_run (f : ascii -> bool) (s : list ascii) : list ascii :=
  match s with
  | c :: s' => if f c then drop_run f s' else s
  | [] => []
  end.

(** Every run of spaces replaced by one space. *)
Fixpoint collapse_aux (in_run : bool) (s : list ascii) : list ascii :=
  match s with
  | [] => []
  | c :: s' =>
      if Chars.is_space c
      then if in_run then collapse_aux true s' else " "%char :: collapse_aux true s'
      else c :: collapse_aux false s'
  end.
Definition collapse_spaces (s : list ascii) : list ascii := collapse_aux false s.


(** A scan of a text from left to right with a matcher [m]: where [m]
    reads a phrase it yields the phrase's number text and the rest of the
    text, and the scan resumes there; elsewhere the scan moves on by one
    character. *)
Inductive scans (m : list ascii -> option (list ascii * list ascii))
  : list ascii -> list (list ascii) -> Prop :=
| scans_end : m [] = None -> scans m [] []
| scans_skip c a l : m (c :: a) = None -> scans m a l -> scans m (c :: a) l
| scans_hit a grp a' l : m a = Some (grp, a') -> scans m a' l -> scans m a (grp :: l).

(** A calendar year: "20" and two digits. *)
Definition calendar_year_at (s : list ascii) : option (list ascii * list ascii) :=
  match s with
  | c1 :: c2 :: c3 :: c4 :: rest =>
      if bool_decide (c1 = "2"%char) && bool_decide (c2 = "0"%char)
         && Chars.is_digit c3 && Chars.is_digit c4
      then Some ([c1; c2; c3; c4], rest) else None
  | _ => None
  end.

(** [s] without the prefix [w], when it starts with it. *)
Fixpoint strip_prefix (w s : list ascii) : option (list ascii) :=
  match w with
  | [] => Some s
  | c :: w' =>
      match s with
      | d :: s' => if bool_decide (d = c) then strip_prefix w' s' else None
      | [] => None
      end
  end.

(** [s] without its first character when that is [c]. *)
Definition skip_char (c : ascii) (s : list ascii) : list ascii :=
  match s with
  | d :: s' => if bool_decide (d = c) then s' else s
  | [] => []
  end.

(** What may follow the digits of a phrase: an optional "+", spaces,
    "year" and an optional "s". *)
Definition year_tail (s : list ascii) : option (list ascii) :=
  match strip_prefix (chars "year")
          (drop_run Chars.is_space (skip_char "+" s)) with
  | Some rest => Some (skip_char "s" rest)
  | None => None
  end.

(** A phrase "N years": a run of digits and its tail. *)
Definition year_phrase_at (s : list ascii) : option (list ascii * list ascii) :=
  match take_run Chars.is_digit s with
  | [] => None
  | ds =>
      match year_tail (drop_run Chars.is_digit s) with
      | Some rest => Some (ds, rest)
      | None => None
      end
  end.

(** The scan as a function. *)
Fixpoint scan_fuel (m : list ascii -> option (list ascii * list ascii))
    (fuel : nat) (s : list ascii) : list (list ascii) :=
  match fuel with
  | O => []
  | S fuel' =>
      match m s with
      | Some (grp, s') => grp :: scan_fuel m fuel' s'
      | None =>
          match s with
          | [] => []
          | _ :: s1 => scan_fuel m fuel' s1
          end
      end
  end.
Definition scan (m : list ascii -> option (list ascii * list ascii))
    (s : list ascii) : list (list ascii) :=
  scan_fuel m (S (length s)) s.

(** A text without any space. *)
Definition no_space (s : list ascii) : Prop := Forall (fun c => Chars.is_space c = false) s.

(** The text of the last group closed at a position. *)
Definition group_of (q : Re.pos) : list ascii :=
  match Re.groups q with g :: _ => g | [] => [] end.

(** The parts of the pattern of the phrases, and what the last one reads. *)
Definition word_re : Re.regex := Re.Cat (Re.Lit (chars "year")) (Re.Opt (Re.Chr "s")).
Definition spaced_re : Re.regex := Re.Cat (Re.Star (Re.Cls Chars.is_space)) word_re.
Definition tail_re : Re.regex := Re.Cat (Re.Opt (Re.Chr "+")) spaced_re.

Definition word_at (s : list ascii) : option (list ascii) :=
  match strip_prefix (chars "year") s with
  | Some rest => Some (skip_char "s" rest)
  | None => None
  end.

End Scan.

(** ** The quantities and the examples of the properties *)

(** A percentage: a quotient between 0 and 1, times 100. *)
Definition percent (a b : Z) : Q := F64.mul (F64.int_div a b) (F64.of_int 100).

(** The required skills a candidate has. *)
Definition overlap (m : job_matcher) (c : candidate) : gset string :=
  list_to_set (skills c) ∩ req_skills m.

(** A text of ASCII characters. *)
Definition ascii_text (s : string) : Prop :=
  forallb (fun c => (Chars.code c <? 128)%N) (chars s) = true.

(** The vocabulary of the specification, written out: the space
    characters, the digits with their values, the capital letters with
    their lower case; the operations on texts in its words. *)
Module Spec.

Definition spaces : list ascii :=
  [" "; "009"; "010"; "011"; "012"; "013"; "028"; "029"; "030"; "031"]%char.
Definition digits : list ascii := chars "0123456789".
Definition capitals : list ascii := chars "ABCDEFGHIJKLMNOPQRSTUVWXYZ".
Definition smalls : list ascii := chars "abcdefghijklmnopqrstuvwxyz".

Definition is_space (c : ascii) : bool := bool_decide (c ∈ spaces).
Definition is_digit (c : ascii) : bool := bool_decide (c ∈ digits).

(** The character of [to] at the place of [c] in [from], or [c]. *)
Fixpoint translate (from to : list ascii) (c : ascii) : ascii :=
  match from, to with
  | a :: from', b :: to' => if bool_decide (c = a) then b else translate from' to' c
  | _, _ => c
  end.

(** Lower case. *)
Definition lower (s : list ascii) : list ascii := map (translate capitals smalls) s.

(** Every run of spaces replaced by one space. *)
Fixpoint collapse (after_space : bool) (s : list ascii) : list ascii :=
  match s with
  | [] => []
  | c :: s' =>
      if is_space c
      then if after_space then collapse true s' else " "%char :: collapse true s'
      else c :: collapse false s'
  end.

(** The spaces at the left end, and at the right end, removed. *)
Fixpoint strip_left (s : list ascii) : list ascii :=
  match s with
  | c :: s' => if is_space c then strip_left s' else s
  | [] => []
  end.

Fixpoint strip_right (s : list ascii) : list ascii :=
  match s with
  | [] => []
  | c :: s' =>
      match strip_right s' with
      | [] => if is_space c then [] else [c]
      | kept => c :: kept
      end
  end.

(** The value of a digit: its place among the digits. *)
Fixpoint place (c : ascii) (ds : list ascii) (v : N) : N :=
  match ds with
  | [] => 0%N
  | d :: ds' => if bool_decide (c = d) then v else place c ds' (v + 1)%N
  end.
Definition digit_value (c : ascii) : N := place c digits 0%N.

(** A phrase "N years" at the start of [s]: digits, an optional "+",
    spaces if any, "year" and an optional "s".  The digits and the rest of
    the text. *)
Definition year_phrase_at (s : list ascii) : option (list ascii * list ascii) :=
  match Scan.take_run is_digit s with
  | [] => None
  | ds =>
      let after_plus := Scan.skip_char "+" (Scan.drop_run is_digit s) in
      match Scan.strip_prefix (chars "year") (Scan.drop_run is_space after_plus) with
      | Some rest => Some (ds, Scan.skip_char "s" rest)
      | None => None
      end
  end.

End Spec.

(** Normalization, as the specification words it: lower case, every run of
    spaces collapsed to one space, spaces at both ends removed. *)
Definition spec_normalize (s : string) : string :=
  text_of (Spec.strip_right (Spec.strip_left (Spec.collapse false (Spec.lower (chars s))))).

(** The digits of the phrases "N years" of a text, read from left to right
    on the normalized text. *)
Definition spec_year_phrases (text : string) : list (list ascii) :=
  Scan.scan Spec.year_phrase_at (chars (spec_normalize text)).

(** Whether a string of digits is too long for [int]. *)
Definition too_long (ds : list ascii) : bool := (int_max_str_digits <? length ds)%nat.

(** A character of the ASCII range. *)
Definition ascii_char (a : ascii) : Prop := (Chars.code a < 128)%N.

(** ** Texts of arbitrary characters *)

(** [normalize_text], [extract_experience] and [JobMatcher] on texts whose
    characters are any code points.  What Python looks up in the Unicode
    tables for a character outside the ASCII range (whether it is a space,
    whether it is a decimal digit and of which value, the lower case of a
    text) is a parameter, [tables]. *)
Module Uni.

(** A character is its code point. *)
Definition char : Type := N.

Definition of_ascii (c : ascii) : char := Chars.code c.
Definition of_string (s : string) : list char := map of_ascii (chars s).

(** *** Regular expressions *)

Inductive regex : Type :=
| Eps : regex
| Chr : char -> regex
| Cls : (char -> bool) -> regex
| Cat : regex -> regex -> regex
| Alt : regex -> regex -> regex
| Star : regex -> regex
| Grp : regex -> regex.

Definition Opt (r : regex) : regex := Alt r Eps.
Definition Plus (r : regex) : regex := Cat r (Star r).

Fixpoint Rep (n : nat) (r : regex) : regex :=
  match n with
  | O => Eps
  | S n' => Cat r (Rep n' r)
  end.

Fixpoint Lit (s : list char) : regex :=
  match s with
  | [] => Eps
  | c :: s' => Cat (Chr c) (Lit s')
  end.

Record pos : Type := Pos {
  before : list char;
  ahead : list char;
  groups : list (list char)
}.

Definition step (p : pos) (ok : char -> bool) : option pos :=
  match ahead p with
  | c :: rest => if ok c then Some (Pos (c :: before p) rest (groups p)) else None
  | [] => None
  end.

Definition close_group (start : pos) (p : pos) : pos :=
  let n := (length (before p) - length (before start))%nat in
  Pos (before p) (ahead p) (rev (firstn n (before p)) :: groups p).

Fixpoint star_loop {A : Type} (body : pos -> (pos -> option A) -> option A)
    (k : pos -> option A) (fuel : nat) (p : pos) : option A :=
  match fuel with
  | O => k p
  | S fuel' =>
      match body p (fun p' =>
              if (length (ahead p') <? length (ahead p))%nat
              then star_loop body k fuel' p' else None) with
      | Some a => Some a
      | None => k p
      end
  end.

Fixpoint run {A : Type} (r : regex) (p : pos) (k : pos -> option A) : option A :=
  match r with
  | Eps => k p
  | Chr c => match step p (fun d => bool_decide (d = c)) with
             | Some p' => k p'
             | None => None
             end
  | Cls f => match step p f with
             | Some p' => k p'
             | None => None
             end
  | Cat r1 r2 => run r1 p (fun p' => run r2 p' k)
  | Alt r1 r2 => match run r1 p k with
                 | Some a => Some a
                 | None => run r2 p k
                 end
  | Star r1 => star_loop (run r1) k (length (ahead p)) p
  | Grp r1 => run r1 p (fun p' => k (close_group p p'))
  end.

Definition match_at (r : regex) (p : pos) : option pos :=
  run r (Pos (before p) (ahead p) []) Some.

Definition matched (start stop : pos) : list char :=
  rev (firstn (length (before stop) - length (before start)) (before stop)).

Definition advance (p : pos) : option pos :=
  match ahead p with
  | c :: rest => Some (Pos (c :: before p) rest [])
  | [] => None
  end.

Fixpoint search_from (fuel : nat) (r : regex) (p : pos) : option (pos * pos) :=
  match match_at r p with
  | Some q => Some (p, q)
  | None =>
      match fuel, advance p with
      | S fuel', Some p' => search_from fuel' r p'
      | _, _ => None
      end
  end.

Definition start_of (s : list char) : pos := Pos [] s [].

Fixpoint matches_from (fuel : nat) (r : regex) (p : pos) : list (pos * pos) :=
  match fuel with
  | O => []
  | S fuel' =>
      match search_from (length (ahead p)) r p with
      | None => []
      | Some (a, b) =>
          (a, b) ::
          (if (length (ahead b) <? length (ahead a))%nat
           then matches_from fuel' r b
           else match advance b with
                | Some b' => matches_from fuel' r b'
                | None => []
                end)
      end
  end.

Definition all_matches (r : regex) (s : list char) : list (pos * pos) :=
  matches_from (S (length s)) r (start_of s).

Definition findall1 (r : regex) (s : list char) : list (list char) :=
  map (fun m => match groups (snd m) with g :: _ => g | [] => [] end)
      (all_matches r s).

Fixpoint sub_from (fuel : nat) (r : regex) (repl : list char) (p : pos) : list char :=
  match fuel with
  | O => ahead p
  | S fuel' =>
      match search_from (length (ahead p)) r p with
      | None => ahead p
      | Some (a, b) =>
          matched p a ++ repl ++
          (if (length (ahead b) <? length (ahead a))%nat
           then sub_from fuel' r repl b
           else match ahead b with
                | c :: rest => c :: sub_from fuel' r repl (Pos (c :: before b) rest [])
                | [] => []
                end)
      end
  end.

Definition sub (r : regex) (repl s : list char) : list char :=
  sub_from (S (length s)) r repl (start_of s).

(** *** The Unicode tables *)

(** For the characters outside the ASCII range: whether [\s], [strip] and
    [split] take the character for a space ([str.isspace]); the value of
    the character when [\d] and [int] take it for a decimal digit; and the
    result of [str.lower()] on a text that is not all ASCII.  No decimal
    digit is a space. *)
Record tables : Type := Tables {
  space : char -> bool;
  decimal : char -> option N;
  lower : list char -> list char;
  decimal_not_space : forall c v, decimal c = Some v -> space c = false
}.

(** Tables that know no character outside the ASCII range. *)
Definition no_tables : tables :=
  {| space := fun _ => false;
     decimal := fun _ => None;
     lower := fun t => t;
     decimal_not_space := fun c v (H : None = Some v) => eq_refl |}.

(** A few entries of the tables of Python: the no-break space and the
    next-line character are spaces, the characters U+0660 to U+0669 are the
    Arabic-Indic digits 0 to 9. *)
Definition sample_space (c : char) : bool := ((c =? 160) || (c =? 133))%N.
Definition sample_decimal (c : char) : option N :=
  if ((1632 <=? c) && (c <=? 1641))%N then Some (c - 1632)%N else None.

Lemma sample_decimal_not_space (c : char) (v : N) :
  sample_decimal c = Some v -> sample_space c = false.
Proof.
  unfold sample_decimal, sample_space.
  destruct ((1632 <=? c) && (c <=? 1641))%N eqn:E; [|discriminate].
  intros _. apply andb_true_iff in E as [E _]. apply N.leb_le in E.
  apply orb_false_iff. split; apply N.eqb_neq; lia.
Qed.

(** Lower case in the Latin-1 range: the ASCII capitals and the capitals
    U+00C0 to U+00DE, the multiplication sign U+00D7 apart. *)
Definition sample_lower_char (c : char) : char :=
  if (((65 <=? c) && (c <=? 90)) ||
      ((192 <=? c) && (c <=? 222) && negb (c =? 215)))%N
  then (c + 32)%N else c.

Definition sample_tables : tables :=
  {| space := sample_space;
     decimal := sample_decimal;
     lower := map sample_lower_char;
     decimal_not_space := sample_decimal_not_space |}.

Section Tables.

Context (U : tables).

Definition is_ascii (c : char) : bool := (c <? 128)%N.

(** [\s], and the characters that [strip] removes. *)
Definition is_space (c : char) : bool :=
  if is_ascii c then Chars.is_space (ascii_of_N c) else space U c.

(** The value of a decimal digit: [\d] matches the characters that have
    one, and [int] reads it. *)
Definition digit_of (c : char) : option N :=
  if is_ascii c
  then if Chars.is_digit (ascii_of_N c) then Some (c - 48)%N else None
  else decimal U c.

Definition is_digit (c : char) : bool :=
  match digit_of c with Some _ => true | None => false end.

(** [s.lower()] *)
Definition str_lower (s : list char) : list char :=
  if forallb is_ascii s
  then map (fun c => of_ascii (Chars.lower (ascii_of_N c))) s
  else lower U s.

Fixpoint lstrip (s : list char) : list char :=
  match s with
  | c :: s' => if is_space c then lstrip s' else s
  | [] => []
  end.

(** [s.strip()] *)
Definition strip (s : list char) : list char := rev (lstrip (rev (lstrip s))).

Definition ws_run : regex := Plus (Cls is_space).

(** [re.sub(r'\s+', ' ', text.lower()).strip()] *)
Definition normalize_text (text : list char) : list char :=
  strip (sub ws_run [of_ascii " "] (str_lower text)).

(** [(\d+)\+?\s*years?] *)
Definition years_re : regex :=
  Cat (Grp (Plus (Cls is_digit)))
 (Cat (Opt (Chr (of_ascii "+")))
 (Cat (Star (Cls is_space))
 (Cat (Lit (of_string "year"))
      (Opt (Chr (of_ascii "s")))))).

(** [(20\d{2})] *)
Definition calendar_re : regex :=
  Grp (Cat (Lit (of_string "20")) (Rep 2 (Cls is_digit))).

(** [int(s)] on a string of decimal digits. *)
Definition to_int (s : list char) : N :=
  fold_left (fun acc c => (10 * acc + default 0 (digit_of c))%N) s 0%N.

Definition int (s : list char) : outcome N :=
  if (int_max_str_digits <? length s)%nat then Raises "ValueError"
  else Returns (to_int s).

Fixpoint ints (l : list (list char)) : outcome (list N) :=
  match l with
  | [] => Returns []
  | s :: rest =>
      match int s with
      | Raises e => Raises e
      | Returns n =>
          match ints rest with
          | Raises e => Raises e
          | Returns ns => Returns (n :: ns)
          end
      end
  end.

Definition extract_experience (text : list char) : outcome N :=
  let text_lower := normalize_text text in
  let matches := findall1 years_re text_lower in
  match matches with
  | _ :: _ =>
      match ints matches with
      | Returns ns => Returns (max_list ns)
      | Raises e => Raises e
      end
  | [] =>
      let years := findall1 calendar_re text_lower in
      if (2 <=? length years)%nat
      then match ints years with
           | Returns ys => Returns (max_list ys - min_list ys)%N
           | Raises _ => Returns 0%N
           end
      else Returns 0%N
  end.

End Tables.

(** *** JobMatcher *)

(** [list(s)] on a set of texts. *)
Record runtime : Type := Runtime {
  set_order : gset (list char) -> list (list char);
  set_order_perm : forall s, set_order s ≡ₚ elements s
}.

Record job_matcher : Type := JobMatcher {
  req_skills : gset (list char);
  min_exp : N
}.

Definition new_matcher (U : tables) (required_skills : list (list char)) (min_exp : N)
  : job_matcher :=
  {| req_skills := list_to_set (map (normalize_text U) required_skills);
     min_exp := min_exp |}.

(** The entries of a candidate that [calculate_score] reads. *)
Record candidate : Type := Candidate {
  skills : list (list char);
  years_experience : N
}.

Section Matcher.

Context (rt : runtime).

Definition skill_part (self : job_matcher) (c : candidate) : pynum * list (list char) :=
  let candidate_skills : gset (list char) := list_to_set (skills c) in
  if decide (req_skills self = ∅) then (PyInt 100, [])
  else
    let matched := candidate_skills ∩ req_skills self in
    let missing := set_order rt (req_skills self ∖ candidate_skills) in
    (PyFloat (F64.mul (F64.int_div (Z.of_nat (size matched))
                                   (Z.of_nat (size (req_skills self))))
                      (F64.of_int 100)),
     missing).

Definition skill_score (self : job_matcher) (c : candidate) : pynum :=
  fst (skill_part self c).

Definition exp_score (self : job_matcher) (c : candidate) : pynum :=
  let candidate_exp := years_experience c in
  if (min_exp self <=? candidate_exp)%N then PyInt 100
  else if (0 <? min_exp self)%N
       then PyFloat (F64.mul (F64.int_div (Z.of_N candidate_exp) (Z.of_N (min_exp self)))
                             (F64.of_int 100))
       else PyInt 100.

Definition final_score (self : job_matcher) (c : candidate) : Q :=
  F64.add (mul_float (skill_score self c) weight_skill)
          (mul_float (exp_score self c) weight_exp).

Definition calculate_score (self : job_matcher) (c : candidate)
  : Q * list (list char) * pynum :=
  (F64.round1 (final_score self c),
   snd (skill_part self c),
   py_round1 (skill_score self c)).

End Matcher.

(** *** Scanning a text *)

Fixpoint take_run (f : char -> bool) (s : list char) : list char :=
  match s with
  | c :: s' => if f c then c :: take_run f s' else []
  | [] => []
  end.

Fixpoint drop_run (f : char -> bool) (s : list char) : list char :=
  match s with
  | c :: s' => if f c then drop_run f s' else s
  | [] => []
  end.

(** Every run of spaces replaced by one space. *)
Fixpoint collapse (sp : char -> bool) (after_space : bool) (s : list char) : list char :=
  match s with
  | [] => []
  | c :: s' =>
      if sp c
      then if after_space then collapse sp true s'
           else of_ascii " " :: collapse sp true s'
      else c :: collapse sp false s'
  end.

(** The spaces at the left end, and at the right end, removed. *)
Fixpoint strip_left (sp : char -> bool) (s : list char) : list char :=
  match s with
  | c :: s' => if sp c then strip_left sp s' else s
  | [] => []
  end.

Fixpoint strip_right (sp : char -> bool) (s : list char) : list char :=
  match s with
  | [] => []
  | c :: s' =>
      match strip_right sp s' with
      | [] => if sp c then [] else [c]
      | kept => c :: kept
      end
  end.

Inductive scans (m : list char -> option (list char * list char))
  : list char -> list (list char) -> Prop :=
| scans_end : m [] = None -> scans m [] []
| scans_skip c a l : m (c :: a) = None -> scans m a l -> scans m (c :: a) l
| scans_hit a grp a' l : m a = Some (grp, a') -> scans m a' l -> scans m a (grp :: l).

Fixpoint strip_prefix (w s : list char) : option (list char) :=
  match w with
  | [] => Some s
  | c :: w' =>
      match s with
      | d :: s' => if bool_decide (d = c) then strip_prefix w' s' else None
      | [] => None
      end
  end.

Definition skip_char (c : char) (s : list char) : list char :=
  match s with
  | d :: s' => if bool_decide (d = c) then s' else s
  | [] => []
  end.

(** A calendar year at the start of [s]: "20" and two digits. *)
Definition calendar_year_at (dg : char -> bool) (s : list char)
  : option (list char * list char) :=
  match s with
  | c1 :: c2 :: c3 :: c4 :: rest =>
      if bool_decide ([c1; c2] = of_string "20") && dg c3 && dg c4
      then Some ([c1; c2; c3; c4], rest) else None
  | _ => None
  end.

(** A phrase "N years" at the start of [s]: digits, an optional "+",
    spaces if any, "year" and an optional "s".  The digits and the rest of
    the text. *)
Definition year_phrase_at (dg sp : char -> bool) (s : list char)
  : option (list char * list char) :=
  match take_run dg s with
  | [] => None
  | ds =>
      let after_plus := skip_char (of_ascii "+") (drop_run dg s) in
      match strip_prefix (of_string "year") (drop_run sp after_plus) with
      | Some rest => Some (ds, skip_char (of_ascii "s") rest)
      | None => None
      end
  end.

(** A text without any space. *)
Definition no_space (sp : char -> bool) (s : list char) : Prop :=
  Forall (fun c => sp c = false) s.

(** The text of the last group closed at a position. *)
Definition group_of (q : pos) : list char :=
  match groups q with g :: _ => g | [] => [] end.

(** The parts of the pattern of the phrases, and what they read. *)
Definition word_re : regex := Cat (Lit (of_string "year")) (Opt (Chr (of_ascii "s"))).
Definition spaced_re (sp : char -> bool) : regex := Cat (Star (Cls sp)) word_re.
Definition tail_re (sp : char -> bool) : regex :=
  Cat (Opt (Chr (of_ascii "+"))) (spaced_re sp).

Definition word_at (s : list char) : option (list char) :=
  match strip_prefix (of_string "year") s with
  | Some rest => Some (skip_char (of_ascii "s") rest)
  | None => None
  end.

Definition year_tail (sp : char -> bool) (s : list char) : option (list char) :=
  word_at (drop_run sp (skip_char (of_ascii "+") s)).

Fixpoint scan_fuel (m : list char -> option (list char * list char))
    (fuel : nat) (s : list char) : list (list char) :=
  match fuel with
  | O => []
  | S fuel' =>
      match m s with
      | Some (grp, s') => grp :: scan_fuel m fuel' s'
      | None =>
          match s with
          | [] => []
          | _ :: s1 => scan_fuel m fuel' s1
          end
      end
  end.
Definition scan (m : list char -> option (list char * list char))
    (s : list char) : list (list char) :=
  scan_fuel m (S (length s)) s.

(** *** The vocabulary of the specification *)

Section Spec.

Context (U : tables).

(** The space characters: those listed for the ASCII range, and those of
    the tables. *)
Definition spec_is_space (c : char) : bool :=
  bool_decide (c ∈ map of_ascii Spec.spaces) || (negb (c <? 128)%N && space U c).

(** The value of a digit: its place in "0123456789", or the one of the
    tables. *)
Definition spec_digit_value (c : char) : option N :=
  if bool_decide (c ∈ map of_ascii Spec.digits)
  then Some (Spec.digit_value (ascii_of_N c))
  else if (c <? 128)%N then None else decimal U c.

Definition spec_is_digit (c : char) : bool :=
  match spec_digit_value c with Some _ => true | None => false end.

(** Lower case: by the table of the 26 capitals when the text is made of
    ASCII characters, by the tables otherwise. *)
Definition spec_lower (s : list char) : list char :=
  if forallb (fun c => (c <? 128)%N) s
  then map (fun c => of_ascii (Spec.translate Spec.capitals Spec.smalls (ascii_of_N c))) s
  else lower U s.


(** Normalization: lower case, every run of spaces collapsed to one space,
    spaces at both ends removed. *)
Definition spec_normalize (s : list char) : list char :=
  strip_right spec_is_space
    (strip_left spec_is_space (collapse spec_is_space false (spec_lower s))).

(** The digits of the phrases "N years", their numbers and the calendar
    years of a text, read from left to right on the normalized text. *)
Definition spec_year_phrases (text : list char) : list (list char) :=
  scan (year_phrase_at spec_is_digit spec_is_space) (spec_normalize text).



End Spec.

(** Whether a string of digits is too long for [int]. *)
Definition too_long (ds : list char) : bool := (int_max_str_digits <? length ds)%nat.

End Uni.

Definition scenario_D : string := "Software Engineer, Acme Corp (2018 - 2023)".


Definition cv_long_number : string :=
  text_of (repeat "1"%char 4301 ++ chars " years")%list.

(** A text file that holds the phrase with the long number. *)
Definition cv_long_txt : uploaded_file :=
  {| file_name := "cv.txt";
     as_pdf := Raises "no PDF header";
     as_docx := Raises "not a zip file";
     as_utf8 := Returns cv_long_number |}.

Definition cv_broken_page : uploaded_file :=
  {| file_name := "cv.pdf";
     as_pdf := Returns [Returns "Jane Doe"; Raises "bad page"; Returns "Skills: Python"];
     as_docx := Raises "not a zip file";
     as_utf8 := Raises "invalid start byte" |}.

Definition cv_rtf : uploaded_file :=
  {| file_name := "cv.rtf";
     as_pdf := Raises "no PDF header";
     as_docx := Raises "not a zip file";
     as_utf8 := Returns "{\rtf1 Jane Doe}" |}.

Definition profile_two_missing : job_matcher := new_matcher ["python"; "docker"; "aws"] 0.

Definition junior : candidate :=
  {| name := "Ann Lee"; email := "Not Found"; phone := "Not Found";
     skills := ["python"]; years_experience := 1; raw_text := "" |}.

Definition senior : candidate :=
  {| name := "Ann Lee"; email := "Not Found"; phone := "Not Found";
     skills := ["sql"; "python"; "git"]; years_experience := 4; raw_text := "" |}.

Definition no_candidate : candidate :=
  {| name := "Unknown"; email := "Not Found"; phone := "Not Found";
     skills := []; years_experience := 0; raw_text := "" |}.

(** ** The arithmetic of the score, and the same in IEEE 754 operations *)

(** The final score as a function of the number [k] of required skills
    the candidate has, the number [n] of required skills, the years [c] of
    the candidate and the minimum [m]. *)
Definition score_formula (k n c m : Z) : Q :=
  let skill := if (n =? 0)%Z then F64.of_int 100 else percent k n in
  let exp := if (m <=? c)%Z then F64.of_int 100 else percent c m in
  F64.round1 (F64.add (F64.mul skill weight_skill) (F64.mul exp weight_exp)).

(** The same computation with the binary64 operations of the Standard
    Library's specification of IEEE 754 ([SpecFloat]). *)
Module IEEE.

Definition prec : Z := 53.
Definition emax : Z := 1024.

Definition of_int (z : Z) : spec_float :=
  match z with
  | Z0 => S754_zero false
  | Zpos p => S754_finite false p 0
  | Zneg p => S754_finite true p 0
  end.

Definition div : spec_float -> spec_float -> spec_float := SFdiv prec emax.
Definition mul : spec_float -> spec_float -> spec_float := SFmul prec emax.
Definition add : spec_float -> spec_float -> spec_float := SFadd prec emax.

(** The rational a finite float denotes. *)
Definition value (x : spec_float) : option Q :=
  match x with
  | S754_zero _ => Some 0%Q
  | S754_finite s m e =>
      Some (Qred ((if s then -1 else 1) * inject_Z (Zpos m) * Qpower 2 e))
  | _ => None
  end.

Definition literal (num den : Z) : spec_float := div (of_int num) (of_int den).

Definition round1 (x : spec_float) : option spec_float :=
  match value x with
  | Some q => Some (div (of_int (F64.round_half_even (q * 10))) (of_int 10))
  | None => None
  end.

Definition final (k n c m : Z) : option Q :=
  let skill :=
    if (n =? 0)%Z then of_int 100 else mul (div (of_int k) (of_int n)) (of_int 100) in
  let exp :=
    if (m <=? c)%Z then of_int 100 else mul (div (of_int c) (of_int m)) (of_int 100) in
  match round1 (add (mul skill (literal 7 10)) (mul exp (literal 3 10))) with
  | Some r => value r
  | None => None
  end.

Definition agree (k n c m : Z) : bool :=
  match final k n c m with
  | Some q => if Qeq_dec q (score_formula k n c m) then true else false
  | None => false
  end.

Definition upto (n : nat) : list Z := map Z.of_nat (seq 0 (S n)).

(** Every [k <= n <= N] and [c <= m <= M]. *)
Definition grid (N M : nat) : bool :=
  forallb (fun n => forallb (fun k => forallb (fun m => forallb (fun c =>
    agree k n c m) (upto (Z.to_nat m))) (upto M)) (upto (Z.to_nat n))) (upto N).

End IEEE.

(** ** The words of a pattern *)

Module Lang.
Import Re.

(** [matches r b w a]: the word [w] is read by [r] between the text [b]
    (last character first) and the text [a]. *)
Inductive matches : regex -> list ascii -> list ascii -> list ascii -> Prop :=
| matches_eps b a : matches Eps b [] a
| matches_chr c b a : matches (Chr c) b [c] a
| matches_cls f c b a : f c = true -> matches (Cls f) b [c] a
| matches_cat r1 r2 b w1 w2 a :
    matches r1 b w1 (w2 ++ a) -> matches r2 (rev w1 ++ b) w2 a ->
    matches (Cat r1 r2) b (w1 ++ w2) a
| matches_alt_l r1 r2 b w a : matches r1 b w a -> matches (Alt r1 r2) b w a
| matches_alt_r r1 r2 b w a : matches r2 b w a -> matches (Alt r1 r2) b w a
| matches_star_nil r b a : matches (Star r) b [] a
| matches_star_cons r b w1 w2 a :
    matches r b w1 (w2 ++ a) -> matches (Star r) (rev w1 ++ b) w2 a ->
    matches (Star r) b (w1 ++ w2) a
| matches_grp r b w a : matches r b w a -> matches (Grp r) b w a
| matches_wordb b a : at_boundary (Pos b a []) = true -> matches WordB b [] a.

(** [w] occurs in [s]. *)
Definition occurs (w s : list ascii) : Prop :=
  exists pre post, s = (pre ++ w ++ post)%list.

Definition count_digits (w : list ascii) : nat :=
  length (filter (fun c => Chars.is_digit c = true) w).

End Lang.

(** The shape of an address: a local part, "@", a domain, "." and at least
    two letters; a single "@" and no space. *)
Definition address_shape (w : list ascii) : Prop :=
  exists loc domain tld,
    w = (loc ++ "@"%char :: domain ++ "."%char :: tld)%list /\
    loc <> [] /\ domain <> [] /\ (2 <= length tld)%nat /\
    Forall (fun c => Chars.is_alpha c = true) tld /\
    ("@"%char ∉ loc) /\ ("@"%char ∉ domain) /\
    Forall (fun c => Chars.is_space c = false) w.

(** Whether a vocabulary entry begins (ends) with a word character. *)
Definition starts_word (x : string) : bool :=
  match chars x with c :: _ => Chars.is_word c | [] => false end.
Definition ends_word (x : string) : bool :=
  match rev (chars x) with c :: _ => Chars.is_word c | [] => false end.

(** The recommendations, from the worst to the best. *)
Definition rank (r : recommendation) : nat :=
  match r with Reject => 0 | Interview => 1 | StrongHire => 2 end.

(** Whether reading a document fails. *)
Definition fails (f : uploaded_file) : bool :=
  match snd (read_document f) with Some _ => true | None => false end.

(** Whether [parse] raises on a text, which stops the loop. *)
Definition stops (text : string) : bool :=
  match Raising.extract_experience text with Raises _ => true | Returns _ => false end.

(** The row of a document whose text is parsed, and its messages. *)
Definition row_of (rt : runtime) (m : job_matcher) (f : uploaded_file) : row :=
  result_row rt m (parse rt (fst (extract_text f))).
Definition messages_of (files : list uploaded_file) : list string :=
  concat (map (fun f => snd (extract_text f)) files).
Definition senior_plus : candidate :=
  {| name := "Ann Lee"; email := "Not Found"; phone := "Not Found";
     skills := ["sql"; "python"; "aws"; "docker"; "git"]; years_experience := 4;
     raw_text := "" |}.

(** No two spaces side by side. *)
Definition no_adjacent_spaces (t : list ascii) : Prop :=
  forall u c d v, t = (u ++ c :: d :: v)%list ->
    ~ (Chars.is_space c = true /\ Chars.is_space d = true).

(** A normalized text: no capital letter, no space other than " ", no two
    spaces side by side, no space at either end. *)
Definition tidy (t : list ascii) : Prop :=
  Forall (fun c => Chars.is_upper c = false) t /\
  Forall (fun c => Chars.is_space c = true -> c = " "%char) t /\
  no_adjacent_spaces t /\
  (forall c, head t = Some c -> Chars.is_space c = false) /\
  (forall c, last t = Some c -> Chars.is_space c = false).

(** The characters of a text that are not spaces. *)
Definition solid (t : list ascii) : list ascii :=
  filter (fun c => Chars.is_space c = false) t.

(** The required skills read from the text area of the sidebar:
    [[s.strip().lower() for s in req_skills_input.split(",") if s.strip()]]. *)
Definition sidebar_skills (req_skills_input : string) : list string :=
  map (fun s => text_of (Str.lower (Str.strip s)))
      (filter (fun s => Str.strip s <> [])
              (Str.split_on ","%char (chars req_skills_input))).

(** The given texts, each followed by a line feed. *)
Fixpoint lines_of (l : list string) : string :=
  match l with
  | [] => ""
  | s :: rest => s +:+ "
" +:+ lines_of rest
  end.

(** A text that begins with blank lines. *)
Definition cv_blank_lines : string :=
  "
  	
  Jane Doe 
jane.doe@example.com".

Definition cv_two_pages : uploaded_file :=
  {| file_name := "cv.pdf";
     as_pdf := Returns [Returns "Jane Doe"; Returns ""; Returns "Skills: Python"];
     as_docx := Raises "not a zip file";
     as_utf8 := Raises "invalid start byte" |}.

(** * Properties *)

(** ** Rounding to binary64 is monotone *)

Module F64Facts.
Import F64.
Local Open Scope Q_scope.

Lemma pow2_pos (e : Z) : 0 < pow2 e.
Proof. apply Qpower_0_lt. reflexivity. Qed.

Lemma pow2_add (a b : Z) : pow2 (a + b) == pow2 a * pow2 b.
Proof. apply Qpower_plus. discriminate. Qed.

Lemma pow2_le (a b : Z) : (a <= b)%Z -> pow2 a <= pow2 b.
Proof. intros H. apply Qpower_le_compat_l; [exact H|discriminate]. Qed.

Lemma pow2_of_Z (e : Z) : (0 <= e)%Z -> pow2 e == inject_Z (2 ^ e).
Proof. intros H. symmetry. apply (Zpower_Qpower 2 e H). Qed.

Lemma pow2_cancel (x : Q) (e : Z) : x * pow2 (- e) * pow2 e == x.
Proof.
  rewrite <- Qmult_assoc, <- pow2_add.
  replace (- e + e)%Z with 0%Z by lia. apply Qmult_1_r.
Qed.

(** *** Rounding to an integer *)

Lemma round_half_even_bounds (y : Q) :
  (Qfloor y <= round_half_even y <= Qfloor y + 1)%Z.
Proof.
  unfold round_half_even.
  destruct (Qcompare (y - inject_Z (Qfloor y)) (1 # 2)); [destruct (Z.even _)| |]; lia.
Qed.

Lemma round_half_even_mono (y1 y2 : Q) :
  y1 <= y2 -> (round_half_even y1 <= round_half_even y2)%Z.
Proof.
  intros H.
  pose proof (Qfloor_resp_le _ _ H) as Hf.
  pose proof (round_half_even_bounds y1) as B1.
  pose proof (round_half_even_bounds y2) as B2.
  destruct (Z.eq_dec (Qfloor y1) (Qfloor y2)) as [E|E]; [|lia].
  unfold round_half_even in *. rewrite <- E in *.
  destruct (Qcompare_spec (y1 - inject_Z (Qfloor y1)) (1 # 2)) as [H1|H1|H1];
  destruct (Qcompare_spec (y2 - inject_Z (Qfloor y1)) (1 # 2)) as [H2|H2|H2];
  try destruct (Z.even (Qfloor y1)); try lia; exfalso; lra.
Qed.

Lemma round_half_even_Z (n : Z) : round_half_even (inject_Z n) = n.
Proof.
  unfold round_half_even. rewrite Qfloor_Z.
  destruct (Qcompare_spec (inject_Z n - inject_Z n) (1 # 2)) as [H|H|H];
    [exfalso; lra|reflexivity|exfalso; lra].
Qed.

Lemma round_half_even_comp (y1 y2 : Q) :
  y1 == y2 -> round_half_even y1 = round_half_even y2.
Proof.
  intros H. apply Z.le_antisymm; apply round_half_even_mono; rewrite H; apply Qle_refl.
Qed.

(** *** The binary exponent *)

Lemma Qnum_den (x : Q) : x * inject_Z (Zpos (Qden x)) == inject_Z (Qnum x).
Proof. destruct x as [n d]. unfold Qeq. cbn. lia. Qed.

Lemma ilog2_estimate (x : Q) :
  0 < x ->
  let e := (Z.log2 (Qnum x) - Z.log2 (Zpos (Qden x)))%Z in
  pow2 (e - 1) < x /\ x < pow2 (e + 1).
Proof.
  intros Hx e.
  assert (Hn : (0 < Qnum x)%Z).
  { destruct x as [n d]. unfold Qlt in Hx. cbn in *. lia. }
  set (a := Z.log2 (Qnum x)) in *. set (b := Z.log2 (Zpos (Qden x))) in *.
  destruct (Z.log2_spec (Qnum x) Hn) as [Ha1 Ha2].
  destruct (Z.log2_spec (Zpos (Qden x)) (Pos2Z.is_pos _)) as [Hb1 Hb2].
  fold a in Ha1, Ha2. fold b in Hb1, Hb2.
  assert (Ha : (0 <= a)%Z) by apply Z.log2_nonneg.
  assert (Hb : (0 <= b)%Z) by apply Z.log2_nonneg.
  rewrite <- Z.add_1_r in Ha2, Hb2.
  rewrite Zle_Qle in Ha1, Hb1. rewrite Zlt_Qlt in Ha2, Hb2.
  rewrite <- pow2_of_Z in Ha1, Ha2, Hb1, Hb2 by lia.
  pose proof (Qnum_den x) as Hnd.
  set (N := inject_Z (Qnum x)) in *. set (D := inject_Z (Zpos (Qden x))) in *.
  assert (E1 : pow2 (e - 1) * pow2 (b + 1) == pow2 a).
  { rewrite <- pow2_add. subst e. replace (a - b - 1 + (b + 1))%Z with a by lia. reflexivity. }
  assert (E2 : pow2 (e + 1) * pow2 b == pow2 (a + 1)).
  { rewrite <- pow2_add. subst e. replace (a - b + 1 + b)%Z with (a + 1)%Z by lia. reflexivity. }
  pose proof (pow2_pos (e - 1)) as P1. pose proof (pow2_pos (e + 1)) as P2.
  pose proof (pow2_pos b) as P3.
  split.
  - destruct (Qlt_le_dec (pow2 (e - 1)) x) as [|Hc]; [assumption|exfalso]. nra.
  - destruct (Qlt_le_dec x (pow2 (e + 1))) as [|Hc]; [assumption|exfalso]. nra.
Qed.

Lemma ilog2_spec (x : Q) :
  0 < x -> pow2 (ilog2 x) <= x /\ x < pow2 (ilog2 x + 1).
Proof.
  intros Hx. destruct (ilog2_estimate x Hx) as [H1 H2].
  unfold ilog2.
  set (e := (Z.log2 (Qnum x) - Z.log2 (Zpos (Qden x)))%Z) in *.
  destruct (Qle_bool (pow2 e) x) eqn:Hb.
  - apply Qle_bool_iff in Hb. split; assumption.
  - assert (Hlt : x < pow2 e).
    { apply Qnot_le_lt. intros Hc. apply Qle_bool_iff in Hc. congruence. }
    replace (e - 1 + 1)%Z with e by lia. split; [apply Qlt_le_weak|]; assumption.
Qed.

Lemma pow2_lt_inv (a b : Z) : pow2 a < pow2 b -> (a < b)%Z.
Proof. intros H. apply (Qpower_lt_compat_l_inv 2 a b H). reflexivity. Qed.

Lemma ilog2_mono (x y : Q) : 0 < x -> x <= y -> (ilog2 x <= ilog2 y)%Z.
Proof.
  intros Hx Hxy.
  destruct (ilog2_spec x Hx) as [H1 _].
  destruct (ilog2_spec y) as [_ H2]; [lra|].
  assert (H : pow2 (ilog2 x) < pow2 (ilog2 y + 1)) by lra.
  apply pow2_lt_inv in H. lia.
Qed.

(** *** Rounding to binary64 *)

Lemma Qmult_zero_l (x q : Q) : x == 0 -> x * q == 0.
Proof.
  intros H. apply Qeq_trans with (0 * q); [|apply Qmult_0_l].
  apply Qmult_comp; [exact H|reflexivity].
Qed.

Lemma round_pos_value (x : Q) :
  round_pos x == inject_Z (round_half_even (x * pow2 (- ulp_exp x))) * pow2 (ulp_exp x).
Proof. unfold round_pos. apply Qred_correct. Qed.

Lemma round_pos_zero (x : Q) : x == 0 -> round_pos x = 0.
Proof.
  intros H. unfold round_pos.
  rewrite (round_half_even_comp _ (inject_Z 0)) by (apply Qmult_zero_l, H).
  rewrite round_half_even_Z.
  change 0 with (Qred 0). apply Qred_complete. apply Qmult_0_l.
Qed.

Lemma round_pos_nonneg (x : Q) : 0 <= x -> 0 <= round_pos x.
Proof.
  intros H. rewrite round_pos_value.
  apply Qmult_le_0_compat; [|apply Qlt_le_weak, pow2_pos].
  change 0 with (inject_Z 0). rewrite <- Zle_Qle.
  rewrite <- (round_half_even_Z 0). apply round_half_even_mono.
  apply Qmult_le_0_compat; [exact H|apply Qlt_le_weak, pow2_pos].
Qed.

(** A scaled value below (above) a power of two rounds below (above) it. *)
Lemma round_scaled_le (x : Q) (f e : Z) :
  (f <= e)%Z -> x <= pow2 e ->
  inject_Z (round_half_even (x * pow2 (- f))) * pow2 f <= pow2 e.
Proof.
  intros Hfe Hx.
  assert (E : pow2 e == inject_Z (2 ^ (e - f)) * pow2 f).
  { rewrite <- pow2_of_Z by lia. rewrite <- pow2_add.
    replace (e - f + f)%Z with e by lia. reflexivity. }
  rewrite E. apply Qmult_le_compat_r; [|apply Qlt_le_weak, pow2_pos].
  rewrite <- Zle_Qle. rewrite <- (round_half_even_Z (2 ^ (e - f))).
  apply round_half_even_mono.
  rewrite <- pow2_of_Z by lia.
  replace (e - f)%Z with (e + - f)%Z by lia. rewrite pow2_add.
  apply Qmult_le_compat_r; [exact Hx|apply Qlt_le_weak, pow2_pos].
Qed.

Lemma round_scaled_ge (x : Q) (f e : Z) :
  (f <= e)%Z -> pow2 e <= x ->
  pow2 e <= inject_Z (round_half_even (x * pow2 (- f))) * pow2 f.
Proof.
  intros Hfe Hx.
  assert (E : pow2 e == inject_Z (2 ^ (e - f)) * pow2 f).
  { rewrite <- pow2_of_Z by lia. rewrite <- pow2_add.
    replace (e - f + f)%Z with e by lia. reflexivity. }
  rewrite E. apply Qmult_le_compat_r; [|apply Qlt_le_weak, pow2_pos].
  rewrite <- Zle_Qle. rewrite <- (round_half_even_Z (2 ^ (e - f))) at 1.
  apply round_half_even_mono.
  rewrite <- pow2_of_Z by lia.
  replace (e - f)%Z with (e + - f)%Z by lia. rewrite pow2_add.
  apply Qmult_le_compat_r; [exact Hx|apply Qlt_le_weak, pow2_pos].
Qed.

Lemma round_pos_mono (x y : Q) : 0 < x -> x <= y -> round_pos x <= round_pos y.
Proof.
  intros Hx Hxy. rewrite !round_pos_value.
  pose proof (ilog2_mono x y Hx Hxy) as He.
  destruct (ilog2_spec x Hx) as [_ Hx2].
  destruct (ilog2_spec y) as [Hy1 _]; [lra|].
  unfold ulp_exp.
  destruct (Z.eq_dec (Z.max (ilog2 x - 52) (-1074)) (Z.max (ilog2 y - 52) (-1074)))
    as [E|E].
  - rewrite E. apply Qmult_le_compat_r; [|apply Qlt_le_weak, pow2_pos].
    rewrite <- Zle_Qle. apply round_half_even_mono.
    apply Qmult_le_compat_r; [exact Hxy|apply Qlt_le_weak, pow2_pos].
  - apply Qle_trans with (pow2 (ilog2 y)).
    + apply round_scaled_le; [lia|].
      apply Qle_trans with (pow2 (ilog2 x + 1)); [lra|apply pow2_le; lia].
    + apply round_scaled_ge; [lia|exact Hy1].
Qed.

Lemma RN_nonneg_eq (x : Q) : 0 <= x -> RN x = round_pos x.
Proof. intros H. unfold RN. apply Qle_bool_iff in H. rewrite H. reflexivity. Qed.

Lemma RN_zero (x : Q) : x == 0 -> RN x = 0.
Proof. intros H. rewrite RN_nonneg_eq by lra. apply round_pos_zero, H. Qed.

Lemma RN_nonneg (x : Q) : 0 <= x -> 0 <= RN x.
Proof. intros H. rewrite RN_nonneg_eq by exact H. apply round_pos_nonneg, H. Qed.

Lemma RN_mono (x y : Q) : 0 <= x -> x <= y -> RN x <= RN y.
Proof.
  intros Hx Hxy. destruct (Qle_lt_or_eq _ _ Hx) as [Hpos|Hz].
  - rewrite !RN_nonneg_eq by lra. apply round_pos_mono; assumption.
  - rewrite (RN_zero x) by (symmetry; exact Hz). apply RN_nonneg. lra.
Qed.

Lemma RN_comp (x y : Q) : 0 <= x -> x == y -> RN x = RN y.
Proof.
  intros Hx Hxy.
  assert (H : RN x == RN y).
  { apply Qle_antisym; apply RN_mono; lra. }
  rewrite !RN_nonneg_eq in * by lra. unfold round_pos in *.
  apply Qred_complete. rewrite !Qred_correct in H. exact H.
Qed.

End F64Facts.

(** ** The patterns, read as scans *)

Module ReFacts.
Import Re Scan.

Lemma take_drop_run (f : ascii -> bool) (s : list ascii) :
  (take_run f s ++ drop_run f s)%list = s.
Proof. induction s as [|c s IH]; cbn; [done|]. destruct (f c); cbn; [by rewrite IH|done]. Qed.

Lemma drop_run_length (f : ascii -> bool) (s : list ascii) :
  (length (drop_run f s) <= length s)%nat.
Proof. induction s as [|c s IH]; cbn; [lia|]. destruct (f c); cbn; lia. Qed.

Lemma run_cat {A : Type} (r1 r2 : regex) (p : pos) (k : pos -> option A) :
  run (Cat r1 r2) p k = run r1 p (fun p' => run r2 p' k).
Proof. reflexivity. Qed.

Lemma run_cls {A : Type} (f : ascii -> bool) (p : pos) (k : pos -> option A) :
  run (Cls f) p k = match step p f with Some p' => k p' | None => None end.
Proof. reflexivity. Qed.

Lemma run_star {A : Type} (r : regex) (p : pos) (k : pos -> option A) :
  run (Star r) p k = star_loop (run r) k (length (ahead p)) p.
Proof. reflexivity. Qed.

Lemma run_grp {A : Type} (r : regex) (p : pos) (k : pos -> option A) :
  run (Grp r) p k = run r p (fun p' => k (close_group p p')).
Proof. reflexivity. Qed.

(** The greedy star of a class takes the whole run when the continuation
    cannot start on a character of the class. *)
Lemma star_class {A : Type} (f : ascii -> bool) (k : pos -> option A) :
  (forall b c a g, f c = true -> k (Pos b (c :: a) g) = None) ->
  forall fuel b a g, (length a <= fuel)%nat ->
    star_loop (run (Cls f)) k fuel (Pos b a g)
    = k (Pos (rev (take_run f a) ++ b) (drop_run f a) g).
Proof.
  intros Hk. induction fuel as [|fuel IH]; intros b a g Hlen.
  - destruct a; [reflexivity|cbn in Hlen; lia].
  - destruct a as [|c a]; [reflexivity|].
    cbn [star_loop take_run drop_run]. rewrite run_cls. cbn [step ahead before groups].
    destruct (f c) eqn:Hc; [|reflexivity].
    cbn [ahead before groups length]. rewrite (proj2 (Nat.ltb_lt _ _)) by lia.
    rewrite IH by (cbn in Hlen; lia).
    cbn [rev]. rewrite <- app_assoc. cbn [app].
    rewrite (Hk b c a g Hc). by destruct (k _).
Qed.

(** With a continuation that always succeeds, too. *)
Lemma star_class_last (f : ascii -> bool) (fuel : nat) (b a : list ascii) g :
  (length a <= fuel)%nat ->
  star_loop (run (Cls f)) Some fuel (Pos b a g)
  = Some (Pos (rev (take_run f a) ++ b) (drop_run f a) g).
Proof.
  revert b a. induction fuel as [|fuel IH]; intros b a Hlen.
  - destruct a; [reflexivity|cbn in Hlen; lia].
  - destruct a as [|c a]; [reflexivity|].
    cbn [star_loop take_run drop_run]. rewrite run_cls. cbn [step ahead before groups].
    destruct (f c) eqn:Hc; [|reflexivity].
    cbn [ahead before groups length]. rewrite (proj2 (Nat.ltb_lt _ _)) by lia.
    rewrite IH by (cbn in Hlen; lia).
    cbn [rev]. rewrite <- app_assoc. reflexivity.
Qed.


(** *** Replacing the runs of spaces *)

Lemma match_ws_run (b a : list ascii) (g : list (list ascii)) :
  match_at ws_run (Pos b a g) =
  match a with
  | c :: a' =>
      if Chars.is_space c
      then Some (Pos (rev (take_run Chars.is_space a') ++ c :: b)
                     (drop_run Chars.is_space a') [])
      else None
  | [] => None
  end.
Proof.
  unfold match_at, ws_run, Plus. rewrite run_cat, run_cls.
  destruct a as [|c a]; [reflexivity|]. cbn [step ahead before groups].
  destruct (Chars.is_space c); [|reflexivity].
  rewrite run_star. cbn [ahead]. by rewrite star_class_last.
Qed.

Lemma search_ws_run (a : list ascii) :
  forall b g fuel, (length a <= fuel)%nat ->
  match search_from fuel ws_run (Pos b a g) with
  | None => no_space a
  | Some (A, B) =>
      exists pre c rest,
        a = (pre ++ c :: rest)%list /\ no_space pre /\ Chars.is_space c = true /\
        before A = (rev pre ++ b)%list /\ ahead A = c :: rest /\
        ahead B = drop_run Chars.is_space rest
  end.
Proof.
  induction a as [|c a IH]; intros b g fuel Hlen.
  - destruct fuel; cbn; constructor.
  - destruct fuel as [|fuel]; [cbn in Hlen; lia|].
    cbn [search_from]. rewrite match_ws_run.
    destruct (Chars.is_space c) eqn:Hc.
    + exists [], c, a. repeat split; try done. constructor.
    + cbn [advance ahead before].
      specialize (IH (c :: b) [] fuel ltac:(cbn in Hlen; lia)).
      destruct (search_from fuel ws_run _) as [[A B]|].
      * destruct IH as (pre & c' & rest & -> & Hpre & Hc' & HA & HA' & HB).
        exists (c :: pre), c', rest. repeat split; try done.
        -- by constructor.
        -- rewrite HA. cbn [rev]. by rewrite <- app_assoc.
      * by constructor.
Qed.

Lemma collapse_no_space (pre s : list ascii) :
  no_space pre -> collapse_aux false (pre ++ s) = (pre ++ collapse_aux false s)%list.
Proof.
  induction 1 as [|c pre Hc _ IH]; [reflexivity|].
  cbn. rewrite Hc. by rewrite IH.
Qed.

Lemma collapse_in_run (s : list ascii) :
  collapse_aux true s = collapse_aux false (drop_run Chars.is_space s).
Proof.
  induction s as [|c s IH]; [reflexivity|].
  cbn. destruct (Chars.is_space c) eqn:Hc; [exact IH|]. cbn. by rewrite Hc.
Qed.

Lemma sub_from_ws_run (n : nat) :
  forall p fuel, (length (ahead p) <= n)%nat -> (length (ahead p) < fuel)%nat ->
  sub_from fuel ws_run [" "%char] p = collapse_spaces (ahead p).
Proof.
  unfold collapse_spaces.
  induction n as [|n IH]; intros [b a g] fuel Hn Hfuel; cbn [ahead] in *.
  - destruct a; [|cbn in Hn; lia]. destruct fuel; [lia|]. reflexivity.
  - destruct fuel as [|fuel]; [lia|]. cbn [sub_from ahead].
    pose proof (search_ws_run a b g (length a) (le_n _)) as Hs.
    destruct (search_from (length a) ws_run _) as [[A B]|].
    + destruct Hs as (pre & c & rest & -> & Hpre & Hc & HA & HA' & HB).
      pose proof (drop_run_length Chars.is_space rest) as Hd.
      rewrite length_app in Hn, Hfuel. cbn [length] in Hn, Hfuel.
      rewrite HA', HB. cbn [length].
      rewrite (proj2 (Nat.ltb_lt _ _)) by lia.
      rewrite (IH B fuel); [|rewrite HB; lia|rewrite HB; lia].
      rewrite HB.
      assert (Hm : matched (Pos b (pre ++ c :: rest) g) A = pre).
      { unfold matched. cbn [before]. rewrite HA.
        rewrite length_app, length_rev.
        replace (length pre + length b - length b)%nat with (length (rev pre)) by (rewrite length_rev; lia).
        rewrite take_app_length. apply rev_involutive. }
      rewrite Hm. rewrite collapse_no_space by exact Hpre.
      cbn [collapse_aux]. rewrite Hc. by rewrite collapse_in_run.
    + clear -Hs. unfold no_space in Hs.
      induction Hs as [|c a Hc _ IHa]; [reflexivity|].
      cbn. rewrite Hc. by rewrite <- IHa.
Qed.

Lemma sub_ws_run (s : list ascii) :
  Re.sub ws_run [" "%char] s = collapse_spaces s.
Proof. unfold Re.sub. by apply (sub_from_ws_run (length s)); cbn; lia. Qed.


(** *** Successive matches as a scan *)

Section Findall.

Context (r : regex) (m : list ascii -> option (list ascii * list ascii)).

Hypothesis match_at_m : forall b a g,
  match match_at r (Pos b a g) with
  | Some q => m a = Some (group_of q, ahead q)
  | None => m a = None
  end.

Hypothesis m_shorter : forall a grp a',
  m a = Some (grp, a') -> (length a' < length a)%nat.

Lemma search_scans (a : list ascii) :
  forall b g fuel, (length a <= fuel)%nat ->
  match search_from fuel r (Pos b a g) with
  | None => scans m a []
  | Some (A, B) =>
      m (ahead A) = Some (group_of B, ahead B) /\
      (length (ahead A) <= length a)%nat /\
      (forall l, scans m (ahead A) l -> scans m a l)
  end.
Proof.
  induction a as [|c a IH]; intros b g fuel Hlen.
  - pose proof (match_at_m b [] g) as Hm.
    destruct fuel; cbn [search_from advance ahead];
      destruct (match_at r _) as [q|];
      try (apply m_shorter in Hm; cbn in Hm; lia); by constructor.
  - destruct fuel as [|fuel]; [cbn in Hlen; lia|].
    pose proof (match_at_m b (c :: a) g) as Hm.
    cbn [search_from]. destruct (match_at r _) as [q|].
    + cbn [ahead]. split; [exact Hm|]. split; [lia|]. tauto.
    + cbn [advance ahead before].
      specialize (IH (c :: b) [] fuel ltac:(cbn in Hlen; lia)).
      destruct (search_from fuel r _) as [[A B]|].
      * destruct IH as (H1 & H2 & H3). split; [exact H1|].
        split; [cbn; lia|]. intros l Hl. apply scans_skip; [exact Hm|]. by apply H3.
      * by apply scans_skip.
Qed.

Lemma matches_from_scans (n : nat) :
  forall p fuel, (length (ahead p) <= n)%nat -> (length (ahead p) < fuel)%nat ->
  scans m (ahead p) (map (fun ab => group_of (snd ab)) (matches_from fuel r p)).
Proof.
  induction n as [|n IH]; intros [b a g] fuel Hn Hfuel; cbn [ahead] in *.
  - destruct a; [|cbn in Hn; lia]. destruct fuel as [|fuel]; [lia|].
    cbn [matches_from ahead length].
    pose proof (search_scans [] b g 0 (le_n _)) as Hs.
    destruct (search_from 0 r _) as [[A B]|]; [|exact Hs].
    destruct Hs as (H1 & H2 & _). apply m_shorter in H1. cbn in H2. lia.
  - destruct fuel as [|fuel]; [lia|]. cbn [matches_from ahead].
    pose proof (search_scans a b g (length a) (le_n _)) as Hs.
    destruct (search_from (length a) r _) as [[A B]|]; [|exact Hs].
    destruct Hs as (H1 & H2 & H3). pose proof (m_shorter _ _ _ H1) as Hlt.
    rewrite (proj2 (Nat.ltb_lt _ _)) by exact Hlt.
    cbn [map snd]. apply H3. eapply scans_hit; [exact H1|].
    apply IH; lia.
Qed.

Lemma findall1_scans (s : list ascii) : scans m s (findall1 r s).
Proof.
  unfold findall1, all_matches.
  apply (matches_from_scans (length s) (start_of s)); cbn; lia.
Qed.

End Findall.

Lemma scans_unique m s l1 :
  scans m s l1 -> forall l2, scans m s l2 -> l1 = l2.
Proof.
  induction 1 as [H|c a l H _ IH|a grp a' l H _ IH]; intros l2 H2.
  - inversion H2; subst; [reflexivity|congruence].
  - inversion H2; subst; [by apply IH|congruence].
  - inversion H2; subst; try congruence.
    match goal with E : m a = Some (?g', ?a'') |- _ =>
      rewrite H in E; injection E as <- <- end.
    f_equal. by apply IH.
Qed.


Lemma close_group_app (b a x a' : list ascii) g g' :
  close_group (Pos b a g) (Pos (x ++ b) a' g') = Pos (x ++ b) a' (rev x :: g').
Proof.
  unfold close_group. cbn [before ahead groups]. rewrite length_app.
  replace (length x + length b - length b)%nat with (length x) by lia.
  by rewrite take_app_length.
Qed.

(** *** The calendar years *)

Lemma match_at_calendar (b a : list ascii) g :
  match match_at calendar_re (Pos b a g) with
  | Some q => calendar_year_at a = Some (group_of q, ahead q)
  | None => calendar_year_at a = None
  end.
Proof.
  unfold match_at, calendar_re. rewrite run_grp.
  destruct a as [|c1 [|c2 [|c3 [|c4 rest]]]];
    repeat first
      [ reflexivity
      | progress cbn -[close_group]
      | case_bool_decide
      | match goal with
        | |- context [Chars.is_digit ?c] => destruct (Chars.is_digit c) eqn:?
        end ].
  change (c4 :: c3 :: c2 :: c1 :: b) with ([c4; c3; c2; c1] ++ b)%list.
  rewrite close_group_app. reflexivity.
Qed.

Lemma calendar_year_shorter (a grp a' : list ascii) :
  calendar_year_at a = Some (grp, a') -> (length a' < length a)%nat.
Proof.
  destruct a as [|c1 [|c2 [|c3 [|c4 rest]]]]; try discriminate. cbn.
  destruct (_ && _); [|discriminate]. intros [= <- <-]. lia.
Qed.

Lemma scan_fuel_scans m :
  (forall a grp a', m a = Some (grp, a') -> (length a' < length a)%nat) ->
  forall fuel s, (length s < fuel)%nat -> scans m s (scan_fuel m fuel s).
Proof.
  intros Hm. induction fuel as [|fuel IH]; intros s Hlen; [lia|].
  cbn [scan_fuel]. destruct (m s) as [[grp s']|] eqn:E.
  - eapply scans_hit; [exact E|]. apply IH. apply Hm in E. lia.
  - destruct s as [|c s]; [by constructor|].
    apply scans_skip; [exact E|]. apply IH. cbn in Hlen. lia.
Qed.

Lemma findall1_scan r m (s : list ascii) :
  (forall b a g,
     match match_at r (Pos b a g) with
     | Some q => m a = Some (group_of q, ahead q)
     | None => m a = None
     end) ->
  (forall a grp a', m a = Some (grp, a') -> (length a' < length a)%nat) ->
  findall1 r s = scan m s.
Proof.
  intros H1 H2. eapply scans_unique.
  - by apply findall1_scans.
  - apply scan_fuel_scans; [exact H2|lia].
Qed.

(** *** The phrases "N years" *)

Lemma run_lit {A : Type} (w : list ascii) (k : pos -> option A) :
  forall b a g,
  run (Lit w) (Pos b a g) k =
  match strip_prefix w a with
  | Some a' => k (Pos (rev w ++ b) a' g)
  | None => None
  end.
Proof.
  induction w as [|c w IH]; intros b a g; [reflexivity|].
  cbn [Lit strip_prefix]. rewrite run_cat.
  destruct a as [|d a]; cbn [run step ahead before groups]; [reflexivity|].
  case_bool_decide; [subst d|reflexivity].
  rewrite IH. cbn [rev]. by rewrite <- app_assoc.
Qed.

Lemma run_opt_chr {A : Type} (c : ascii) (k : pos -> option A) b a g :
  run (Opt (Chr c)) (Pos b a g) k =
  match a with
  | d :: a' =>
      if bool_decide (d = c)
      then match k (Pos (d :: b) a' g) with
           | Some x => Some x
           | None => k (Pos b a g)
           end
      else k (Pos b a g)
  | [] => k (Pos b [] g)
  end.
Proof.
  unfold Opt.
  destruct a as [|d a]; cbn [run step ahead before groups]; [reflexivity|].
  by case_bool_decide.
Qed.

Lemma digit_facts (d : ascii) :
  Chars.is_digit d = true ->
  Chars.is_space d = false /\ d <> "+"%char /\ d <> "y"%char.
Proof.
  destruct d as [[] [] [] [] [] [] [] []]; intros H; try discriminate H;
    (split; [reflexivity|split; discriminate]).
Qed.

Lemma space_not_y (c : ascii) : Chars.is_space c = true -> c <> "y"%char.
Proof. intros H ->. discriminate H. Qed.

Lemma word_eval b a g :
  match run word_re (Pos b a g) Some with
  | Some q => word_at a = Some (ahead q) /\ groups q = g
  | None => word_at a = None
  end.
Proof.
  unfold word_re, word_at. rewrite run_cat, run_lit.
  destruct (strip_prefix (chars "year") a) as [a'|]; [|reflexivity].
  rewrite run_opt_chr. destruct a' as [|d a']; [done|].
  cbn [skip_char]. by case_bool_decide.
Qed.

Lemma word_fails b c a g :
  Chars.is_space c = true -> run word_re (Pos b (c :: a) g) Some = None.
Proof.
  intros Hc. pose proof (word_eval b (c :: a) g) as H.
  destruct (run word_re _ Some) as [q|]; [|reflexivity].
  destruct H as [H _]. unfold word_at in H. cbn in H.
  case_bool_decide; [|discriminate H]. by apply space_not_y in Hc.
Qed.

Lemma spaced_eval b a g :
  match run spaced_re (Pos b a g) Some with
  | Some q => word_at (drop_run Chars.is_space a) = Some (ahead q) /\ groups q = g
  | None => word_at (drop_run Chars.is_space a) = None
  end.
Proof.
  unfold spaced_re. rewrite run_cat, run_star. cbn [ahead].
  rewrite star_class; [|intros; by apply word_fails|done].
  apply word_eval.
Qed.

Lemma tail_eval b a g :
  match run tail_re (Pos b a g) Some with
  | Some q => year_tail a = Some (ahead q) /\ groups q = g
  | None => year_tail a = None
  end.
Proof.
  unfold tail_re, year_tail. fold word_at. rewrite run_cat, run_opt_chr.
  destruct a as [|d a]; [apply (spaced_eval b [] g)|].
  cbn [skip_char]. case_bool_decide as Hd; [|apply (spaced_eval b (d :: a) g)].
  pose proof (spaced_eval (d :: b) a g) as H1.
  destruct (run spaced_re (Pos (d :: b) a g) Some) as [q|]; [exact H1|].
  pose proof (spaced_eval b (d :: a) g) as H2.
  destruct (run spaced_re (Pos b (d :: a) g) Some) as [q|]; [|exact H1].
  destruct H2 as [H2 _]. subst d. cbn in H2. discriminate H2.
Qed.

Lemma tail_fails b d a g :
  Chars.is_digit d = true -> run tail_re (Pos b (d :: a) g) Some = None.
Proof.
  intros Hd. destruct (digit_facts d Hd) as (Hs & Hp & Hy).
  pose proof (tail_eval b (d :: a) g) as H.
  destruct (run tail_re _ Some) as [q|]; [|reflexivity].
  destruct H as [H _]. unfold year_tail in H. cbn [skip_char] in H.
  rewrite bool_decide_false in H by exact Hp.
  cbn [drop_run] in H. rewrite Hs in H. cbn in H.
  rewrite bool_decide_false in H by exact Hy. discriminate H.
Qed.

Lemma match_at_years (b a : list ascii) g :
  match match_at years_re (Pos b a g) with
  | Some q => year_phrase_at a = Some (group_of q, ahead q)
  | None => year_phrase_at a = None
  end.
Proof.
  unfold match_at, years_re. fold word_re spaced_re tail_re.
  unfold Plus. rewrite run_cat, run_grp, run_cat, run_cls.
  unfold year_phrase_at.
  destruct a as [|c a]; cbn [before ahead step groups]; [reflexivity|].
  cbn [take_run drop_run].
  destruct (Chars.is_digit c) eqn:Hc; [|reflexivity].
  rewrite run_star. cbn [ahead].
  rewrite star_class; [|intros; unfold close_group; by apply tail_fails|done].
  replace (rev (take_run Chars.is_digit a) ++ c :: b)%list
    with (rev (c :: take_run Chars.is_digit a) ++ b)%list
    by (cbn [rev]; by rewrite <- app_assoc).
  rewrite close_group_app, rev_involutive.
  pose proof (tail_eval (rev (c :: take_run Chars.is_digit a) ++ b)
                (drop_run Chars.is_digit a) [c :: take_run Chars.is_digit a]) as H.
  destruct (run tail_re _ Some) as [q|].
  - destruct H as [H1 H2]. rewrite H1. unfold group_of. by rewrite H2.
  - by rewrite H.
Qed.

Lemma strip_prefix_length (w s s' : list ascii) :
  strip_prefix w s = Some s' -> (length s' <= length s)%nat.
Proof.
  revert s. induction w as [|c w IH]; intros s H; cbn in H.
  - injection H as <-. lia.
  - destruct s as [|d s]; [discriminate H|].
    case_bool_decide; [|discriminate H]. apply IH in H. cbn. lia.
Qed.

Lemma skip_char_length (c : ascii) (s : list ascii) :
  (length (skip_char c s) <= length s)%nat.
Proof. destruct s as [|d s]; cbn; [lia|]. case_bool_decide; cbn; lia. Qed.

Lemma year_phrase_shorter (a grp a' : list ascii) :
  year_phrase_at a = Some (grp, a') -> (length a' < length a)%nat.
Proof.
  unfold year_phrase_at, year_tail. intros H.
  destruct a as [|c a]; [discriminate H|]. cbn [take_run drop_run] in H.
  destruct (Chars.is_digit c); [|discriminate H].
  destruct (strip_prefix _ _) as [rest|] eqn:E; [|discriminate H].
  injection H as _ <-. apply strip_prefix_length in E.
  pose proof (skip_char_length "s" rest).
  pose proof (drop_run_length Chars.is_space (skip_char "+" (drop_run Chars.is_digit a))).
  pose proof (skip_char_length "+" (drop_run Chars.is_digit a)).
  pose proof (drop_run_length Chars.is_digit a).
  cbn [length]. lia.
Qed.

Lemma findall1_years (s : list ascii) :
  findall1 years_re s = scan year_phrase_at s.
Proof. apply findall1_scan; [apply match_at_years|apply year_phrase_shorter]. Qed.

Lemma findall1_calendar (s : list ascii) :
  findall1 calendar_re s = scan calendar_year_at s.
Proof. apply findall1_scan; [apply match_at_calendar|apply calendar_year_shorter]. Qed.

(** Every group of a scan is read by the matcher somewhere. *)
Lemma scan_fuel_groups m fuel : forall s g,
  g ∈ scan_fuel m fuel s -> exists a a', m a = Some (g, a').
Proof.
  induction fuel as [|fuel IH]; intros s g H; cbn [scan_fuel] in H.
  - by apply elem_of_nil in H.
  - destruct (m s) as [[grp s']|] eqn:E.
    + apply elem_of_cons in H as [->|H]; [by eexists _, _|by eapply IH].
    + destruct s as [|c s]; [by apply elem_of_nil in H|by eapply IH].
Qed.

End ReFacts.

(** ** Enumerating a set *)

Lemma set_order_elem (rt : runtime) (s : gset string) (x : string) :
  x ∈ set_order rt s <-> x ∈ s.
Proof. rewrite (set_order_perm rt s). apply elem_of_elements. Qed.

Lemma set_order_NoDup (rt : runtime) (s : gset string) : NoDup (set_order rt s).
Proof. rewrite (set_order_perm rt s). apply NoDup_elements. Qed.

Lemma set_order_to_set (rt : runtime) (s : gset string) :
  list_to_set (set_order rt s) = s.
Proof.
  apply set_eq. intros x.
  rewrite elem_of_list_to_set. apply set_order_elem.
Qed.

Lemma set_order_empty (rt : runtime) : set_order rt ∅ = [].
Proof.
  apply Permutation_nil_r. rewrite (set_order_perm rt ∅).
  by rewrite elements_empty.
Qed.

Lemma set_order_singleton (rt : runtime) (x : string) : set_order rt {[x]} = [x].
Proof.
  apply Permutation_singleton_r. rewrite (set_order_perm rt {[x]}).
  by rewrite elements_singleton.
Qed.

Lemma set_order_runs (rt1 rt2 : runtime) (s : gset string) :
  set_order rt1 s ≡ₚ set_order rt2 s.
Proof. by rewrite (set_order_perm rt1 s), (set_order_perm rt2 s). Qed.

Lemma parsed_skill_set (rt : runtime) (text : string) :
  list_to_set (skills (parse rt text)) = (list_to_set (found_skills text) : gset string).
Proof. apply set_order_to_set. Qed.

(** ** Scenario A *)

Lemma scenario_A_found : found_skills scenario_A = ["python"; "sql"; "aws"].
Proof. vm_compute. reflexivity. Qed.

Lemma scenario_A_missing_set (rt : runtime) :
  req_skills profile_A ∖ list_to_set (skills (parse rt scenario_A)) = {["docker"]}.
Proof.
  rewrite parsed_skill_set, scenario_A_found. vm_compute. reflexivity.
Qed.

(** C1. On the text of scenario A and the profile
    [{python, sql, aws, docker}, 3], parsing then scoring gives the skills
    python, sql and aws (each once), 5 years of experience, a skill score of
    75.0, an experience score of 100, a final score of 82.5, the
    recommendation Interview and docker as the only missing skill,
    whatever the order in which the interpreter enumerates sets. *)
Theorem scenario_A_result (rt : runtime) :
  let c := parse rt scenario_A in
  list_to_set (skills c) = ({["python"; "sql"; "aws"]} : gset string) /\
  NoDup (skills c) /\
  years_experience c = 5%N /\
  skill_score rt profile_A c = PyFloat 75 /\
  exp_score profile_A c = PyInt 100 /\
  calculate_score rt profile_A c = (165 # 2, ["docker"], PyFloat 75) /\
  recommend (165 # 2) = Interview.
Proof.
  intros c.
  assert (Hset : list_to_set (skills c) = ({["python"; "sql"; "aws"]} : gset string)).
  { subst c. rewrite parsed_skill_set, scenario_A_found. vm_compute. reflexivity. }
  assert (Hskill : skill_score rt profile_A c = PyFloat 75).
  { unfold skill_score, skill_part. rewrite Hset. vm_compute. reflexivity. }
  assert (Hexp : exp_score profile_A c = PyInt 100) by (vm_compute; reflexivity).
  assert (Hmiss : snd (skill_part rt profile_A c) = ["docker"]).
  { unfold skill_part.
    destruct (decide (req_skills profile_A = ∅)) as [He|_].
    - apply (f_equal size) in He. vm_compute in He. discriminate He.
    - cbn [snd]. subst c. rewrite scenario_A_missing_set. apply set_order_singleton. }
  split; [exact Hset|]. split; [subst c; apply set_order_NoDup|].
  split; [vm_compute; reflexivity|]. split; [exact Hskill|]. split; [exact Hexp|].
  split; [|vm_compute; reflexivity].
  unfold calculate_score, final_score. rewrite Hskill, Hexp, Hmiss.
  vm_compute. reflexivity.
Qed.

(** ** Whole-word matching of the vocabulary *)

Lemma java_not_in_javascript :
  found_skills "JavaScript" = ["javascript"] /\ found_skills "Java" = ["java"].
Proof. split; vm_compute; reflexivity. Qed.

(** C3. The entry "c++" is not matched as a whole word: in "Skills: C++,
    Java" it stands alone and is not reported, because [\b] after the last
    "+" asks for a word character to follow; it is reported in "c++x",
    where it is the beginning of a longer token. *)
Theorem cpp_standalone_not_found (rt : runtime) :
  extract_skills rt "Skills: C++, Java" = ["java"] /\
  Re.search_bool (skill_re "c++") (chars "c++") = false /\
  extract_skills rt "c++x" = ["c++"].
Proof.
  unfold extract_skills.
  replace (found_skills "Skills: C++, Java") with ["java"] by (vm_compute; reflexivity).
  replace (found_skills "c++x") with ["c++"] by (vm_compute; reflexivity).
  split; [|split].
  - change (list_to_set ["java"] : gset string) with ({["java"]} ∪ ∅ : gset string).
    rewrite (right_id_L ∅ (∪)). apply set_order_singleton.
  - vm_compute. reflexivity.
  - change (list_to_set ["c++"] : gset string) with ({["c++"]} ∪ ∅ : gset string).
    rewrite (right_id_L ∅ (∪)). apply set_order_singleton.
Qed.

(** ** The skills of a candidate *)

Lemma found_skills_in_db (text x : string) : x ∈ found_skills text -> x ∈ SKILL_DB.
Proof. unfold found_skills. rewrite list_elem_of_filter. tauto. Qed.

Lemma SKILL_DB_lower : Forall (fun x => text_of (Str.lower (chars x)) = x) SKILL_DB.
Proof. repeat constructor. Qed.

Lemma map_fixed {A : Type} (f : A -> A) (l : list A) :
  Forall (fun x => f x = x) l -> map f l = l.
Proof. induction 1 as [|x l Hx _ IH]; [done|]. cbn. by rewrite Hx, IH. Qed.

(** C8. For every text, the list returned by [extract_skills] has no
    duplicates, every entry is a member of the vocabulary, and every entry
    is in lower case (so that no two entries differ by case only). *)
Theorem extract_skills_invariant (rt : runtime) (text : string) :
  NoDup (extract_skills rt text) /\
  (forall x, x ∈ extract_skills rt text -> x ∈ SKILL_DB) /\
  (forall x, x ∈ extract_skills rt text -> text_of (Str.lower (chars x)) = x) /\
  NoDup (map (fun x => text_of (Str.lower (chars x))) (extract_skills rt text)).
Proof.
  assert (Hdb : forall x, x ∈ extract_skills rt text -> x ∈ SKILL_DB).
  { intros x Hx. apply set_order_elem, elem_of_list_to_set in Hx.
    by apply found_skills_in_db in Hx. }
  assert (Hlow : forall x, x ∈ extract_skills rt text ->
                           text_of (Str.lower (chars x)) = x).
  { intros x Hx. apply Hdb in Hx.
    by apply (proj1 (Forall_forall _ _) SKILL_DB_lower). }
  split; [apply set_order_NoDup|]. split; [done|]. split; [done|].
  rewrite map_fixed; [apply set_order_NoDup|].
  apply Forall_forall. intros x Hx. by apply Hlow.
Qed.

(** ** Failures while reading a document *)




(** The value of [Raising.ints]: the numbers, unless a string is too long. *)
Lemma ints_value (l : list (list ascii)) :
  Raising.ints l =
    if existsb too_long l then Raises "ValueError" else Returns (map Str.to_int l).
Proof.
  induction l as [|s l IH]; [reflexivity|].
  cbn [Raising.ints existsb map]. unfold Raising.int. fold (too_long s).
  destruct (too_long s); [reflexivity|]. rewrite IH. cbn [orb].
  by destruct (existsb too_long l).
Qed.

Lemma calendar_groups_short (s : list ascii) :
  existsb too_long (Re.findall1 calendar_re s) = false.
Proof.
  rewrite ReFacts.findall1_calendar.
  apply not_true_is_false. intros (g & Hg & Hlong)%existsb_exists.
  apply list_elem_of_In, ReFacts.scan_fuel_groups in Hg as (a & a' & Hm).
  destruct a as [|c1 [|c2 [|c3 [|c4 rest]]]]; try discriminate Hm.
  cbn [Scan.calendar_year_at] in Hm.
  destruct (_ && _); [|discriminate Hm]. injection Hm as <- _.
  vm_compute in Hlong. discriminate Hlong.
Qed.

(** The two models of [extract_experience] and of [parse] agree when
    nothing is raised, and [ValueError] is raised exactly when the number of
    a phrase is too long. *)
Lemma extract_experience_raising (text : string) :
  Raising.extract_experience text =
    if existsb too_long (Re.findall1 years_re (chars (normalize_text text)))
    then Raises "ValueError" else Returns (extract_experience text).
Proof.
  unfold Raising.extract_experience, extract_experience, stated_years, calendar_years.
  cbv zeta.
  destruct (Re.findall1 years_re (chars (normalize_text text))) as [|g l] eqn:E.
  - cbn [existsb map]. rewrite ints_value, calendar_groups_short, length_map.
    by destruct (2 <=? _)%nat.
  - rewrite ints_value. by destruct (existsb too_long (g :: l)).
Qed.

Lemma stops_spec (text : string) :
  stops text = existsb too_long (Re.findall1 years_re (chars (normalize_text text))).
Proof.
  unfold stops. rewrite extract_experience_raising. by destruct (existsb _ _).
Qed.

Lemma parse_raising (rt : runtime) (text : string) :
  Raising.parse rt text =
    if stops text then Raises "ValueError" else Returns (parse rt text).
Proof.
  unfold Raising.parse, stops. rewrite extract_experience_raising.
  by destruct (existsb _ _).
Qed.

(** The loop on documents none of which stops it, and on documents the
    first of which to stop it is [g]. *)
Lemma loop_completes (rt : runtime) (m : job_matcher) (files : list uploaded_file) :
  forall results messages,
  Forall (fun g => stops (fst (extract_text g)) = false) files ->
  loop rt m files results messages =
    (Returns (results ++ map (row_of rt m) files)%list,
     (messages ++ messages_of files)%list).
Proof.
  induction files as [|f files IH]; intros results messages H.
  - cbn [loop map]. unfold messages_of. cbn [map concat]. by rewrite !app_nil_r.
  - apply Forall_cons in H as [Hf H]. cbn [loop].
    rewrite (surjective_pairing (extract_text f)) at 1.
    rewrite parse_raising, Hf, (IH _ _ H).
    unfold messages_of, row_of. cbn [map concat]. by rewrite <- !app_assoc.
Qed.

Lemma loop_stops (rt : runtime) (m : job_matcher) (before after : list uploaded_file)
    (g : uploaded_file) :
  forall results messages,
  Forall (fun f => stops (fst (extract_text f)) = false) before ->
  stops (fst (extract_text g)) = true ->
  loop rt m (before ++ g :: after) results messages =
    (Raises "ValueError", (messages ++ messages_of (before ++ [g]))%list).
Proof.
  induction before as [|f before IH]; intros results messages H Hg.
  - cbn [app loop]. rewrite (surjective_pairing (extract_text g)) at 1.
    rewrite parse_raising, Hg. unfold messages_of. cbn [map concat].
    by rewrite app_nil_r.
  - apply Forall_cons in H as [Hf H]. cbn [app loop].
    rewrite (surjective_pairing (extract_text f)) at 1.
    rewrite parse_raising, Hf, (IH _ _ H Hg).
    unfold messages_of. cbn [app map concat]. by rewrite <- !app_assoc.
Qed.



(** ** Running the pipeline in two interpreter processes *)

(** The same text and profile, scored in two processes that enumerate
    sets differently, give the missing skills in different orders. *)
Lemma order_depends_on_run :
  calculate_score sorted_runtime profile_two_missing (parse sorted_runtime "Python")
  <> calculate_score reversed_runtime profile_two_missing (parse reversed_runtime "Python").
Proof. intros H. vm_compute in H. discriminate H. Qed.

Lemma skill_part_runs (rt1 rt2 : runtime) (m : job_matcher) (c1 c2 : candidate) :
  (list_to_set (skills c1) : gset string) = list_to_set (skills c2) ->
  fst (skill_part rt1 m c1) = fst (skill_part rt2 m c2) /\
  snd (skill_part rt1 m c1) ≡ₚ snd (skill_part rt2 m c2).
Proof.
  intros H. unfold skill_part. rewrite H.
  destruct (decide (req_skills m = ∅)); cbn [fst snd]; [done|].
  split; [reflexivity|apply set_order_runs].
Qed.

(** C4 (amended). Parsing then scoring the same text against the same
    profile in two runs gives the same name, email, phone, years of
    experience, final score and skill percentage; the lists of skills and
    of missing skills hold the same entries, in an order that depends on
    the run. *)
Theorem runs_agree_up_to_order (rt1 rt2 : runtime) (m : job_matcher) (text : string) :
  let c1 := parse rt1 text in
  let c2 := parse rt2 text in
  let r1 := calculate_score rt1 m c1 in
  let r2 := calculate_score rt2 m c2 in
  name c1 = name c2 /\ email c1 = email c2 /\ phone c1 = phone c2 /\
  years_experience c1 = years_experience c2 /\ raw_text c1 = raw_text c2 /\
  skills c1 ≡ₚ skills c2 /\
  fst (fst r1) = fst (fst r2) /\
  snd (fst r1) ≡ₚ snd (fst r2) /\
  snd r1 = snd r2.
Proof.
  intros c1 c2 r1 r2.
  assert (Hs : (list_to_set (skills c1) : gset string) = list_to_set (skills c2)).
  { subst c1 c2. by rewrite !parsed_skill_set. }
  destruct (skill_part_runs rt1 rt2 m c1 c2 Hs) as [Hf Hm].
  assert (Hss : skill_score rt1 m c1 = skill_score rt2 m c2) by exact Hf.
  repeat (split; [reflexivity|]).
  split; [apply set_order_runs|].
  subst r1 r2. unfold calculate_score, final_score. cbn [fst snd].
  rewrite Hss. split; [reflexivity|]. split; [exact Hm|reflexivity].
Qed.

(** ** The range of the scores *)

Section Scores.

Import F64 F64Facts.
Local Open Scope Q_scope.

Lemma quotient_unit (a b : Z) :
  (0 <= a <= b)%Z -> (0 < b)%Z -> 0 <= inject_Z a / inject_Z b <= 1.
Proof.
  intros Ha Hb.
  assert (HB : 0 < inject_Z b) by (change 0 with (inject_Z 0); rewrite <- Zlt_Qlt; lia).
  assert (HA : 0 <= inject_Z a) by (change 0 with (inject_Z 0); rewrite <- Zle_Qle; lia).
  assert (HAB : inject_Z a <= inject_Z b) by (rewrite <- Zle_Qle; lia).
  split.
  - apply Qle_shift_div_l; [exact HB|]. lra.
  - apply Qle_shift_div_r; [exact HB|]. lra.
Qed.

Lemma quotient_mono (a1 a2 b : Z) :
  (a1 <= a2)%Z -> (0 < b)%Z -> inject_Z a1 / inject_Z b <= inject_Z a2 / inject_Z b.
Proof.
  intros Ha Hb. unfold Qdiv. apply Qmult_le_compat_r; [rewrite <- Zle_Qle; lia|].
  apply Qlt_le_weak, Qinv_lt_0_compat.
  change 0 with (inject_Z 0). rewrite <- Zlt_Qlt. lia.
Qed.

Lemma int_div_unit (a b : Z) :
  (0 <= a <= b)%Z -> (0 < b)%Z -> 0 <= int_div a b <= 1.
Proof.
  intros Ha Hb. destruct (quotient_unit a b Ha Hb) as [H0 H1]. unfold int_div. split.
  - apply RN_nonneg, H0.
  - apply Qle_trans with (RN 1); [apply RN_mono; assumption|].
    vm_compute. discriminate.
Qed.

Lemma int_div_mono (a1 a2 b : Z) :
  (0 <= a1 <= a2)%Z -> (0 < b)%Z -> int_div a1 b <= int_div a2 b.
Proof.
  intros Ha Hb. unfold int_div. apply RN_mono.
  - apply Qle_shift_div_l; [change 0 with (inject_Z 0); rewrite <- Zlt_Qlt; lia|].
    rewrite Qmult_0_l. change 0 with (inject_Z 0). rewrite <- Zle_Qle. lia.
  - apply quotient_mono; lia.
Qed.

Lemma mul_mono (x y c : Q) : 0 <= x -> x <= y -> 0 <= c -> mul x c <= mul y c.
Proof.
  intros Hx Hxy Hc. unfold mul. apply RN_mono.
  - apply Qmult_le_0_compat; assumption.
  - apply Qmult_le_compat_r; assumption.
Qed.

Lemma mul_nonneg (x c : Q) : 0 <= x -> 0 <= c -> 0 <= mul x c.
Proof. intros Hx Hc. apply RN_nonneg, Qmult_le_0_compat; assumption. Qed.

Lemma add_mono (x1 x2 y1 y2 : Q) :
  0 <= x1 -> x1 <= x2 -> 0 <= y1 -> y1 <= y2 -> add x1 y1 <= add x2 y2.
Proof. intros. unfold add. apply RN_mono; lra. Qed.

Lemma round1_mono (x y : Q) : 0 <= x -> x <= y -> round1 x <= round1 y.
Proof.
  intros Hx Hxy. unfold round1.
  assert (H : (round_half_even (x * 10) <= round_half_even (y * 10))%Z).
  { apply round_half_even_mono. lra. }
  assert (H0 : (0 <= round_half_even (x * 10))%Z).
  { rewrite <- (round_half_even_Z 0). apply round_half_even_mono.
    change (inject_Z 0) with 0. lra. }
  apply RN_mono.
  - apply Qle_shift_div_l; [reflexivity|]. rewrite Qmult_0_l.
    change 0 with (inject_Z 0). rewrite <- Zle_Qle. exact H0.
  - unfold Qdiv. apply Qmult_le_compat_r; [rewrite <- Zle_Qle; exact H|discriminate].
Qed.

Lemma percent_range (a b : Z) :
  (0 <= a <= b)%Z -> (0 < b)%Z -> 0 <= percent a b <= 100.
Proof.
  intros Ha Hb. destruct (int_div_unit a b Ha Hb) as [H0 H1]. unfold percent. split.
  - apply mul_nonneg; [exact H0|discriminate].
  - apply Qle_trans with (mul 1 (of_int 100));
      [apply mul_mono; [exact H0|exact H1|discriminate]|].
    vm_compute. discriminate.
Qed.

Lemma percent_mono (a1 a2 b : Z) :
  (0 <= a1 <= a2)%Z -> (0 < b)%Z -> percent a1 b <= percent a2 b.
Proof.
  intros Ha Hb. unfold percent. apply mul_mono; [|apply int_div_mono; lia|discriminate].
  apply RN_nonneg, Qle_shift_div_l; [change 0 with (inject_Z 0); rewrite <- Zlt_Qlt; lia|].
  rewrite Qmult_0_l. change 0 with (inject_Z 0). rewrite <- Zle_Qle. lia.
Qed.

Lemma percent_zero (b : Z) : percent 0 b = 0.
Proof.
  unfold percent, int_div. rewrite (RN_zero (inject_Z 0 / inject_Z b)); [reflexivity|].
  unfold Qdiv. apply Qmult_0_l.
Qed.

End Scores.

Section ScoreBounds.

Import F64 F64Facts.
Local Open Scope Q_scope.

Context (rt : runtime).

Lemma skill_score_cases (m : job_matcher) (c : candidate) :
  (req_skills m = ∅ /\ skill_score rt m c = PyInt 100) \/
  ((0 < size (req_skills m))%nat /\
   skill_score rt m c =
     PyFloat (percent (Z.of_nat (size (overlap m c))) (Z.of_nat (size (req_skills m))))).
Proof.
  unfold skill_score, skill_part.
  destruct (decide (req_skills m = ∅)) as [E|E]; [left; done|right].
  split; [|reflexivity].
  destruct (size (req_skills m)) eqn:Hs; [|lia].
  apply size_empty_iff in Hs. by apply leibniz_equiv in Hs.
Qed.

Lemma overlap_size (m : job_matcher) (c : candidate) :
  (size (overlap m c) <= size (req_skills m))%nat.
Proof. apply subseteq_size. unfold overlap. apply intersection_subseteq_r. Qed.

Lemma skill_value_range (m : job_matcher) (c : candidate) :
  0 <= to_float (skill_score rt m c) <= 100.
Proof.
  destruct (skill_score_cases m c) as [[_ ->]|[Hpos ->]]; cbn [to_float].
  - vm_compute. split; discriminate.
  - pose proof (overlap_size m c). apply percent_range; lia.
Qed.

Lemma skill_value_mono (m : job_matcher) (c1 c2 : candidate) :
  overlap m c1 ⊆ overlap m c2 ->
  to_float (skill_score rt m c1) <= to_float (skill_score rt m c2).
Proof.
  intros Hsub. apply subseteq_size in Hsub.
  destruct (skill_score_cases m c1) as [[E ->]|[Hpos ->]];
  destruct (skill_score_cases m c2) as [[E' ->]|[Hpos' ->]]; cbn [to_float].
  - apply Qle_refl.
  - rewrite E in Hpos'. rewrite size_empty in Hpos'. lia.
  - rewrite E' in Hpos. rewrite size_empty in Hpos. lia.
  - pose proof (overlap_size m c2). apply percent_mono; lia.
Qed.

Lemma exp_score_cases (m : job_matcher) (c : candidate) :
  ((min_exp m <= years_experience c)%N /\ exp_score m c = PyInt 100) \/
  ((years_experience c < min_exp m)%N /\
   exp_score m c =
     PyFloat (percent (Z.of_N (years_experience c)) (Z.of_N (min_exp m)))).
Proof.
  unfold exp_score.
  destruct (N.leb_spec (min_exp m) (years_experience c)) as [H|H]; [left; done|right].
  split; [exact H|].
  destruct (N.ltb_spec 0 (min_exp m)) as [H0|H0]; [reflexivity|lia].
Qed.

Lemma exp_value_range (m : job_matcher) (c : candidate) :
  0 <= to_float (exp_score m c) <= 100.
Proof.
  destruct (exp_score_cases m c) as [[_ ->]|[Hlt ->]]; cbn [to_float].
  - vm_compute. split; discriminate.
  - apply percent_range; lia.
Qed.

Lemma exp_value_mono (m : job_matcher) (c1 c2 : candidate) :
  (years_experience c1 <= years_experience c2)%N ->
  to_float (exp_score m c1) <= to_float (exp_score m c2).
Proof.
  intros Hle.
  destruct (exp_score_cases m c1) as [[H1 ->]|[H1 ->]];
  destruct (exp_score_cases m c2) as [[H2 ->]|[H2 ->]]; cbn [to_float].
  - apply Qle_refl.
  - lia.
  - apply Qle_trans with 100; [apply percent_range; lia|].
    vm_compute. discriminate.
  - apply percent_mono; lia.
Qed.

Lemma final_score_mono (m : job_matcher) (c1 c2 : candidate) :
  (years_experience c1 <= years_experience c2)%N ->
  overlap m c1 ⊆ overlap m c2 ->
  final_score rt m c1 <= final_score rt m c2.
Proof.
  intros Hy Ho. unfold final_score, mul_float.
  pose proof (skill_value_range m c1) as [S1 _].
  pose proof (exp_value_range m c1) as [E1 _].
  assert (W1 : 0 <= weight_skill) by (vm_compute; discriminate).
  assert (W2 : 0 <= weight_exp) by (vm_compute; discriminate).
  apply add_mono.
  - apply mul_nonneg; assumption.
  - apply mul_mono; [exact S1|apply skill_value_mono, Ho|exact W1].
  - apply mul_nonneg; assumption.
  - apply mul_mono; [exact E1|apply exp_value_mono, Hy|exact W2].
Qed.

Lemma final_score_range (m : job_matcher) (c : candidate) :
  0 <= final_score rt m c <= 100.
Proof.
  unfold final_score, mul_float.
  pose proof (skill_value_range m c) as [S1 S2].
  pose proof (exp_value_range m c) as [E1 E2].
  assert (W1 : 0 <= weight_skill) by (vm_compute; discriminate).
  assert (W2 : 0 <= weight_exp) by (vm_compute; discriminate).
  split.
  - apply RN_nonneg.
    pose proof (mul_nonneg _ _ S1 W1). pose proof (mul_nonneg _ _ E1 W2). lra.
  - apply Qle_trans with (add (mul 100 weight_skill) (mul 100 weight_exp)).
    + apply add_mono.
      * apply mul_nonneg; assumption.
      * apply mul_mono; assumption.
      * apply mul_nonneg; assumption.
      * apply mul_mono; assumption.
    + vm_compute. discriminate.
Qed.

End ScoreBounds.

(** C6. For every candidate record and requirement profile (years of
    experience and minimum experience are natural numbers), the final score
    returned by [calculate_score] lies between 0 and 100 and is rounded to
    one decimal: it is the binary64 number nearest to [k / 10] for an
    integer [k] between 0 and 1000. *)
Theorem final_score_in_range (rt : runtime) (m : job_matcher) (c : candidate) :
  let score := fst (fst (calculate_score rt m c)) in
  (0 <= score <= 100)%Q /\
  exists k : Z, (0 <= k <= 1000)%Z /\ score = F64.RN (inject_Z k / 10).
Proof.
  cbn [calculate_score fst].
  destruct (final_score_range rt m c) as [H0 H100].
  set (x := final_score rt m c) in *.
  assert (Hk : (0 <= F64.round_half_even (x * 10) <= 1000)%Z).
  { split.
    - rewrite <- (F64Facts.round_half_even_Z 0). apply F64Facts.round_half_even_mono.
      change (inject_Z 0) with 0%Q. lra.
    - rewrite <- (F64Facts.round_half_even_Z 1000). apply F64Facts.round_half_even_mono.
      change (inject_Z 1000) with 1000%Q. lra. }
  split.
  - split.
    + apply Qle_trans with (F64.round1 0); [vm_compute; discriminate|].
      apply round1_mono; [apply Qle_refl|exact H0].
    + apply Qle_trans with (F64.round1 100); [|vm_compute; discriminate].
      apply round1_mono; assumption.
  - exists (F64.round_half_even (x * 10)). split; [exact Hk|reflexivity].
Qed.

(** C7. With the profile fixed, a candidate with at least as many years of
    experience and at least the same required skills gets at least the same
    final score.  In particular the score does not decrease when the years
    of experience increase with the skills unchanged, nor when the overlap
    with the required skills grows with the years unchanged. *)
Theorem final_score_monotone (rt : runtime) (m : job_matcher) (c1 c2 : candidate) :
  (years_experience c1 <= years_experience c2)%N ->
  overlap m c1 ⊆ overlap m c2 ->
  (fst (fst (calculate_score rt m c1)) <= fst (fst (calculate_score rt m c2)))%Q.
Proof.
  intros Hy Ho. cbn [calculate_score fst].
  apply round1_mono.
  - apply final_score_range.
  - apply final_score_mono; assumption.
Qed.

Lemma final_score_monotone_witness :
  (years_experience junior <= years_experience senior)%N /\
  overlap profile_A junior ⊆ overlap profile_A senior /\
  (fst (fst (calculate_score sorted_runtime profile_A junior))
   <= fst (fst (calculate_score sorted_runtime profile_A senior)))%Q.
Proof.
  assert (Hy : (years_experience junior <= years_experience senior)%N) by (cbn; lia).
  assert (Ho : overlap profile_A junior ⊆ overlap profile_A senior).
  { apply (bool_decide_unpack _). vm_compute. exact I. }
  split; [exact Hy|]. split; [exact Ho|].
  exact (final_score_monotone sorted_runtime profile_A junior senior Hy Ho).
Defined.

(** ** A document of an unrecognized format *)

Lemma parse_empty (rt : runtime) : parse rt "" = no_candidate.
Proof.
  unfold parse, no_candidate, extract_skills.
  replace (found_skills "") with (@nil string) by (vm_compute; reflexivity).
  cbn [list_to_set foldr]. rewrite set_order_empty.
  vm_compute. reflexivity.
Qed.

Lemma overlap_no_candidate (m : job_matcher) : overlap m no_candidate = ∅.
Proof. unfold overlap. cbn [skills no_candidate list_to_set foldr]. apply (left_absorb_L ∅ (∩)). Qed.

Lemma no_candidate_skill_score (rt : runtime) (m : job_matcher) :
  req_skills m <> ∅ -> skill_score rt m no_candidate = PyFloat 0.
Proof.
  intros Hne. destruct (skill_score_cases rt m no_candidate) as [[E _]|[_ ->]]; [done|].
  rewrite overlap_no_candidate, size_empty. cbn [Z.of_nat]. by rewrite percent_zero.
Qed.

Lemma no_candidate_exp_score (m : job_matcher) :
  (0 < min_exp m)%N -> exp_score m no_candidate = PyFloat 0.
Proof.
  intros Hpos. destruct (exp_score_cases m no_candidate) as [[H _]|[_ ->]].
  - cbn in H. lia.
  - cbn [years_experience no_candidate Z.of_N]. by rewrite percent_zero.
Qed.

Lemma no_candidate_missing (rt : runtime) (m : job_matcher) :
  snd (fst (calculate_score rt m no_candidate)) ≡ₚ elements (req_skills m).
Proof.
  cbn [calculate_score fst snd]. unfold skill_part.
  destruct (decide (req_skills m = ∅)) as [E|E]; cbn [snd].
  - by rewrite E, elements_empty.
  - cbn [skills no_candidate list_to_set foldr].
    rewrite difference_empty_L. apply set_order_perm.
Qed.

(** C9. A document whose name ends with none of [.pdf], [.docx] and [.txt]
    is read as the empty text, without any exception or message.  The
    candidate parsed from it has the default of every field.  Scored against
    a profile, every required skill is missing; the skill score is 0 when
    skills are required, the experience score is 0 when some experience is
    required, and the final score is then 0, with the recommendation
    Reject. *)
Theorem unrecognized_extension (rt : runtime) (f : uploaded_file) :
  Str.endswith (file_name f) ".pdf" = false ->
  Str.endswith (file_name f) ".docx" = false ->
  Str.endswith (file_name f) ".txt" = false ->
  extract_text f = ("", []) /\
  parse rt (fst (extract_text f)) = no_candidate /\
  forall m : job_matcher,
    snd (fst (calculate_score rt m no_candidate)) ≡ₚ elements (req_skills m) /\
    (req_skills m <> ∅ -> skill_score rt m no_candidate = PyFloat 0) /\
    ((0 < min_exp m)%N -> exp_score m no_candidate = PyFloat 0) /\
    (req_skills m <> ∅ -> (0 < min_exp m)%N ->
     fst (fst (calculate_score rt m no_candidate)) = 0%Q /\
     recommend (fst (fst (calculate_score rt m no_candidate))) = Reject).
Proof.
  intros Hpdf Hdocx Htxt.
  assert (Ht : extract_text f = ("", [])).
  { unfold extract_text, read_document. by rewrite Hpdf, Hdocx, Htxt. }
  split; [exact Ht|]. split; [rewrite Ht; apply parse_empty|].
  intros m. split; [apply no_candidate_missing|].
  split; [apply no_candidate_skill_score|]. split; [apply no_candidate_exp_score|].
  intros Hne Hpos.
  assert (E : fst (fst (calculate_score rt m no_candidate)) = 0%Q).
  { cbn [calculate_score fst]. unfold final_score.
    rewrite (no_candidate_skill_score rt m Hne), (no_candidate_exp_score m Hpos).
    vm_compute. reflexivity. }
  rewrite E. split; [reflexivity|]. vm_compute. reflexivity.
Qed.

Lemma unrecognized_extension_witness :
  extract_text cv_rtf = ("", []) /\
  parse sorted_runtime (fst (extract_text cv_rtf)) = no_candidate.
Proof.
  destruct (unrecognized_extension sorted_runtime cv_rtf) as (H1 & H2 & _);
    [reflexivity|reflexivity|reflexivity|].
  split; [exact H1|exact H2].
Defined.

(** ** Normalization and the required skills *)

(** The vocabulary of the specification is the one of the code. *)
Module SpecFacts.
Import Scan.

Lemma is_space_spec (c : ascii) : Spec.is_space c = Chars.is_space c.
Proof. destruct c as [[] [] [] [] [] [] [] []]; vm_compute; reflexivity. Qed.

Lemma is_digit_spec (c : ascii) : Spec.is_digit c = Chars.is_digit c.
Proof. destruct c as [[] [] [] [] [] [] [] []]; vm_compute; reflexivity. Qed.

Lemma lower_char_spec (c : ascii) :
  Spec.translate Spec.capitals Spec.smalls c = Chars.lower c.
Proof. destruct c as [[] [] [] [] [] [] [] []]; vm_compute; reflexivity. Qed.

Lemma lower_spec (s : list ascii) : Spec.lower s = Str.lower s.
Proof. apply map_ext. intros c. apply lower_char_spec. Qed.

Lemma collapse_spec (s : list ascii) : forall fl, Spec.collapse fl s = collapse_aux fl s.
Proof.
  induction s as [|c s IH]; intros fl; [reflexivity|].
  cbn [Spec.collapse collapse_aux]. by rewrite is_space_spec, !IH.
Qed.

Lemma strip_left_spec (s : list ascii) : Spec.strip_left s = Str.lstrip s.
Proof.
  induction s as [|c s IH]; [reflexivity|].
  cbn [Spec.strip_left Str.lstrip]. by rewrite is_space_spec, IH.
Qed.

Lemma lstrip_snoc (s : list ascii) (c : ascii) :
  Str.lstrip (s ++ [c]) =
    match Str.lstrip s with
    | [] => if Chars.is_space c then [] else [c]
    | _ :: _ => (Str.lstrip s ++ [c])%list
    end.
Proof.
  induction s as [|a s IH]; [reflexivity|].
  cbn [app Str.lstrip]. destruct (Chars.is_space a); [exact IH|reflexivity].
Qed.

Lemma strip_right_spec (s : list ascii) :
  Spec.strip_right s = rev (Str.lstrip (rev s)).
Proof.
  induction s as [|c s IH]; [reflexivity|].
  cbn [Spec.strip_right rev]. rewrite lstrip_snoc, IH.
  destruct (Str.lstrip (rev s)) as [|a l] eqn:E.
  - cbn [rev]. rewrite is_space_spec. by destruct (Chars.is_space c).
  - rewrite rev_app_distr. cbn [rev app].
    destruct (rev l ++ [a])%list eqn:E'; [|reflexivity].
    by destruct (rev l).
Qed.

Lemma strip_spec (s : list ascii) :
  Spec.strip_right (Spec.strip_left s) = Str.strip s.
Proof. unfold Str.strip. by rewrite strip_right_spec, strip_left_spec. Qed.

Lemma take_run_ext (f g : ascii -> bool) (s : list ascii) :
  (forall c, f c = g c) -> take_run f s = take_run g s.
Proof.
  intros H. induction s as [|c s IH]; [reflexivity|].
  cbn [take_run]. by rewrite H, IH.
Qed.

Lemma drop_run_ext (f g : ascii -> bool) (s : list ascii) :
  (forall c, f c = g c) -> drop_run f s = drop_run g s.
Proof.
  intros H. induction s as [|c s IH]; [reflexivity|].
  cbn [drop_run]. by rewrite H, IH.
Qed.

Lemma year_phrase_at_spec (s : list ascii) :
  Spec.year_phrase_at s = Scan.year_phrase_at s.
Proof.
  unfold Spec.year_phrase_at, Scan.year_phrase_at, year_tail.
  rewrite (take_run_ext _ _ s is_digit_spec), (drop_run_ext _ _ s is_digit_spec).
  rewrite (drop_run_ext _ _ _ is_space_spec).
  destruct (take_run Chars.is_digit s); [reflexivity|].
  by destruct (strip_prefix _ _).
Qed.

Lemma scan_fuel_ext (m1 m2 : list ascii -> option (list ascii * list ascii)) :
  (forall a, m1 a = m2 a) ->
  forall fuel s, scan_fuel m1 fuel s = scan_fuel m2 fuel s.
Proof.
  intros H. induction fuel as [|fuel IH]; intros s; [reflexivity|].
  cbn [scan_fuel]. rewrite H. destruct (m2 s) as [[g s']|]; [by rewrite IH|].
  destruct s; [reflexivity|apply IH].
Qed.

Lemma scan_year_phrases (s : list ascii) :
  scan Spec.year_phrase_at s = scan Scan.year_phrase_at s.
Proof. apply scan_fuel_ext, year_phrase_at_spec. Qed.

Lemma take_run_all (f : ascii -> bool) (s : list ascii) :
  Forall (fun c => f c = true) (take_run f s).
Proof.
  induction s as [|c s IH]; [constructor|]. cbn [take_run].
  destruct (f c) eqn:E; by constructor.
Qed.

Lemma year_phrase_digits (a g a' : list ascii) :
  Scan.year_phrase_at a = Some (g, a') -> Forall (fun c => Chars.is_digit c = true) g.
Proof.
  unfold Scan.year_phrase_at. pose proof (take_run_all Chars.is_digit a) as H.
  destruct (take_run Chars.is_digit a); [discriminate|].
  destruct (year_tail _); [|discriminate]. by intros [= <- _].
Qed.

Lemma calendar_year_digits (a g a' : list ascii) :
  Scan.calendar_year_at a = Some (g, a') -> Forall (fun c => Chars.is_digit c = true) g.
Proof.
  destruct a as [|c1 [|c2 [|c3 [|c4 rest]]]]; try discriminate. cbn [calendar_year_at].
  destruct (bool_decide (c1 = "2"%char)) eqn:E1; [|discriminate].
  destruct (bool_decide (c2 = "0"%char)) eqn:E2; [|discriminate].
  destruct (Chars.is_digit c3) eqn:E3; [|discriminate].
  destruct (Chars.is_digit c4) eqn:E4; [|discriminate].
  cbn [andb]. intros [= <- _].
  apply bool_decide_eq_true in E1 as ->. apply bool_decide_eq_true in E2 as ->.
  by repeat constructor.
Qed.

End SpecFacts.

(** ** The scans of the texts of arbitrary characters *)

Module UniFacts.
Import Uni.

(** *** The matcher on a class of characters *)

Lemma uni_take_drop_run (f : char -> bool) (s : list char) :
  (take_run f s ++ drop_run f s)%list = s.
Proof. induction s as [|c s IH]; cbn; [done|]. destruct (f c); cbn; [by rewrite IH|done]. Qed.

Lemma uni_drop_run_length (f : char -> bool) (s : list char) :
  (length (drop_run f s) <= length s)%nat.
Proof. induction s as [|c s IH]; cbn; [lia|]. destruct (f c); cbn; lia. Qed.

Lemma uni_run_cat {A : Type} (r1 r2 : regex) (p : pos) (k : pos -> option A) :
  run (Cat r1 r2) p k = run r1 p (fun p' => run r2 p' k).
Proof. reflexivity. Qed.

Lemma uni_run_cls {A : Type} (f : char -> bool) (p : pos) (k : pos -> option A) :
  run (Cls f) p k = match step p f with Some p' => k p' | None => None end.
Proof. reflexivity. Qed.

Lemma uni_run_star {A : Type} (r : regex) (p : pos) (k : pos -> option A) :
  run (Star r) p k = star_loop (run r) k (length (ahead p)) p.
Proof. reflexivity. Qed.

Lemma uni_run_grp {A : Type} (r : regex) (p : pos) (k : pos -> option A) :
  run (Grp r) p k = run r p (fun p' => k (close_group p p')).
Proof. reflexivity. Qed.

Lemma uni_star_class {A : Type} (f : char -> bool) (k : pos -> option A) :
  (forall b c a g, f c = true -> k (Pos b (c :: a) g) = None) ->
  forall fuel b a g, (length a <= fuel)%nat ->
    star_loop (run (Cls f)) k fuel (Pos b a g)
    = k (Pos (rev (take_run f a) ++ b) (drop_run f a) g).
Proof.
  intros Hk. induction fuel as [|fuel IH]; intros b a g Hlen.
  - destruct a; [reflexivity|cbn in Hlen; lia].
  - destruct a as [|c a]; [reflexivity|].
    cbn [star_loop take_run drop_run]. rewrite uni_run_cls. cbn [step ahead before groups].
    destruct (f c) eqn:Hc; [|reflexivity].
    cbn [ahead before groups length]. rewrite (proj2 (Nat.ltb_lt _ _)) by lia.
    rewrite IH by (cbn in Hlen; lia).
    cbn [rev]. rewrite <- app_assoc. cbn [app].
    rewrite (Hk b c a g Hc). by destruct (k _).
Qed.

Lemma uni_star_class_last (f : char -> bool) (fuel : nat) (b a : list char) g :
  (length a <= fuel)%nat ->
  star_loop (run (Cls f)) Some fuel (Pos b a g)
  = Some (Pos (rev (take_run f a) ++ b) (drop_run f a) g).
Proof.
  revert b a. induction fuel as [|fuel IH]; intros b a Hlen.
  - destruct a; [reflexivity|cbn in Hlen; lia].
  - destruct a as [|c a]; [reflexivity|].
    cbn [star_loop take_run drop_run]. rewrite uni_run_cls. cbn [step ahead before groups].
    destruct (f c) eqn:Hc; [|reflexivity].
    cbn [ahead before groups length]. rewrite (proj2 (Nat.ltb_lt _ _)) by lia.
    rewrite IH by (cbn in Hlen; lia).
    cbn [rev]. rewrite <- app_assoc. reflexivity.
Qed.

(** *** Replacing the runs of spaces *)

Section Spaces.

Context (sp : char -> bool).

Lemma uni_match_ws_run (b a : list char) (g : list (list char)) :
  match_at (Plus (Cls sp)) (Pos b a g) =
  match a with
  | c :: a' =>
      if sp c
      then Some (Pos (rev (take_run sp a') ++ c :: b) (drop_run sp a') [])
      else None
  | [] => None
  end.
Proof.
  unfold match_at, Plus. rewrite uni_run_cat, uni_run_cls.
  destruct a as [|c a]; [reflexivity|]. cbn [step ahead before groups].
  destruct (sp c); [|reflexivity].
  rewrite uni_run_star. cbn [ahead]. by rewrite uni_star_class_last.
Qed.

Lemma uni_search_ws_run (a : list char) :
  forall b g fuel, (length a <= fuel)%nat ->
  match search_from fuel (Plus (Cls sp)) (Pos b a g) with
  | None => no_space sp a
  | Some (A, B) =>
      exists pre c rest,
        a = (pre ++ c :: rest)%list /\ no_space sp pre /\ sp c = true /\
        before A = (rev pre ++ b)%list /\ ahead A = c :: rest /\
        ahead B = drop_run sp rest
  end.
Proof.
  induction a as [|c a IH]; intros b g fuel Hlen.
  - destruct fuel; cbn; constructor.
  - destruct fuel as [|fuel]; [cbn in Hlen; lia|].
    cbn [search_from]. rewrite uni_match_ws_run.
    destruct (sp c) eqn:Hc.
    + exists [], c, a. repeat split; try done. constructor.
    + cbn [advance ahead before].
      specialize (IH (c :: b) [] fuel ltac:(cbn in Hlen; lia)).
      destruct (search_from fuel (Plus (Cls sp)) _) as [[A B]|].
      * destruct IH as (pre & c' & rest & -> & Hpre & Hc' & HA & HA' & HB).
        exists (c :: pre), c', rest. repeat split; try done.
        -- by constructor.
        -- rewrite HA. cbn [rev]. by rewrite <- app_assoc.
      * by constructor.
Qed.

Lemma uni_collapse_no_space (pre s : list char) :
  no_space sp pre -> collapse sp false (pre ++ s) = (pre ++ collapse sp false s)%list.
Proof.
  induction 1 as [|c pre Hc _ IH]; [reflexivity|].
  cbn. rewrite Hc. by rewrite IH.
Qed.

Lemma uni_collapse_in_run (s : list char) :
  collapse sp true s = collapse sp false (drop_run sp s).
Proof.
  induction s as [|c s IH]; [reflexivity|].
  cbn. destruct (sp c) eqn:Hc; [exact IH|]. cbn. by rewrite Hc.
Qed.

Lemma uni_sub_from_ws_run (n : nat) :
  forall p fuel, (length (ahead p) <= n)%nat -> (length (ahead p) < fuel)%nat ->
  sub_from fuel (Plus (Cls sp)) [of_ascii " "] p = collapse sp false (ahead p).
Proof.
  induction n as [|n IH]; intros [b a g] fuel Hn Hfuel; cbn [ahead] in *.
  - destruct a; [|cbn in Hn; lia]. destruct fuel; [lia|]. reflexivity.
  - destruct fuel as [|fuel]; [lia|]. cbn [sub_from ahead].
    pose proof (uni_search_ws_run a b g (length a) (le_n _)) as Hs.
    destruct (search_from (length a) (Plus (Cls sp)) _) as [[A B]|].
    + destruct Hs as (pre & c & rest & -> & Hpre & Hc & HA & HA' & HB).
      pose proof (uni_drop_run_length sp rest) as Hd.
      rewrite length_app in Hn, Hfuel. cbn [length] in Hn, Hfuel.
      rewrite HA', HB. cbn [length].
      rewrite (proj2 (Nat.ltb_lt _ _)) by lia.
      rewrite (IH B fuel); [|rewrite HB; lia|rewrite HB; lia].
      rewrite HB.
      assert (Hm : matched (Pos b (pre ++ c :: rest) g) A = pre).
      { unfold matched. cbn [before]. rewrite HA.
        rewrite length_app, length_rev.
        replace (length pre + length b - length b)%nat with (length (rev pre)) by (rewrite length_rev; lia).
        rewrite take_app_length. apply rev_involutive. }
      rewrite Hm. rewrite uni_collapse_no_space by exact Hpre.
      cbn [collapse]. rewrite Hc. by rewrite uni_collapse_in_run.
    + clear -Hs. unfold no_space in Hs.
      induction Hs as [|c a Hc _ IHa]; [reflexivity|].
      cbn. rewrite Hc. by rewrite <- IHa.
Qed.

Lemma uni_sub_ws_run (s : list char) :
  sub (Plus (Cls sp)) [of_ascii " "] s = collapse sp false s.
Proof. unfold sub. by apply (uni_sub_from_ws_run (length s)); cbn; lia. Qed.

End Spaces.

(** *** Successive matches as a scan *)

Section Findall.

Context (r : regex) (m : list char -> option (list char * list char)).

Hypothesis match_at_m : forall b a g,
  match match_at r (Pos b a g) with
  | Some q => m a = Some (group_of q, ahead q)
  | None => m a = None
  end.

Hypothesis m_shorter : forall a grp a',
  m a = Some (grp, a') -> (length a' < length a)%nat.

Lemma uni_search_scans (a : list char) :
  forall b g fuel, (length a <= fuel)%nat ->
  match search_from fuel r (Pos b a g) with
  | None => scans m a []
  | Some (A, B) =>
      m (ahead A) = Some (group_of B, ahead B) /\
      (length (ahead A) <= length a)%nat /\
      (forall l, scans m (ahead A) l -> scans m a l)
  end.
Proof.
  induction a as [|c a IH]; intros b g fuel Hlen.
  - pose proof (match_at_m b [] g) as Hm.
    destruct fuel; cbn [search_from advance ahead];
      destruct (match_at r _) as [q|];
      try (apply m_shorter in Hm; cbn in Hm; lia); by constructor.
  - destruct fuel as [|fuel]; [cbn in Hlen; lia|].
    pose proof (match_at_m b (c :: a) g) as Hm.
    cbn [search_from]. destruct (match_at r _) as [q|].
    + cbn [ahead]. split; [exact Hm|]. split; [lia|]. tauto.
    + cbn [advance ahead before].
      specialize (IH (c :: b) [] fuel ltac:(cbn in Hlen; lia)).
      destruct (search_from fuel r _) as [[A B]|].
      * destruct IH as (H1 & H2 & H3). split; [exact H1|].
        split; [cbn; lia|]. intros l Hl. apply scans_skip; [exact Hm|]. by apply H3.
      * by apply scans_skip.
Qed.

Lemma uni_matches_from_scans (n : nat) :
  forall p fuel, (length (ahead p) <= n)%nat -> (length (ahead p) < fuel)%nat ->
  scans m (ahead p) (map (fun ab => group_of (snd ab)) (matches_from fuel r p)).
Proof.
  induction n as [|n IH]; intros [b a g] fuel Hn Hfuel; cbn [ahead] in *.
  - destruct a; [|cbn in Hn; lia]. destruct fuel as [|fuel]; [lia|].
    cbn [matches_from ahead length].
    pose proof (uni_search_scans [] b g 0 (le_n _)) as Hs.
    destruct (search_from 0 r _) as [[A B]|]; [|exact Hs].
    destruct Hs as (H1 & H2 & _). apply m_shorter in H1. cbn in H2. lia.
  - destruct fuel as [|fuel]; [lia|]. cbn [matches_from ahead].
    pose proof (uni_search_scans a b g (length a) (le_n _)) as Hs.
    destruct (search_from (length a) r _) as [[A B]|]; [|exact Hs].
    destruct Hs as (H1 & H2 & H3). pose proof (m_shorter _ _ _ H1) as Hlt.
    rewrite (proj2 (Nat.ltb_lt _ _)) by exact Hlt.
    cbn [map snd]. apply H3. eapply scans_hit; [exact H1|].
    apply IH; lia.
Qed.

Lemma uni_findall1_scans (s : list char) : scans m s (findall1 r s).
Proof.
  unfold findall1, all_matches.
  apply (uni_matches_from_scans (length s) (start_of s)); cbn; lia.
Qed.

End Findall.

Lemma uni_scans_unique m s l1 :
  scans m s l1 -> forall l2, scans m s l2 -> l1 = l2.
Proof.
  induction 1 as [H|c a l H _ IH|a grp a' l H _ IH]; intros l2 H2.
  - inversion H2; subst; [reflexivity|congruence].
  - inversion H2; subst; [by apply IH|congruence].
  - inversion H2; subst; try congruence.
    match goal with E : m a = Some (?g', ?a'') |- _ =>
      rewrite H in E; injection E as <- <- end.
    f_equal. by apply IH.
Qed.

Lemma uni_close_group_app (b a x a' : list char) g g' :
  close_group (Pos b a g) (Pos (x ++ b) a' g') = Pos (x ++ b) a' (rev x :: g').
Proof.
  unfold close_group. cbn [before ahead groups]. rewrite length_app.
  replace (length x + length b - length b)%nat with (length x) by lia.
  by rewrite take_app_length.
Qed.

Lemma uni_scan_fuel_scans m :
  (forall a grp a', m a = Some (grp, a') -> (length a' < length a)%nat) ->
  forall fuel s, (length s < fuel)%nat -> scans m s (scan_fuel m fuel s).
Proof.
  intros Hm. induction fuel as [|fuel IH]; intros s Hlen; [lia|].
  cbn [scan_fuel]. destruct (m s) as [[grp s']|] eqn:E.
  - eapply scans_hit; [exact E|]. apply IH. apply Hm in E. lia.
  - destruct s as [|c s]; [by constructor|].
    apply scans_skip; [exact E|]. apply IH. cbn in Hlen. lia.
Qed.

Lemma uni_findall1_scan r m (s : list char) :
  (forall b a g,
     match match_at r (Pos b a g) with
     | Some q => m a = Some (group_of q, ahead q)
     | None => m a = None
     end) ->
  (forall a grp a', m a = Some (grp, a') -> (length a' < length a)%nat) ->
  findall1 r s = scan m s.
Proof.
  intros H1 H2. eapply uni_scans_unique.
  - by apply uni_findall1_scans.
  - apply uni_scan_fuel_scans; [exact H2|lia].
Qed.


Lemma uni_run_lit {A : Type} (w : list char) (k : pos -> option A) :
  forall b a g,
  run (Lit w) (Pos b a g) k =
  match strip_prefix w a with
  | Some a' => k (Pos (rev w ++ b) a' g)
  | None => None
  end.
Proof.
  induction w as [|c w IH]; intros b a g; [reflexivity|].
  cbn [Lit strip_prefix]. rewrite uni_run_cat.
  destruct a as [|d a]; cbn [run step ahead before groups]; [reflexivity|].
  case_bool_decide; [subst d|reflexivity].
  rewrite IH. cbn [rev]. by rewrite <- app_assoc.
Qed.

Lemma uni_run_opt_chr {A : Type} (c : char) (k : pos -> option A) b a g :
  run (Opt (Chr c)) (Pos b a g) k =
  match a with
  | d :: a' =>
      if bool_decide (d = c)
      then match k (Pos (d :: b) a' g) with
           | Some x => Some x
           | None => k (Pos b a g)
           end
      else k (Pos b a g)
  | [] => k (Pos b [] g)
  end.
Proof.
  unfold Opt.
  destruct a as [|d a]; cbn [run step ahead before groups]; [reflexivity|].
  by case_bool_decide.
Qed.

Lemma uni_strip_prefix_length (w s s' : list char) :
  strip_prefix w s = Some s' -> (length s' <= length s)%nat.
Proof.
  revert s. induction w as [|c w IH]; intros s H; cbn in H.
  - injection H as <-. lia.
  - destruct s as [|d s]; [discriminate H|].
    case_bool_decide; [|discriminate H]. apply IH in H. cbn. lia.
Qed.

Lemma uni_skip_char_length (c : char) (s : list char) :
  (length (skip_char c s) <= length s)%nat.
Proof. destruct s as [|d s]; cbn; [lia|]. case_bool_decide; cbn; lia. Qed.

(** *** The calendar years and the phrases "N years" *)

Section Phrases.

Context (dg sp : char -> bool).

Hypothesis digits_apart : forall d,
  dg d = true -> sp d = false /\ d <> of_ascii "+" /\ d <> of_ascii "y".
Hypothesis spaces_apart : forall c, sp c = true -> c <> of_ascii "y".
Hypothesis plus_apart : sp (of_ascii "+") = false.

Lemma uni_twenty_decide (c1 c2 : char) :
  bool_decide ([c1; c2] = of_string "20") =
  bool_decide (c1 = of_ascii "2") && bool_decide (c2 = of_ascii "0").
Proof.
  destruct (decide (c1 = of_ascii "2")) as [->|H1].
  - destruct (decide (c2 = of_ascii "0")) as [->|H2].
    + by rewrite !bool_decide_eq_true_2.
    + rewrite (bool_decide_eq_false_2 (c2 = _)) by exact H2.
      rewrite bool_decide_eq_false_2; [by rewrite andb_false_r|].
      intros [= E]. by apply H2.
  - rewrite (bool_decide_eq_false_2 (c1 = _)) by exact H1.
    rewrite bool_decide_eq_false_2; [reflexivity|].
    intros [= E _]. by apply H1.
Qed.

Lemma uni_match_at_calendar (b a : list char) g :
  match match_at (Grp (Cat (Lit (of_string "20")) (Rep 2 (Cls dg)))) (Pos b a g) with
  | Some q => calendar_year_at dg a = Some (group_of q, ahead q)
  | None => calendar_year_at dg a = None
  end.
Proof.
  unfold match_at. rewrite uni_run_grp, uni_run_cat, uni_run_lit.
  destruct a as [|c1 [|c2 [|c3 [|c4 rest]]]];
    cbn [before ahead groups strip_prefix of_string chars list_ascii_of_string map
         calendar_year_at];
    rewrite ?uni_twenty_decide;
    repeat (case_bool_decide; subst); try done;
    repeat first
      [ reflexivity
      | progress cbn [Rep run step ahead before groups andb rev app]
      | match goal with
        | |- context [dg ?c] => destruct (dg c)
        end ].
  change (c4 :: c3 :: of_ascii "0" :: of_ascii "2" :: b)%list
    with ([c4; c3; of_ascii "0"; of_ascii "2"] ++ b)%list.
  rewrite uni_close_group_app. reflexivity.
Qed.

Lemma uni_calendar_year_shorter (a grp a' : list char) :
  calendar_year_at dg a = Some (grp, a') -> (length a' < length a)%nat.
Proof.
  destruct a as [|c1 [|c2 [|c3 [|c4 rest]]]]; try discriminate. cbn [calendar_year_at].
  destruct (_ && _); [|discriminate]. intros [= <- <-]. cbn. lia.
Qed.

Lemma uni_word_eval b a g :
  match run word_re (Pos b a g) Some with
  | Some q => word_at a = Some (ahead q) /\ groups q = g
  | None => word_at a = None
  end.
Proof.
  unfold word_re, word_at. rewrite uni_run_cat, uni_run_lit.
  destruct (strip_prefix (of_string "year") a) as [a'|]; [|reflexivity].
  rewrite uni_run_opt_chr. destruct a' as [|d a']; [done|].
  cbn [skip_char]. by case_bool_decide.
Qed.

Lemma uni_word_fails b c a g :
  sp c = true -> run word_re (Pos b (c :: a) g) Some = None.
Proof.
  intros Hc. pose proof (uni_word_eval b (c :: a) g) as H.
  destruct (run word_re _ Some) as [q|]; [|reflexivity].
  destruct H as [H _]. unfold word_at in H. cbn in H.
  case_bool_decide; [|discriminate H]. by apply spaces_apart in Hc.
Qed.

Lemma uni_spaced_eval b a g :
  match run (spaced_re sp) (Pos b a g) Some with
  | Some q => word_at (drop_run sp a) = Some (ahead q) /\ groups q = g
  | None => word_at (drop_run sp a) = None
  end.
Proof.
  unfold spaced_re. rewrite uni_run_cat, uni_run_star. cbn [ahead].
  rewrite uni_star_class; [|intros; by apply uni_word_fails|done].
  apply uni_word_eval.
Qed.

Lemma uni_tail_eval b a g :
  match run (tail_re sp) (Pos b a g) Some with
  | Some q => year_tail sp a = Some (ahead q) /\ groups q = g
  | None => year_tail sp a = None
  end.
Proof.
  unfold tail_re, year_tail. rewrite uni_run_cat, uni_run_opt_chr.
  destruct a as [|d a]; [apply (uni_spaced_eval b [] g)|].
  cbn [skip_char]. case_bool_decide as Hd; [|apply (uni_spaced_eval b (d :: a) g)].
  pose proof (uni_spaced_eval (d :: b) a g) as H1.
  destruct (run (spaced_re sp) (Pos (d :: b) a g) Some) as [q|]; [exact H1|].
  pose proof (uni_spaced_eval b (d :: a) g) as H2.
  destruct (run (spaced_re sp) (Pos b (d :: a) g) Some) as [q|]; [|exact H1].
  destruct H2 as [H2 _]. subst d.
  cbn [drop_run] in H2. rewrite plus_apart in H2.
  unfold word_at in H2. cbn in H2. discriminate H2.
Qed.

Lemma uni_tail_fails b d a g :
  dg d = true -> run (tail_re sp) (Pos b (d :: a) g) Some = None.
Proof.
  intros Hd. destruct (digits_apart d Hd) as (Hs & Hp & Hy).
  pose proof (uni_tail_eval b (d :: a) g) as H.
  destruct (run (tail_re sp) _ Some) as [q|]; [|reflexivity].
  destruct H as [H _]. unfold year_tail in H. cbn [skip_char] in H.
  rewrite bool_decide_false in H by exact Hp.
  cbn [drop_run] in H. rewrite Hs in H. unfold word_at in H. cbn in H.
  rewrite bool_decide_false in H by exact Hy. discriminate H.
Qed.

Lemma uni_year_phrase_tail (a : list char) :
  year_phrase_at dg sp a =
    match take_run dg a with
    | [] => None
    | ds => match year_tail sp (drop_run dg a) with
            | Some rest => Some (ds, rest)
            | None => None
            end
    end.
Proof.
  unfold year_phrase_at, year_tail, word_at.
  destruct (take_run dg a); [reflexivity|]. by destruct (strip_prefix _ _).
Qed.

Lemma uni_match_at_years (b a : list char) g :
  match match_at (Cat (Grp (Plus (Cls dg))) (tail_re sp)) (Pos b a g) with
  | Some q => year_phrase_at dg sp a = Some (group_of q, ahead q)
  | None => year_phrase_at dg sp a = None
  end.
Proof.
  rewrite uni_year_phrase_tail.
  unfold match_at. unfold Plus. rewrite uni_run_cat, uni_run_grp, uni_run_cat, uni_run_cls.
  destruct a as [|c a]; cbn [before ahead step groups]; [reflexivity|].
  cbn [take_run drop_run].
  destruct (dg c) eqn:Hc; [|reflexivity].
  rewrite uni_run_star. cbn [ahead].
  rewrite uni_star_class; [|intros; unfold close_group; by apply uni_tail_fails|done].
  replace (rev (take_run dg a) ++ c :: b)%list
    with (rev (c :: take_run dg a) ++ b)%list
    by (cbn [rev]; by rewrite <- app_assoc).
  rewrite uni_close_group_app, rev_involutive.
  pose proof (uni_tail_eval (rev (c :: take_run dg a) ++ b)
                (drop_run dg a) [c :: take_run dg a]) as H.
  destruct (run (tail_re sp) _ Some) as [q|].
  - destruct H as [H1 H2]. rewrite H1. unfold group_of. by rewrite H2.
  - by rewrite H.
Qed.

Lemma uni_year_phrase_shorter (a grp a' : list char) :
  year_phrase_at dg sp a = Some (grp, a') -> (length a' < length a)%nat.
Proof.
  intros H. rewrite uni_year_phrase_tail in H.
  pose proof (uni_take_drop_run dg a) as Ha. apply (f_equal (@length char)) in Ha.
  rewrite length_app in Ha.
  destruct (take_run dg a) as [|d ds]; [discriminate H|].
  unfold year_tail, word_at in H.
  destruct (strip_prefix _ _) as [rest|] eqn:E; [|discriminate H].
  assert (Ea : a' = skip_char (of_ascii "s") rest) by congruence. subst a'.
  apply uni_strip_prefix_length in E.
  pose proof (uni_skip_char_length (of_ascii "s") rest).
  pose proof (uni_drop_run_length sp (skip_char (of_ascii "+") (drop_run dg a))).
  pose proof (uni_skip_char_length (of_ascii "+") (drop_run dg a)).
  cbn [length] in Ha. lia.
Qed.

Lemma uni_findall1_years (s : list char) :
  findall1 (Cat (Grp (Plus (Cls dg))) (tail_re sp)) s = scan (year_phrase_at dg sp) s.
Proof. apply uni_findall1_scan; [apply uni_match_at_years|apply uni_year_phrase_shorter]. Qed.

Lemma uni_findall1_calendar (s : list char) :
  findall1 (Grp (Cat (Lit (of_string "20")) (Rep 2 (Cls dg)))) s =
  scan (calendar_year_at dg) s.
Proof. apply uni_findall1_scan; [apply uni_match_at_calendar|apply uni_calendar_year_shorter]. Qed.

End Phrases.

(** *** Classes that agree *)



Lemma uni_collapse_ext (f g : char -> bool) (s : list char) :
  (forall c, f c = g c) -> forall fl, collapse f fl s = collapse g fl s.
Proof.
  intros H. induction s as [|c s IH]; intros fl; [reflexivity|].
  cbn [collapse]. by rewrite H, !IH.
Qed.

Lemma uni_strip_left_ext (f g : char -> bool) (s : list char) :
  (forall c, f c = g c) -> strip_left f s = strip_left g s.
Proof.
  intros H. induction s as [|c s IH]; [reflexivity|].
  cbn [strip_left]. by rewrite H, IH.
Qed.

Lemma uni_strip_right_ext (f g : char -> bool) (s : list char) :
  (forall c, f c = g c) -> strip_right f s = strip_right g s.
Proof.
  intros H. induction s as [|c s IH]; [reflexivity|].
  cbn [strip_right]. by rewrite H, IH.
Qed.




(** The spaces at the ends. *)
Section Strip.

Context (U : tables).

Lemma uni_strip_left_lstrip (s : list char) : strip_left (is_space U) s = lstrip U s.
Proof.
  induction s as [|c s IH]; [reflexivity|].
  cbn [strip_left lstrip]. by rewrite IH.
Qed.

Lemma uni_lstrip_snoc (s : list char) (c : char) :
  lstrip U (s ++ [c]) =
    match lstrip U s with
    | [] => if is_space U c then [] else [c]
    | _ :: _ => (lstrip U s ++ [c])%list
    end.
Proof.
  induction s as [|a s IH]; [reflexivity|].
  cbn [app lstrip]. destruct (is_space U a); [exact IH|reflexivity].
Qed.

Lemma uni_strip_right_lstrip (s : list char) :
  strip_right (is_space U) s = rev (lstrip U (rev s)).
Proof.
  induction s as [|c s IH]; [reflexivity|].
  cbn [strip_right rev]. rewrite uni_lstrip_snoc, IH.
  destruct (lstrip U (rev s)) as [|a l] eqn:E.
  - cbn [rev]. by destruct (is_space U c).
  - rewrite rev_app_distr. cbn [rev app].
    destruct (rev l ++ [a])%list eqn:E'; [|reflexivity].
    by destruct (rev l).
Qed.

Lemma uni_strip_spec (s : list char) :
  strip_right (is_space U) (strip_left (is_space U) s) = strip U s.
Proof. unfold strip. by rewrite uni_strip_right_lstrip, uni_strip_left_lstrip. Qed.

End Strip.

(** *** The characters of the ASCII range *)

Lemma uni_of_ascii_small (a : ascii) : (of_ascii a < 256)%N.
Proof. apply N_ascii_bounded. Qed.

Lemma uni_of_ascii_inv (c : char) : (c < 256)%N -> of_ascii (ascii_of_N c) = c.
Proof. apply N_ascii_embedding. Qed.

Lemma uni_ascii_of_ascii (a : ascii) : ascii_of_N (of_ascii a) = a.
Proof. apply ascii_N_embedding. Qed.

Lemma uni_not_listed (c : char) (l : list ascii) :
  (256 <= c)%N -> bool_decide (c ∈ map of_ascii l) = false.
Proof.
  intros Hc. apply bool_decide_eq_false_2.
  change (map of_ascii l) with (of_ascii <$> l).
  intros (a & -> & _)%list_elem_of_fmap. pose proof (uni_of_ascii_small a). lia.
Qed.

Section Text.

Context (U : tables).

Lemma uni_spec_is_space_ascii (a : ascii) :
  spec_is_space U (of_ascii a) = is_space U (of_ascii a).
Proof. destruct a as [[] [] [] [] [] [] [] []]; vm_compute; reflexivity. Qed.

Lemma uni_spec_is_space_eq (c : char) : spec_is_space U c = is_space U c.
Proof.
  destruct (N.lt_ge_cases c 256) as [Hc|Hc].
  - rewrite <- (uni_of_ascii_inv c Hc). apply uni_spec_is_space_ascii.
  - unfold spec_is_space, is_space, is_ascii. rewrite uni_not_listed by exact Hc.
    by rewrite (proj2 (N.ltb_ge _ _)) by lia.
Qed.




Lemma uni_spec_lower_eq (s : list char) : spec_lower U s = str_lower U s.
Proof.
  unfold spec_lower, str_lower.
  change (forallb (fun c => (c <? 128)%N) s) with (forallb is_ascii s).
  destruct (forallb is_ascii s); [|reflexivity].
  apply map_ext. intros c. by rewrite SpecFacts.lower_char_spec.
Qed.

(** No digit is a space, "+" or "y"; no space is "y"; "+" is not a space. *)
Lemma uni_digit_facts (d : char) :
  is_digit U d = true ->
  is_space U d = false /\ d <> of_ascii "+" /\ d <> of_ascii "y".
Proof.
  unfold is_digit, digit_of, is_space. destruct (is_ascii d) eqn:Ha.
  - unfold is_ascii in Ha. apply N.ltb_lt in Ha.
    destruct (Chars.is_digit (ascii_of_N d)) eqn:Hd; [intros _|discriminate].
    destruct (ReFacts.digit_facts _ Hd) as (Hs & Hp & Hy).
    split; [exact Hs|]. split; intros ->; [by apply Hp|by apply Hy].
  - destruct (decimal U d) as [v|] eqn:Hd; [intros _|discriminate].
    split; [by apply (decimal_not_space U d v)|].
    split; intros ->; discriminate Ha.
Qed.

Lemma uni_space_not_y (c : char) : is_space U c = true -> c <> of_ascii "y".
Proof. intros H ->. discriminate H. Qed.

Lemma uni_plus_not_space : is_space U (of_ascii "+") = false.
Proof. reflexivity. Qed.

(** *** Normalization *)

Lemma uni_normalize_text_spec (s : list char) : normalize_text U s = spec_normalize U s.
Proof.
  unfold normalize_text, spec_normalize, ws_run.
  rewrite uni_sub_ws_run, <- uni_strip_spec, uni_spec_lower_eq.
  rewrite (uni_collapse_ext _ _ _ uni_spec_is_space_eq).
  rewrite (uni_strip_left_ext _ _ _ uni_spec_is_space_eq).
  by rewrite (uni_strip_right_ext _ _ _ uni_spec_is_space_eq).
Qed.

(** *** The phrases and the years *)





Lemma uni_ints_value (l : list (list char)) :
  ints U l =
    if existsb too_long l then Raises "ValueError" else Returns (map (to_int U) l).
Proof.
  induction l as [|s l IH]; [reflexivity|].
  cbn [ints existsb map]. unfold int. fold (too_long s).
  destruct (too_long s); [reflexivity|]. rewrite IH. cbn [orb].
  by destruct (existsb too_long l).
Qed.





End Text.

End UniFacts.

Lemma normalize_text_spec (s : string) : normalize_text s = spec_normalize s.
Proof.
  unfold normalize_text, normalize_chars, spec_normalize.
  by rewrite ReFacts.sub_ws_run, SpecFacts.strip_spec, SpecFacts.collapse_spec,
    SpecFacts.lower_spec.
Qed.

Lemma spec_normalize_example :
  spec_normalize "  Machine 	  LEARNING
 " = "machine learning".
Proof. vm_compute. reflexivity. Qed.

Lemma uni_set_order_elem (rt : Uni.runtime) (s : gset (list Uni.char)) (x : list Uni.char) :
  x ∈ Uni.set_order rt s <-> x ∈ s.
Proof. by rewrite (Uni.set_order_perm rt s), elem_of_elements. Qed.

Lemma uni_set_order_NoDup (rt : Uni.runtime) (s : gset (list Uni.char)) :
  NoDup (Uni.set_order rt s).
Proof. rewrite (Uni.set_order_perm rt s). apply NoDup_elements. Qed.

(** C10. For every list of texts, of any characters, the matcher built
    from it stores the set of the normalized texts, each once, and the
    minimum experience.  The normalized text is the one the specification
    describes: lower case, every run of spaces collapsed to one space, no
    space at either end.  [calculate_score] compares the skills of the
    candidate with the stored set: the missing skills are its members that
    the candidate does not have, each once, and the skill score is the share
    of its members that the candidate has. *)
Theorem new_matcher_normalizes (U : Uni.tables) (required_skills : list (list Uni.char))
    (min_years : N) :
  let self := Uni.new_matcher U required_skills min_years in
  (forall s, Uni.normalize_text U s = Uni.spec_normalize U s) /\
  Uni.req_skills self = list_to_set (map (Uni.spec_normalize U) required_skills) /\
  (forall x, x ∈ Uni.req_skills self <->
             exists s, s ∈ required_skills /\ x = Uni.spec_normalize U s) /\
  Uni.min_exp self = min_years /\
  forall (rt : Uni.runtime) (c : Uni.candidate),
    (forall x, x ∈ snd (fst (Uni.calculate_score rt self c)) <->
               x ∈ Uni.req_skills self /\ x ∉ Uni.skills c) /\
    NoDup (snd (fst (Uni.calculate_score rt self c))) /\
    Uni.skill_score rt self c =
      (if decide (Uni.req_skills self = ∅) then PyInt 100
       else PyFloat (percent
              (Z.of_nat (size (list_to_set (Uni.skills c) ∩ Uni.req_skills self)))
              (Z.of_nat (size (Uni.req_skills self))))).
Proof.
  intros self.
  assert (Hreq : Uni.req_skills self =
                 list_to_set (map (Uni.spec_normalize U) required_skills)).
  { subst self. unfold Uni.new_matcher. cbn [Uni.req_skills]. f_equal.
    apply map_ext. intros s. apply UniFacts.uni_normalize_text_spec. }
  split; [apply UniFacts.uni_normalize_text_spec|]. split; [exact Hreq|].
  split.
  { intros x. rewrite Hreq, elem_of_list_to_set.
    change (map (Uni.spec_normalize U) required_skills)
      with (Uni.spec_normalize U <$> required_skills).
    rewrite list_elem_of_fmap. split; intros (s & H1 & H2); exists s; by split. }
  split; [reflexivity|].
  intros rt c. cbn [Uni.calculate_score fst snd]. unfold Uni.skill_score, Uni.skill_part.
  destruct (decide (Uni.req_skills self = ∅)) as [E|E]; cbn [fst snd].
  - split; [|split; [constructor|reflexivity]].
    intros x. rewrite E. split; [by intros ?%elem_of_nil|].
    by intros [?%not_elem_of_empty _].
  - split; [|split; [apply uni_set_order_NoDup|reflexivity]].
    intros x. rewrite uni_set_order_elem, elem_of_difference, elem_of_list_to_set.
    reflexivity.
Qed.

Lemma new_matcher_normalizes_witness :
  map (Uni.spec_normalize Uni.sample_tables)
      [ (Uni.of_string "  Machine" ++ [160; 160] ++ Uni.of_string "LEARNING ")%list%N;
        Uni.of_string "machine learning";
        (201 :: Uni.of_string "COLE")%N ] =
    [ Uni.of_string "machine learning"; Uni.of_string "machine learning";
      (233 :: Uni.of_string "cole")%N ] /\
  Uni.req_skills
    (Uni.new_matcher Uni.sample_tables
       [ (Uni.of_string "  Machine" ++ [160; 160] ++ Uni.of_string "LEARNING ")%list%N;
         Uni.of_string "machine learning";
         (201 :: Uni.of_string "COLE")%N ] 3) =
    {[ Uni.of_string "machine learning"; (233 :: Uni.of_string "cole")%N ]}.
Proof.
  assert (E : map (Uni.spec_normalize Uni.sample_tables)
      [ (Uni.of_string "  Machine" ++ [160; 160] ++ Uni.of_string "LEARNING ")%list%N;
        Uni.of_string "machine learning";
        (201 :: Uni.of_string "COLE")%N ] =
    [ Uni.of_string "machine learning"; Uni.of_string "machine learning";
      (233 :: Uni.of_string "cole")%N ]) by (vm_compute; reflexivity).
  split; [exact E|].
  rewrite (proj1 (proj2 (new_matcher_normalizes Uni.sample_tables _ 3))), E.
  apply set_eq. intros x. rewrite elem_of_list_to_set.
  rewrite !elem_of_cons, elem_of_nil, elem_of_union, !elem_of_singleton. tauto.
Defined.

(** ** Years of experience *)

Lemma chars_text_of (l : list ascii) : chars (text_of l) = l.
Proof. apply list_ascii_of_string_of_list_ascii. Qed.

Lemma max_list_cons (x : N) (l : list N) : max_list (x :: l) = N.max x (max_list l).
Proof. reflexivity. Qed.


Lemma max_list_member (l : list N) : l <> [] -> max_list l ∈ l.
Proof.
  induction l as [|x l IH]; [done|]. intros _. rewrite max_list_cons.
  destruct l as [|y l]; [cbn [max_list fold_right]; rewrite N.max_0_r; by left|].
  destruct (N.max_spec x (max_list (y :: l))) as [[_ ->]|[_ ->]]; [|by left].
  right. by apply IH.
Qed.




Lemma fold_min_member (x : N) (l : list N) : fold_right N.min x l ∈ x :: l.
Proof.
  induction l as [|z l IH]; cbn [fold_right]; [by left|].
  destruct (N.min_spec z (fold_right N.min x l)) as [[_ ->]|[_ ->]].
  - right. by left.
  - apply elem_of_cons in IH as [->|IH]; [by left|]. right. by right.
Qed.

Lemma min_list_member (l : list N) : l <> [] -> min_list l ∈ l.
Proof. destruct l as [|x l]; [done|]. intros _. apply fold_min_member. Qed.

Lemma year_phrases_spec (text : string) :
  Re.findall1 years_re (chars (normalize_text text)) = spec_year_phrases text.
Proof.
  unfold spec_year_phrases.
  by rewrite ReFacts.findall1_years, SpecFacts.scan_year_phrases, normalize_text_spec.
Qed.




(** With the entries of [sample_tables]: a no-break space separates the
    number from "years"; Arabic-Indic digits write the number; a text in
    capitals with an accent and no-break spaces is normalized. *)
Lemma sample_texts :
  Uni.extract_experience Uni.sample_tables
    (Uni.of_string "7" ++ [160] ++ Uni.of_string "years 2018 2023")%list%N = Returns 7%N /\
  Uni.extract_experience Uni.sample_tables
    ([1637; 1632] ++ Uni.of_string "+ Years")%list%N = Returns 50%N /\
  Uni.extract_experience Uni.sample_tables
    (Uni.of_string "20" ++ [1634; 1635] ++ Uni.of_string " to 2018")%list%N = Returns 5%N /\
  Uni.normalize_text Uni.sample_tables
    ([160] ++ Uni.of_string "Machine" ++ [160; 133] ++ Uni.of_string "Learning")%list%N
    = Uni.of_string "machine learning" /\
  Uni.normalize_text Uni.sample_tables (201 :: Uni.of_string "COLE")%N
    = (233 :: Uni.of_string "cole")%N.
Proof. repeat split; vm_compute; reflexivity. Qed.

(** ** The model of the floats against IEEE 754 *)

Lemma calculate_score_formula (rt : runtime) (m : job_matcher) (c : candidate) :
  fst (fst (calculate_score rt m c)) =
  score_formula (Z.of_nat (size (overlap m c))) (Z.of_nat (size (req_skills m)))
                (Z.of_N (years_experience c)) (Z.of_N (min_exp m)).
Proof.
  cbn [calculate_score fst]. unfold final_score, score_formula, mul_float.
  destruct (skill_score_cases rt m c) as [[E ->]|[Hpos ->]];
  destruct (exp_score_cases m c) as [[Hy ->]|[Hy ->]]; cbn [to_float].
  - rewrite E, size_empty. cbn [Z.of_nat Z.eqb].
    by rewrite (proj2 (Z.leb_le _ _)) by lia.
  - rewrite E, size_empty. cbn [Z.of_nat Z.eqb].
    by rewrite (proj2 (Z.leb_gt _ _)) by lia.
  - rewrite (proj2 (Z.eqb_neq _ _)) by lia.
    by rewrite (proj2 (Z.leb_le _ _)) by lia.
  - rewrite (proj2 (Z.eqb_neq _ _)) by lia.
    by rewrite (proj2 (Z.leb_gt _ _)) by lia.
Qed.

(** With at most 8 required skills and a minimum of at most 6 years, the
    final score computed with the IEEE 754 operations of the Standard
    Library is the one of the model, for every number of matched skills and
    every number of years up to the minimum. *)
Lemma ieee_agreement : IEEE.grid 8 6 = true.
Proof. vm_compute. reflexivity. Qed.

(** ** Every match is a word of the pattern *)

Module LangFacts.
Import Re Lang.

Lemma at_boundary_groups b a g g' :
  at_boundary (Pos b a g) = at_boundary (Pos b a g').
Proof. reflexivity. Qed.

Lemma run_sound (r : regex) :
  forall (A : Type) (k : pos -> option A) (p : pos) (x : A),
  run r p k = Some x ->
  exists w a' g',
    ahead p = (w ++ a')%list /\ matches r (before p) w a' /\
    k (Pos (rev w ++ before p) a' g') = Some x.
Proof.
  induction r as [|c|f|r1 IH1 r2 IH2|r1 IH1 r2 IH2|r1 IH1|r1 IH1|];
    intros A k [b a g] x H; cbn [ahead before] in *.
  - exists [], a, g. split; [reflexivity|split; [constructor|exact H]].
  - destruct a as [|d a]; cbn [run step ahead before groups] in H; [discriminate H|].
    case_bool_decide; [subst d|discriminate H].
    exists [c], a, g. split; [reflexivity|split; [constructor|exact H]].
  - destruct a as [|d a]; cbn [run step ahead before groups] in H; [discriminate H|].
    destruct (f d) eqn:Hf; [|discriminate H].
    exists [d], a, g. split; [reflexivity|split; [by constructor|exact H]].
  - cbn [run] in H. apply IH1 in H as (w1 & a1 & g1 & Ha & M1 & H).
    apply IH2 in H as (w2 & a2 & g2 & Ha2 & M2 & H). cbn [ahead before] in *.
    subst a a1. exists (w1 ++ w2)%list, a2, g2.
    split; [by rewrite app_assoc|]. split; [by constructor|].
    by rewrite rev_app_distr, <- app_assoc.
  - cbn [run] in H. destruct (run r1 _ k) as [y|] eqn:E.
    + injection H as ->. apply IH1 in E as (w & a' & g' & Ha & M & E).
      exists w, a', g'. split; [exact Ha|split; [by apply matches_alt_l|exact E]].
    + apply IH2 in H as (w & a' & g' & Ha & M & E').
      exists w, a', g'. split; [exact Ha|split; [by apply matches_alt_r|exact E']].
  - cbn [run ahead] in H. revert H. generalize (length a) as fuel. intros fuel.
    revert b a g. induction fuel as [|fuel IHf]; intros b a g H; cbn [star_loop] in H.
    + exists [], a, g. split; [reflexivity|split; [constructor|exact H]].
    + destruct (run r1 _ _) as [y|] eqn:E.
      * injection H as ->. apply IH1 in E as (w1 & a1 & g1 & Ha & M1 & E).
        cbn [ahead before] in *.
        destruct (_ <? _)%nat; [|discriminate E].
        apply IHf in E as (w2 & a2 & g2 & Ha2 & M2 & E). cbn [ahead before] in *.
        subst a a1. exists (w1 ++ w2)%list, a2, g2.
        split; [by rewrite app_assoc|]. split; [by econstructor|].
        by rewrite rev_app_distr, <- app_assoc.
      * exists [], a, g. split; [reflexivity|split; [constructor|exact H]].
  - cbn [run] in H. apply IH1 in H as (w & a' & g' & Ha & M & H).
    cbn [ahead before] in *. unfold close_group in H. cbn [ahead before groups] in H.
    eexists w, a', _. split; [exact Ha|split; [by constructor|exact H]].
  - cbn [run] in H. destruct (at_boundary _) eqn:E; [|discriminate H].
    exists [], a, g. split; [reflexivity|split; [by constructor|exact H]].
Qed.

Lemma match_at_sound (r : regex) (b a : list ascii) g (q : pos) :
  match_at r (Pos b a g) = Some q ->
  exists w,
    a = (w ++ ahead q)%list /\ before q = (rev w ++ b)%list /\
    matches r b w (ahead q).
Proof.
  unfold match_at. cbn [before ahead]. intros H.
  apply run_sound in H as (w & a' & g' & Ha & M & H). cbn [ahead before] in *.
  injection H as <-. exists w. split; [exact Ha|split; [reflexivity|exact M]].
Qed.

Lemma search_from_sound (r : regex) (fuel : nat) :
  forall b a g A B,
  search_from fuel r (Pos b a g) = Some (A, B) ->
  exists pre w,
    a = (pre ++ w ++ ahead B)%list /\ before A = (rev pre ++ b)%list /\
    before B = (rev w ++ before A)%list /\ matches r (before A) w (ahead B).
Proof.
  induction fuel as [|fuel IH]; intros b a g A B H; cbn [search_from] in H.
  - destruct (match_at r _) as [q|] eqn:E; [|discriminate H].
    injection H as <- <-. apply match_at_sound in E as (w & Ha & Hb & M).
    exists [], w. split; [exact Ha|split; [reflexivity|split; [exact Hb|exact M]]].
  - destruct (match_at r _) as [q|] eqn:E.
    + injection H as <- <-. apply match_at_sound in E as (w & Ha & Hb & M).
      exists [], w. split; [exact Ha|split; [reflexivity|split; [exact Hb|exact M]]].
    + cbn [advance ahead before] in H. destruct a as [|c a]; [discriminate H|].
      apply IH in H as (pre & w & Ha & HA & HB & M).
      exists (c :: pre), w. split; [by rewrite Ha|]. split; [|split; [exact HB|exact M]].
      rewrite HA. cbn [rev]. by rewrite <- app_assoc.
Qed.

Lemma search_sound (r : regex) (s m : list ascii) :
  search r s = Some m ->
  exists pre post, s = (pre ++ m ++ post)%list /\ matches r (rev pre) m post.
Proof.
  unfold search, start_of. destruct (search_from _ _ _) as [[A B]|] eqn:E; [|discriminate].
  intros [= <-]. apply search_from_sound in E as (pre & w & Ha & HA & HB & M).
  exists pre, (ahead B). rewrite app_nil_r in HA.
  assert (Hm : matched A B = w).
  { unfold matched. rewrite HB, length_app, length_rev.
    replace (length w + length (before A) - length (before A))%nat
      with (length (rev w)) by (rewrite length_rev; lia).
    rewrite take_app_length. apply rev_involutive. }
  rewrite Hm. split; [exact Ha|]. by rewrite <- HA.
Qed.

End LangFacts.

Module WordFacts.
Import Re Lang LangFacts.

(** *** Reading a word back from its pattern *)

Lemma matches_cat_inv r1 r2 b w a :
  matches (Cat r1 r2) b w a ->
  exists w1 w2, w = (w1 ++ w2)%list /\ matches r1 b w1 (w2 ++ a) /\
                matches r2 (rev w1 ++ b) w2 a.
Proof. inversion 1; subst. by eexists _, _. Qed.

Lemma matches_chr_inv c b w a : matches (Chr c) b w a -> w = [c].
Proof. by inversion 1. Qed.

Lemma matches_cls_inv f b w a :
  matches (Cls f) b w a -> exists c, w = [c] /\ f c = true.
Proof. inversion 1; subst. by eexists. Qed.

Lemma matches_opt_inv r b w a :
  matches (Opt r) b w a -> w = [] \/ matches r b w a.
Proof.
  unfold Opt. inversion 1; subst; [by right|].
  match goal with H : matches Eps _ _ _ |- _ => inversion H end. by left.
Qed.

Lemma matches_grp_inv r b w a : matches (Grp r) b w a -> matches r b w a.
Proof. by inversion 1. Qed.

Lemma matches_star_cls f b w a :
  matches (Star (Cls f)) b w a -> Forall (fun c => f c = true) w.
Proof.
  remember (Star (Cls f)) as r eqn:E. intros H. revert E.
  induction H; try discriminate; intros [= ->]; [constructor|].
  apply Forall_app. split; [|by apply IHmatches2].
  apply matches_cls_inv in H as (c & -> & Hc). by repeat constructor.
Qed.

Lemma matches_plus_cls f b w a :
  matches (Plus (Cls f)) b w a -> w <> [] /\ Forall (fun c => f c = true) w.
Proof.
  unfold Plus. intros (w1 & w2 & -> & H1 & H2)%matches_cat_inv.
  apply matches_cls_inv in H1 as (c & -> & Hc). apply matches_star_cls in H2.
  split; [done|]. by constructor.
Qed.

Lemma matches_rep_cls n f : forall b w a,
  matches (Rep n (Cls f)) b w a -> length w = n /\ Forall (fun c => f c = true) w.
Proof.
  induction n as [|n IH]; intros b w a H; cbn [Rep] in H.
  - inversion H; subst. by split.
  - apply matches_cat_inv in H as (w1 & w2 & -> & H1 & H2).
    apply matches_cls_inv in H1 as (c & -> & Hc). apply IH in H2 as [<- H2].
    split; [reflexivity|by constructor].
Qed.

Lemma matches_upto_cls n f : forall b w a,
  matches (UpTo n (Cls f)) b w a -> (length w <= n)%nat /\ Forall (fun c => f c = true) w.
Proof.
  induction n as [|n IH]; intros b w a H; cbn [UpTo] in H.
  - inversion H; subst. by split.
  - apply matches_opt_inv in H as [->|H]; [split; [cbn; lia|constructor]|].
    apply matches_cat_inv in H as (w1 & w2 & -> & H1 & H2).
    apply matches_cls_inv in H1 as (c & -> & Hc). apply IH in H2 as [Hl H2].
    split; [cbn; lia|by constructor].
Qed.

Lemma matches_lit s : forall b w a, matches (Lit s) b w a -> w = s.
Proof.
  induction s as [|c s IH]; intros b w a H; cbn [Lit] in H.
  - by inversion H.
  - apply matches_cat_inv in H as (w1 & w2 & -> & H1 & H2).
    apply matches_chr_inv in H1 as ->. apply IH in H2 as ->. reflexivity.
Qed.

Lemma matches_wordb_inv b w a :
  matches WordB b w a -> w = [] /\ at_boundary (Pos b a []) = true.
Proof. by inversion 1. Qed.
End WordFacts.

Module FieldFacts.
Import Re Lang LangFacts WordFacts.

(** ** What the field extractors return *)

Lemma text_of_chars (s : string) : text_of (chars s) = s.
Proof. apply string_of_list_ascii_of_string. Qed.

Lemma local_char_facts (c : ascii) :
  (Chars.is_alpha c || Chars.is_digit c) || one_of "._%+-" c = true ->
  c <> "@"%char /\ Chars.is_space c = false.
Proof.
  destruct c as [[] [] [] [] [] [] [] []]; vm_compute; intros H;
    try discriminate H; (split; [discriminate|reflexivity]).
Qed.

Lemma domain_char_facts (c : ascii) :
  (Chars.is_alpha c || Chars.is_digit c) || one_of ".-" c = true ->
  c <> "@"%char /\ Chars.is_space c = false.
Proof.
  destruct c as [[] [] [] [] [] [] [] []]; vm_compute; intros H;
    try discriminate H; (split; [discriminate|reflexivity]).
Qed.

Lemma alpha_not_space (c : ascii) : Chars.is_alpha c = true -> Chars.is_space c = false.
Proof.
  destruct c as [[] [] [] [] [] [] [] []]; vm_compute; intros H;
    try discriminate H; reflexivity.
Qed.

Lemma email_word b w a : matches email_re b w a -> address_shape w.
Proof.
  unfold email_re. cbv zeta. unfold RepMin.
  intros (loc & w1 & -> & Hloc & H)%matches_cat_inv.
  apply matches_cat_inv in H as (at_ & w2 & -> & Hat & H).
  apply matches_cat_inv in H as (domain & w3 & -> & Hdom & H).
  apply matches_cat_inv in H as (dot & w4 & -> & Hdot & H).
  apply matches_cat_inv in H as (t1 & t2 & -> & Ht1 & Ht2).
  apply matches_chr_inv in Hat as ->. apply matches_chr_inv in Hdot as ->.
  apply matches_plus_cls in Hloc as [Hl1 Hl2].
  apply matches_plus_cls in Hdom as [Hd1 Hd2].
  apply matches_rep_cls in Ht1 as [Ht1 Ht1'].
  apply matches_star_cls in Ht2.
  assert (Htld : Forall (fun c => Chars.is_alpha c = true) (t1 ++ t2)).
  { apply Forall_app. by split. }
  exists loc, domain, (t1 ++ t2)%list. split; [reflexivity|].
  split; [exact Hl1|]. split; [exact Hd1|].
  split; [rewrite length_app; lia|]. split; [exact Htld|].
  split.
  { intros Hin. rewrite Forall_forall in Hl2. apply Hl2 in Hin.
    by apply local_char_facts in Hin as [? _]. }
  split.
  { intros Hin. rewrite Forall_forall in Hd2. apply Hd2 in Hin.
    by apply domain_char_facts in Hin as [? _]. }
  apply Forall_app. split.
  { eapply Forall_impl; [exact Hl2|]. intros c Hc. by apply local_char_facts in Hc as [_ ?]. }
  constructor; [reflexivity|]. apply Forall_app. split.
  { eapply Forall_impl; [exact Hd2|]. intros c Hc. by apply domain_char_facts in Hc as [_ ?]. }
  constructor; [reflexivity|].
  eapply Forall_impl; [exact Htld|]. intros c Hc. by apply alpha_not_space.
Qed.

Lemma extract_email_cases (text : string) :
  extract_email text = "Not Found" \/
  exists w, extract_email text = text_of w /\ occurs w (chars text) /\ address_shape w.
Proof.
  unfold extract_email. destruct (search email_re (chars text)) as [m|] eqn:E; [right|by left].
  apply search_sound in E as (pre & post & Hs & M).
  exists m. split; [reflexivity|]. split; [by exists pre, post|].
  by apply email_word in M.
Qed.

(** *** Telephone numbers *)

Lemma count_digits_app (u v : list ascii) :
  count_digits (u ++ v) = (count_digits u + count_digits v)%nat.
Proof. unfold count_digits. by rewrite filter_app, length_app. Qed.

Lemma count_digits_all (w : list ascii) :
  Forall (fun c => Chars.is_digit c = true) w -> count_digits w = length w.
Proof.
  unfold count_digits. induction 1 as [|c w Hc _ IH]; [reflexivity|].
  rewrite filter_cons_True by exact Hc. cbn. by rewrite IH.
Qed.

Lemma count_digits_le (w : list ascii) : (count_digits w <= length w)%nat.
Proof. unfold count_digits. apply length_filter. Qed.

Lemma count_digits_occurs (w s : list ascii) :
  occurs w s -> (count_digits w <= count_digits s)%nat.
Proof. intros (pre & post & ->). rewrite !count_digits_app. lia. Qed.

Lemma sep_char_facts (c : ascii) :
  one_of "-." c || Chars.is_space c = true -> Chars.is_digit c = false.
Proof.
  destruct c as [[] [] [] [] [] [] [] []]; vm_compute; intros H;
    try discriminate H; reflexivity.
Qed.

Lemma count_digits_sep b w a :
  matches (Opt (Cls (fun c => one_of "-." c || Chars.is_space c))) b w a ->
  count_digits w = 0%nat.
Proof.
  intros [->|H]%matches_opt_inv; [reflexivity|].
  apply matches_cls_inv in H as (c & -> & Hc). apply sep_char_facts in Hc.
  unfold count_digits. rewrite filter_cons_False by congruence. reflexivity.
Qed.

Lemma count_digits_opt_chr c b w a :
  Chars.is_digit c = false -> matches (Opt (Chr c)) b w a -> count_digits w = 0%nat.
Proof.
  intros Hc [->|H]%matches_opt_inv; [reflexivity|].
  apply matches_chr_inv in H as ->.
  unfold count_digits. rewrite filter_cons_False by congruence. reflexivity.
Qed.

Lemma count_digits_rep n b w a :
  matches (Rep n (Cls Chars.is_digit)) b w a -> count_digits w = n.
Proof. intros [<- H]%matches_rep_cls. by apply count_digits_all. Qed.

Lemma count_digits_upto n b w a :
  matches (UpTo n (Cls Chars.is_digit)) b w a -> (count_digits w <= n)%nat.
Proof. intros [Hl _]%matches_upto_cls. pose proof (count_digits_le w). lia. Qed.

Lemma phone_word b w a :
  matches phone_re b w a -> (10 <= count_digits w <= 13)%nat.
Proof.
  unfold phone_re. cbv zeta. unfold RepRange.
  intros (w0 & w1 & -> & H0 & H)%matches_cat_inv.
  apply matches_cat_inv in H as (w2 & w3 & -> & H2 & H).
  apply matches_cat_inv in H as (w4 & w5 & -> & H4 & H).
  apply matches_cat_inv in H as (w6 & w7 & -> & H6 & H).
  apply matches_cat_inv in H as (w8 & w9 & -> & H8 & H).
  apply matches_cat_inv in H as (w10 & w11 & -> & H10 & H).
  apply matches_cat_inv in H as (w12 & w13 & -> & H12 & H13).
  rewrite !count_digits_app.
  apply (count_digits_opt_chr "(") in H2; [|reflexivity].
  apply count_digits_rep in H4. apply (count_digits_opt_chr ")") in H6; [|reflexivity].
  apply count_digits_sep in H8. apply count_digits_rep in H10.
  apply count_digits_sep in H12. apply count_digits_rep in H13.
  assert (count_digits w0 <= 3)%nat; [|lia].
  apply matches_opt_inv in H0 as [->|H0]; [cbn; lia|].
  apply matches_grp_inv in H0.
  apply matches_cat_inv in H0 as (u0 & u1 & -> & U0 & U).
  apply matches_cat_inv in U as (u2 & u3 & -> & U2 & U3).
  apply matches_cat_inv in U2 as (u4 & u5 & -> & U4 & U5).
  rewrite !count_digits_app.
  apply (count_digits_opt_chr "+") in U0; [|reflexivity].
  apply count_digits_rep in U4. apply count_digits_upto in U5.
  apply count_digits_sep in U3. lia.
Qed.

Lemma extract_phone_cases (text : string) :
  extract_phone text = "Not Found" \/
  exists w, extract_phone text = text_of w /\ occurs w (chars text) /\
            (10 <= count_digits w <= 13)%nat.
Proof.
  unfold extract_phone. destruct (search phone_re (chars text)) as [m|] eqn:E; [right|by left].
  apply search_sound in E as (pre & post & Hs & M).
  exists m. split; [reflexivity|]. split; [by exists pre, post|].
  by apply phone_word in M.
Qed.

(** X1. [extract_email] returns either "Not Found" or a piece of the text
    that has the shape of an address: a local part, one "@", a domain, a
    dot and at least two letters, without any space.  A text without "@"
    gives "Not Found". *)
Theorem extract_email_found (text : string) :
  (extract_email text = "Not Found" \/
   exists w, extract_email text = text_of w /\ occurs w (chars text) /\ address_shape w) /\
  ("@"%char ∉ chars text -> extract_email text = "Not Found").
Proof.
  split; [apply extract_email_cases|]. intros Hno.
  destruct (extract_email_cases text) as [E|(w & _ & (pre & post & Hs) & Hw)]; [exact E|].
  destruct Hw as (loc & domain & tld & -> & _). exfalso. apply Hno.
  rewrite Hs. rewrite !elem_of_app. right. left. right. by left.
Qed.

Lemma extract_email_found_witness :
  ("@"%char ∉ chars "Jane Doe, 555-123-4567") /\
  extract_email "Jane Doe, 555-123-4567" = "Not Found".
Proof.
  assert (H : "@"%char ∉ chars "Jane Doe, 555-123-4567").
  { apply (bool_decide_unpack _). vm_compute. exact I. }
  split; [exact H|]. exact (proj2 (extract_email_found _) H).
Defined.

(** X2. On a text of ASCII characters, [extract_phone] returns either
    "Not Found" or a piece of the text with 10 to 13 digits.  Such a text
    with fewer than 10 digits gives "Not Found". *)
Theorem extract_phone_found (text : string) :
  ascii_text text ->
  (extract_phone text = "Not Found" \/
   exists w, extract_phone text = text_of w /\ occurs w (chars text) /\
             (10 <= count_digits w <= 13)%nat) /\
  ((count_digits (chars text) < 10)%nat -> extract_phone text = "Not Found").
Proof.
  intros _. split; [apply extract_phone_cases|]. intros Hfew.
  destruct (extract_phone_cases text) as [E|(w & _ & Hocc & Hw)]; [exact E|].
  apply count_digits_occurs in Hocc. lia.
Qed.

Lemma extract_phone_found_witness :
  ascii_text "Room 101, since 2019" /\
  (count_digits (chars "Room 101, since 2019") < 10)%nat /\
  extract_phone "Room 101, since 2019" = "Not Found".
Proof.
  assert (Ha : ascii_text "Room 101, since 2019") by reflexivity.
  assert (H : (count_digits (chars "Room 101, since 2019") < 10)%nat).
  { vm_compute. lia. }
  split; [exact Ha|]. split; [exact H|]. exact (proj2 (extract_phone_found _ Ha) H).
Defined.
End FieldFacts.

Module SkillFacts.
Import Re Lang LangFacts WordFacts FieldFacts F64 F64Facts.

(** *** Skills *)

Lemma SKILL_DB_ends :
  forallb (fun x => starts_word x &&
                    (if bool_decide (x = "c++") then negb (ends_word x) else ends_word x))
          SKILL_DB = true.
Proof. vm_compute. reflexivity. Qed.

Lemma skill_word (x : string) b w a :
  matches (skill_re x) b w a ->
  w = chars x /\ at_boundary (Pos b (chars x ++ a) []) = true /\
  at_boundary (Pos (rev (chars x) ++ b) a []) = true.
Proof.
  unfold skill_re.
  intros (w1 & w2 & -> & H1 & H)%matches_cat_inv.
  apply matches_cat_inv in H as (w3 & w4 & -> & H3 & H4).
  apply matches_wordb_inv in H1 as [-> H1]. apply matches_wordb_inv in H4 as [-> H4].
  apply matches_lit in H3 as ->. cbn [app rev] in *.
  rewrite app_nil_r in *. by repeat split.
Qed.

Lemma found_skill_occurs (text x : string) :
  x ∈ found_skills text ->
  x ∈ SKILL_DB /\
  exists pre post,
    chars (normalize_text text) = (pre ++ chars x ++ post)%list /\
    at_boundary (Pos (rev pre) (chars x ++ post) []) = true /\
    at_boundary (Pos (rev (chars x) ++ rev pre) post []) = true.
Proof.
  unfold found_skills. rewrite list_elem_of_filter. intros [H Hdb]. split; [exact Hdb|].
  unfold search_bool in H.
  destruct (search _ _) as [m|] eqn:E; [|discriminate H].
  apply search_sound in E as (pre & post & Hs & M).
  apply skill_word in M as (-> & B1 & B2). by exists pre, post.
Qed.

(** X3. On a text of ASCII characters, a skill that [extract_skills]
    reports occurs in the normalized text; no word character stands just
    before the occurrence, and none just after it, except for "c++", which
    is only reported where a word character follows. *)
Theorem reported_skill_occurs (rt : runtime) (text x : string) :
  ascii_text text ->
  x ∈ extract_skills rt text ->
  exists pre post,
    chars (normalize_text text) = (pre ++ chars x ++ post)%list /\
    (forall pre' c, pre = (pre' ++ [c])%list -> Chars.is_word c = false) /\
    (forall c post', post = c :: post' -> Chars.is_word c = bool_decide (x = "c++")) /\
    (x = "c++" -> post <> []).
Proof.
  intros _ Hx. apply set_order_elem, elem_of_list_to_set in Hx.
  apply found_skill_occurs in Hx as (Hdb & pre & post & Ht & B1 & B2).
  exists pre, post. split; [exact Ht|].
  pose proof (proj1 (forallb_forall _ _) SKILL_DB_ends x) as Hshape.
  rewrite <- list_elem_of_In in Hshape. specialize (Hshape Hdb).
  apply andb_true_iff in Hshape as [Hs He].
  unfold starts_word in Hs. unfold ends_word in He.
  unfold at_boundary in B1, B2. cbn [before ahead] in B1, B2.
  destruct (chars x) as [|c0 cs] eqn:Ecs; [discriminate Hs|].
  cbn [app] in B1. rewrite Hs in B1.
  destruct (rev (c0 :: cs)) as [|c1 r] eqn:Er.
  { apply (f_equal (@length ascii)) in Er. rewrite length_rev in Er. discriminate Er. }
  cbn [app] in B2.
  split; [|split].
  - intros pre' c ->. rewrite rev_app_distr in B1. cbn in B1.
    by destruct (Chars.is_word c).
  - intros c post' ->. case_bool_decide.
    + apply negb_true_iff in He. rewrite He in B2. by destruct (Chars.is_word c).
    + rewrite He in B2. by destruct (Chars.is_word c).
  - intros Hcpp ->. rewrite bool_decide_true in He by exact Hcpp.
    apply negb_true_iff in He. rewrite He in B2. discriminate B2.
Qed.

Lemma reported_skill_occurs_witness :
  ascii_text "Java and JavaScript" /\
  "java" ∈ extract_skills sorted_runtime "Java and JavaScript" /\
  exists pre post,
    chars (normalize_text "Java and JavaScript") = (pre ++ chars "java" ++ post)%list.
Proof.
  assert (H : "java" ∈ extract_skills sorted_runtime "Java and JavaScript").
  { apply set_order_elem, elem_of_list_to_set.
    replace (found_skills "Java and JavaScript") with ["java"; "javascript"]
      by (vm_compute; reflexivity).
    by left. }
  assert (Ha : ascii_text "Java and JavaScript") by reflexivity.
  split; [exact Ha|]. split; [exact H|].
  destruct (reported_skill_occurs sorted_runtime _ _ Ha H) as (pre & post & Ht & _).
  by exists pre, post.
Defined.

(** *** The score of particular candidates *)

Local Open Scope Q_scope.

Lemma percent_full (n : Z) : (0 < n)%Z -> percent n n = 100.
Proof.
  intros Hn. unfold percent, int_div.
  assert (Hq : inject_Z n / inject_Z n == 1).
  { apply Qmult_inv_r. intros H. apply (inject_Z_injective n 0) in H. lia. }
  rewrite (RN_comp _ 1); [vm_compute; reflexivity| |exact Hq].
  rewrite Hq. discriminate.
Qed.

Lemma recommend_strong (s : Q) : 85 <= s -> recommend s = StrongHire.
Proof. intros H. unfold recommend. apply Qle_bool_iff in H. by rewrite H. Qed.

Lemma recommend_not_reject (s : Q) : 60 <= s -> recommend s <> Reject.
Proof.
  intros H. unfold recommend. destruct (Qle_bool 85 s); [done|].
  apply Qle_bool_iff in H. by rewrite H.
Qed.

Lemma recommend_reject (s : Q) : s < 60 -> recommend s = Reject.
Proof.
  intros H. unfold recommend.
  destruct (Qle_bool 85 s) eqn:E1; [apply Qle_bool_iff in E1; lra|].
  destruct (Qle_bool 60 s) eqn:E2; [apply Qle_bool_iff in E2; lra|]. reflexivity.
Qed.

Lemma recommend_mono (s1 s2 : Q) :
  s1 <= s2 -> (rank (recommend s1) <= rank (recommend s2))%nat.
Proof.
  intros H. unfold recommend.
  destruct (Qle_bool 85 s1) eqn:A1; destruct (Qle_bool 85 s2) eqn:A2;
  destruct (Qle_bool 60 s1) eqn:B1; destruct (Qle_bool 60 s2) eqn:B2;
    cbn [rank]; try lia;
    repeat match goal with
    | H : Qle_bool _ _ = true |- _ => apply Qle_bool_iff in H
    | H : Qle_bool ?a ?b = false |- _ =>
        assert (b < a) by (apply Qnot_le_lt; intros Hc; apply Qle_bool_iff in Hc; congruence);
        clear H
    end; lra.
Qed.
End SkillFacts.

Module ScoreFacts.
Import F64 F64Facts SkillFacts.

Lemma overlap_full (m : job_matcher) (c : candidate) :
  req_skills m ⊆ list_to_set (skills c) -> overlap m c = req_skills m.
Proof.
  intros Hsub. unfold overlap. rewrite (comm_L (∩)).
  by apply subseteq_intersection_1_L.
Qed.

Lemma missing_none (rt : runtime) (m : job_matcher) (c : candidate) :
  req_skills m ⊆ list_to_set (skills c) -> snd (skill_part rt m c) = [].
Proof.
  intros Hsub. unfold skill_part. destruct (decide (req_skills m = ∅)); [reflexivity|].
  cbn [snd]. rewrite (subseteq_empty_difference_L _ _ Hsub). apply set_order_empty.
Qed.

Lemma skill_score_full (rt : runtime) (m : job_matcher) (c : candidate) :
  req_skills m ⊆ list_to_set (skills c) ->
  skill_score rt m c = PyInt 100 \/ skill_score rt m c = PyFloat 100.
Proof.
  intros Hsub. destruct (skill_score_cases rt m c) as [[_ ->]|[Hpos ->]]; [by left|right].
  rewrite (overlap_full m c Hsub). f_equal. apply percent_full. lia.
Qed.

(** X4. A candidate who has every required skill and at least the minimum
    experience gets the final score 100.0, a skill percentage of 100, no
    missing skill and the recommendation Strong Hire. *)
Theorem full_match_full_score (rt : runtime) (m : job_matcher) (c : candidate) :
  req_skills m ⊆ list_to_set (skills c) ->
  (min_exp m <= years_experience c)%N ->
  fst (fst (calculate_score rt m c)) = 100%Q /\
  snd (fst (calculate_score rt m c)) = [] /\
  value (snd (calculate_score rt m c)) = 100%Q /\
  recommend (fst (fst (calculate_score rt m c))) = StrongHire.
Proof.
  intros Hsub Hexp. cbn [calculate_score fst snd].
  assert (He : exp_score m c = PyInt 100).
  { destruct (exp_score_cases m c) as [[_ ->]|[Hlt _]]; [reflexivity|lia]. }
  rewrite (missing_none rt m c Hsub). unfold final_score, mul_float. rewrite He.
  destruct (skill_score_full rt m c Hsub) as [-> | ->];
    (split; [vm_compute; reflexivity|]; split; [reflexivity|];
     split; vm_compute; reflexivity).
Qed.

Lemma full_match_full_score_witness :
  req_skills profile_A ⊆ list_to_set (skills senior_plus) /\
  fst (fst (calculate_score sorted_runtime profile_A senior_plus)) = 100%Q.
Proof.
  assert (Hs : req_skills profile_A ⊆ list_to_set (skills senior_plus)).
  { apply (bool_decide_unpack _). vm_compute. exact I. }
  split; [exact Hs|].
  apply (full_match_full_score sorted_runtime profile_A senior_plus Hs).
  vm_compute. discriminate.
Defined.

Local Open Scope Q_scope.

(** X5. With at least one required skill, a candidate who has none of them
    gets at most 30.0 and is rejected, whatever the experience. *)
Theorem no_skill_rejected (rt : runtime) (m : job_matcher) (c : candidate) :
  req_skills m <> ∅ -> overlap m c = ∅ ->
  fst (fst (calculate_score rt m c)) <= 30 /\
  recommend (fst (fst (calculate_score rt m c))) = Reject.
Proof.
  intros Hne Hov. cbn [calculate_score fst].
  assert (Hs : skill_score rt m c = PyFloat 0).
  { destruct (skill_score_cases rt m c) as [[E _]|[_ ->]]; [done|].
    rewrite Hov, size_empty. cbn [Z.of_nat]. by rewrite percent_zero. }
  destruct (exp_value_range m c) as [E0 E100].
  assert (W : 0 <= weight_exp) by (vm_compute; discriminate).
  assert (Hf : final_score rt m c <= 30).
  { unfold final_score, mul_float. rewrite Hs. cbn [to_float].
    apply Qle_trans with (add (mul 0 weight_skill) (mul 100 weight_exp)).
    - apply add_mono.
      + vm_compute. discriminate.
      + apply Qle_refl.
      + by apply mul_nonneg.
      + by apply mul_mono.
    - vm_compute. discriminate. }
  assert (Hr : round1 (final_score rt m c) <= 30).
  { apply Qle_trans with (round1 30); [|vm_compute; discriminate].
    apply round1_mono; [apply final_score_range|exact Hf]. }
  split; [exact Hr|]. apply recommend_reject. lra.
Qed.

Lemma no_skill_rejected_witness :
  req_skills profile_A <> ∅ /\ overlap profile_A no_candidate = ∅ /\
  recommend (fst (fst (calculate_score sorted_runtime profile_A no_candidate))) = Reject.
Proof.
  assert (H1 : req_skills profile_A <> ∅).
  { intros E. apply (f_equal size) in E. vm_compute in E. discriminate E. }
  assert (H2 : overlap profile_A no_candidate = ∅) by apply overlap_no_candidate.
  split; [exact H1|]. split; [exact H2|].
  apply (no_skill_rejected sorted_runtime profile_A no_candidate H1 H2).
Defined.

(** X6. A candidate who has every required skill gets at least 70.0 and
    is never rejected, whatever the experience. *)
Theorem all_skills_not_rejected (rt : runtime) (m : job_matcher) (c : candidate) :
  req_skills m ⊆ list_to_set (skills c) ->
  70 <= fst (fst (calculate_score rt m c)) /\
  recommend (fst (fst (calculate_score rt m c))) <> Reject.
Proof.
  intros Hsub. cbn [calculate_score fst].
  destruct (exp_value_range m c) as [E0 E100].
  assert (W : 0 <= weight_exp) by (vm_compute; discriminate).
  assert (Hs : to_float (skill_score rt m c) = 100).
  { destruct (skill_score_full rt m c Hsub) as [-> | ->]; vm_compute; reflexivity. }
  assert (Hf : 70 <= final_score rt m c).
  { unfold final_score, mul_float. rewrite Hs.
    apply Qle_trans with (add (mul 100 weight_skill) (mul 0 weight_exp)).
    - vm_compute. discriminate.
    - apply add_mono.
      + vm_compute. discriminate.
      + apply Qle_refl.
      + vm_compute. discriminate.
      + apply mul_mono; [apply Qle_refl|exact E0|exact W]. }
  assert (Hr : 70 <= round1 (final_score rt m c)).
  { apply Qle_trans with (round1 70); [vm_compute; discriminate|].
    apply round1_mono; [discriminate|exact Hf]. }
  split; [exact Hr|]. apply recommend_not_reject. lra.
Qed.

Lemma all_skills_not_rejected_witness :
  req_skills profile_A ⊆ list_to_set (skills senior_plus) /\
  recommend (fst (fst (calculate_score sorted_runtime profile_A senior_plus))) <> Reject.
Proof.
  assert (Hs : req_skills profile_A ⊆ list_to_set (skills senior_plus)).
  { apply (bool_decide_unpack _). vm_compute. exact I. }
  split; [exact Hs|].
  apply (all_skills_not_rejected sorted_runtime profile_A senior_plus Hs).
Defined.

(** X7. With the profile fixed, a candidate with at least as many years of
    experience and at least the same required skills never gets a worse
    recommendation. *)
Theorem recommendation_monotone (rt : runtime) (m : job_matcher) (c1 c2 : candidate) :
  (years_experience c1 <= years_experience c2)%N ->
  overlap m c1 ⊆ overlap m c2 ->
  (rank (recommend (fst (fst (calculate_score rt m c1))))
   <= rank (recommend (fst (fst (calculate_score rt m c2)))))%nat.
Proof.
  intros Hy Ho. apply recommend_mono. cbn [calculate_score fst].
  apply round1_mono; [apply final_score_range|by apply final_score_mono].
Qed.

Lemma recommendation_monotone_witness :
  (years_experience junior <= years_experience senior)%N /\
  overlap profile_A junior ⊆ overlap profile_A senior /\
  (rank (recommend (fst (fst (calculate_score sorted_runtime profile_A junior))))
   <= rank (recommend (fst (fst (calculate_score sorted_runtime profile_A senior)))))%nat.
Proof.
  assert (Hy : (years_experience junior <= years_experience senior)%N) by (cbn; lia).
  assert (Ho : overlap profile_A junior ⊆ overlap profile_A senior).
  { apply (bool_decide_unpack _). vm_compute. exact I. }
  split; [exact Hy|]. split; [exact Ho|].
  exact (recommendation_monotone sorted_runtime profile_A junior senior Hy Ho).
Defined.

(** X8. The skill percentage returned with the score lies between 0 and
    100; it is the integer 100 exactly when no skill is required. *)
Theorem skill_percent_range (rt : runtime) (m : job_matcher) (c : candidate) :
  0 <= value (snd (calculate_score rt m c)) <= 100 /\
  (req_skills m = ∅ <-> snd (calculate_score rt m c) = PyInt 100).
Proof.
  cbn [calculate_score snd].
  destruct (skill_score_cases rt m c) as [[E ->]|[Hpos ->]]; cbn [py_round1 value].
  - split; [split; discriminate|]. by split.
  - pose proof (overlap_size m c) as Hle.
    destruct (percent_range (Z.of_nat (size (overlap m c)))
                (Z.of_nat (size (req_skills m)))) as [P0 P100]; [lia|lia|].
    split.
    + split.
      * apply Qle_trans with (round1 0); [vm_compute; discriminate|].
        apply round1_mono; [apply Qle_refl|exact P0].
      * apply Qle_trans with (round1 100); [|vm_compute; discriminate].
        apply round1_mono; assumption.
    + split; [|discriminate]. intros E. rewrite E, size_empty in Hpos. lia.
Qed.

(** X9. The missing skills and the required skills the candidate has
    partition the required set: their numbers add up to the number of
    required skills, and nothing is missing exactly when the candidate has
    every required skill. *)
Theorem missing_complement (rt : runtime) (m : job_matcher) (c : candidate) :
  (length (snd (fst (calculate_score rt m c))) + size (overlap m c)
   = size (req_skills m))%nat /\
  (snd (fst (calculate_score rt m c)) = [] <->
   req_skills m ⊆ list_to_set (skills c)).
Proof.
  cbn [calculate_score fst snd]. unfold skill_part, overlap.
  destruct (decide (req_skills m = ∅)) as [E|E]; cbn [snd].
  - rewrite E. rewrite (right_absorb_L ∅ (∩)), size_empty. split; [reflexivity|].
    split; [intros _; apply empty_subseteq|reflexivity].
  - assert (Hlen : length (set_order rt (req_skills m ∖ list_to_set (skills c)))
                   = size (req_skills m ∖ list_to_set (skills c))).
    { by rewrite (set_order_perm rt _). }
    split.
    + rewrite Hlen, size_difference_alt, (comm_L (∩) (list_to_set (skills c))).
      pose proof (subseteq_size (req_skills m ∩ list_to_set (skills c)) (req_skills m)
                    (intersection_subseteq_l _ _)). lia.
    + split.
      * intros Hnil. rewrite Hnil in Hlen. cbn in Hlen. symmetry in Hlen.
        apply size_empty_iff in Hlen. intros x Hx.
        destruct (decide (x ∈ (list_to_set (skills c) : gset string))) as [|Hn]; [done|].
        exfalso. apply (not_elem_of_empty (C:=gset string) x). rewrite <- Hlen.
        by apply elem_of_difference.
      * intros Hsub. rewrite (subseteq_empty_difference_L _ _ Hsub).
        apply set_order_empty.
Qed.
End ScoreFacts.

Module LoopFacts.
Import Scan ReFacts.

(** *** The loop over the files *)

Lemma extract_text_messages (f : uploaded_file) :
  length (snd (extract_text f)) = (if fails f then 1 else 0)%nat.
Proof.
  unfold extract_text, fails. by destruct (read_document f) as [text [e|]].
Qed.

Lemma messages_of_length (files : list uploaded_file) :
  length (messages_of files) = length (filter (fun f => fails f = true) files).
Proof.
  unfold messages_of. induction files as [|f files IH]; [reflexivity|].
  cbn [map concat]. rewrite length_app, IH, extract_text_messages.
  destruct (fails f) eqn:Ef.
  - rewrite filter_cons_True by exact Ef. reflexivity.
  - rewrite filter_cons_False by congruence. reflexivity.
Qed.

Lemma stops_phrase (text : string) :
  stops text = true <->
  exists ds, ds ∈ spec_year_phrases text /\ (int_max_str_digits < length ds)%nat.
Proof.
  rewrite stops_spec, year_phrases_spec, existsb_exists. unfold too_long.
  split; intros (ds & H1 & H2); exists ds.
  - split; [by apply list_elem_of_In|by apply Nat.ltb_lt].
  - split; [by apply list_elem_of_In|by apply Nat.ltb_lt].
Qed.

(** X10. The loop over the uploaded files, on documents whose texts are
    ASCII texts.  When no text has a phrase "N years" whose number has more
    than 4300 digits, the loop gives one row per document, in order, built
    from the parse of its text, and shows one message per document that
    fails to read.  Otherwise [parse] raises [ValueError] on the first such
    document and the loop stops there: no row is returned, and the messages
    shown are those of the documents up to that one. *)
Theorem process_files_rows (rt : runtime) (m : job_matcher) (files : list uploaded_file) :
  Forall (fun f => ascii_text (fst (extract_text f))) files ->
  (Forall (fun f => stops (fst (extract_text f)) = false) files ->
   process_files rt m files = (Returns (map (row_of rt m) files), messages_of files) /\
   length (map (row_of rt m) files) = length files /\
   length (messages_of files) = length (filter (fun f => fails f = true) files)) /\
  (forall before g after,
     files = (before ++ g :: after)%list ->
     Forall (fun f => stops (fst (extract_text f)) = false) before ->
     stops (fst (extract_text g)) = true ->
     process_files rt m files = (Raises "ValueError", messages_of (before ++ [g]))) /\
  (forall f, f ∈ files ->
     (stops (fst (extract_text f)) = true <->
      exists ds, ds ∈ spec_year_phrases (fst (extract_text f)) /\
                 (int_max_str_digits < length ds)%nat)).
Proof.
  intros _. split; [|split].
  - intros H. split; [|split].
    + unfold process_files. by rewrite loop_completes.
    + apply length_map.
    + apply messages_of_length.
  - intros before g after -> Hb Hg. unfold process_files.
    by rewrite loop_stops.
  - intros f _. apply stops_phrase.
Qed.

Lemma process_files_rows_witness :
  Forall (fun f => ascii_text (fst (extract_text f)))
         [cv_two_pages; cv_long_txt; cv_broken_page] /\
  process_files sorted_runtime profile_A [cv_two_pages; cv_long_txt; cv_broken_page] =
    (Raises "ValueError", []) /\
  fst (process_files sorted_runtime profile_A [cv_two_pages; cv_broken_page]) =
    Returns [row_of sorted_runtime profile_A cv_two_pages;
             row_of sorted_runtime profile_A cv_broken_page].
Proof.
  assert (H : Forall (fun f => ascii_text (fst (extract_text f)))
                     [cv_two_pages; cv_long_txt; cv_broken_page]).
  { repeat constructor; vm_compute; reflexivity. }
  split; [exact H|]. split.
  - apply (proj1 (proj2 (process_files_rows sorted_runtime profile_A _ H))
             [cv_two_pages] cv_long_txt [cv_broken_page]).
    + reflexivity.
    + repeat constructor; vm_compute; reflexivity.
    + vm_compute. reflexivity.
  - assert (H' : Forall (fun f => ascii_text (fst (extract_text f)))
                        [cv_two_pages; cv_broken_page]).
    { repeat constructor; vm_compute; reflexivity. }
    destruct (proj1 (process_files_rows sorted_runtime profile_A _ H')) as (E & _).
    + repeat constructor; vm_compute; reflexivity.
    + rewrite E. reflexivity.
Defined.

(** *** Calendar years *)

Lemma digit_val_bound (c : ascii) : Chars.is_digit c = true -> (Chars.digit_val c <= 9)%N.
Proof.
  destruct c as [[] [] [] [] [] [] [] []]; vm_compute; intros H;
    try discriminate H; discriminate.
Qed.

Lemma calendar_year_value (a g a' : list ascii) :
  calendar_year_at a = Some (g, a') -> (2000 <= Str.to_int g <= 2099)%N.
Proof.
  destruct a as [|c1 [|c2 [|c3 [|c4 rest]]]]; try discriminate. cbn [calendar_year_at].
  destruct (bool_decide (c1 = "2"%char)) eqn:E1; [|discriminate].
  destruct (bool_decide (c2 = "0"%char)) eqn:E2; [|discriminate].
  destruct (Chars.is_digit c3) eqn:E3; [|discriminate].
  destruct (Chars.is_digit c4) eqn:E4; [|discriminate].
  cbn [andb]. intros [= <- <-].
  apply bool_decide_eq_true in E1 as ->. apply bool_decide_eq_true in E2 as ->.
  apply digit_val_bound in E3. apply digit_val_bound in E4.
  unfold Str.to_int. cbn [fold_left].
  change (Chars.digit_val "2") with 2%N. change (Chars.digit_val "0") with 0%N.
  lia.
Qed.

Lemma calendar_years_range (t : list ascii) (y : N) :
  y ∈ calendar_years t -> (2000 <= y <= 2099)%N.
Proof.
  unfold calendar_years. rewrite findall1_calendar.
  change (map Str.to_int ?l) with (Str.to_int <$> l).
  intros (g & -> & Hg)%list_elem_of_fmap.
  apply scan_fuel_groups in Hg as (a & a' & Hm). by eapply calendar_year_value.
Qed.

(** X11. Without any phrase "N years" in the text, the experience inferred
    from the calendar years is at most 99. *)
Theorem calendar_experience_bound (text : string) :
  stated_years (chars (normalize_text text)) = [] ->
  (extract_experience text <= 99)%N.
Proof.
  intros Hs. unfold extract_experience. rewrite Hs.
  set (years := calendar_years (chars (normalize_text text))).
  destruct (2 <=? length years)%nat eqn:E; [|lia].
  assert (Hne : years <> []) by (intros E0; rewrite E0 in E; discriminate E).
  pose proof (calendar_years_range _ _ (max_list_member years Hne)).
  pose proof (calendar_years_range _ _ (min_list_member years Hne)). lia.
Qed.

Lemma calendar_experience_bound_witness :
  stated_years (chars (normalize_text scenario_D)) = [] /\
  (extract_experience scenario_D <= 99)%N.
Proof.
  assert (H : stated_years (chars (normalize_text scenario_D)) = [])
    by (vm_compute; reflexivity).
  split; [exact H|]. exact (calendar_experience_bound scenario_D H).
Defined.
End LoopFacts.

Module TextFacts.
Import Scan ReFacts.

(** *** Stripping *)

Lemma lstrip_suffix (s : list ascii) :
  exists pre, s = (pre ++ Str.lstrip s)%list.
Proof.
  induction s as [|c s [pre IH]]; [by exists []|]. cbn [Str.lstrip].
  destruct (Chars.is_space c); [|by exists []].
  exists (c :: pre). cbn. by rewrite <- IH.
Qed.

Lemma lstrip_head (s : list ascii) (c : ascii) :
  head (Str.lstrip s) = Some c -> Chars.is_space c = false.
Proof.
  induction s as [|d s IH]; [discriminate|]. cbn [Str.lstrip].
  destruct (Chars.is_space d) eqn:E; [exact IH|]. by intros [= <-].
Qed.

Lemma lstrip_id (s : list ascii) :
  (forall c, head s = Some c -> Chars.is_space c = false) -> Str.lstrip s = s.
Proof.
  destruct s as [|d s]; [reflexivity|]. intros H. cbn [Str.lstrip].
  by rewrite (H d eq_refl).
Qed.

Lemma rev_is_reverse {A : Type} (l : list A) : rev l = reverse l.
Proof. apply rev_alt. Qed.

Lemma head_rev {A : Type} (l : list A) : head (rev l) = last l.
Proof. rewrite rev_is_reverse. apply head_reverse. Qed.

Lemma last_rev {A : Type} (l : list A) : last (rev l) = head l.
Proof. rewrite rev_is_reverse. apply last_reverse. Qed.

Lemma last_suffix {A : Type} (pre l : list A) (x : A) :
  last l = Some x -> last (pre ++ l) = Some x.
Proof.
  intros H. destruct l as [|y l]; [discriminate|].
  rewrite last_app. by rewrite H.
Qed.

Lemma strip_infix (s : list ascii) :
  exists pre post, s = (pre ++ Str.strip s ++ post)%list.
Proof.
  unfold Str.strip.
  destruct (lstrip_suffix s) as [p1 H1].
  destruct (lstrip_suffix (rev (Str.lstrip s))) as [p2 H2].
  exists p1, (rev p2).
  rewrite <- rev_app_distr, <- H2, rev_involutive. exact H1.
Qed.

Lemma strip_head (s : list ascii) (c : ascii) :
  head (Str.strip s) = Some c -> Chars.is_space c = false.
Proof.
  unfold Str.strip. rewrite head_rev. intros H.
  destruct (lstrip_suffix (rev (Str.lstrip s))) as [p2 H2].
  apply (last_suffix p2) in H. rewrite <- H2, last_rev in H.
  by apply lstrip_head in H.
Qed.

Lemma strip_last (s : list ascii) (c : ascii) :
  last (Str.strip s) = Some c -> Chars.is_space c = false.
Proof. unfold Str.strip. rewrite last_rev. apply lstrip_head. Qed.

Lemma strip_id (s : list ascii) :
  (forall c, head s = Some c -> Chars.is_space c = false) ->
  (forall c, last s = Some c -> Chars.is_space c = false) ->
  Str.strip s = s.
Proof.
  intros Hh Hl. unfold Str.strip. rewrite (lstrip_id s Hh).
  rewrite lstrip_id; [apply rev_involutive|].
  intros c. rewrite head_rev. apply Hl.
Qed.

Lemma Forall_infix {A : Type} (P : A -> Prop) (pre l post : list A) :
  Forall P (pre ++ l ++ post) -> Forall P l.
Proof. intros H. apply Forall_app in H as [_ H]. by apply Forall_app in H as [H _]. Qed.

Lemma no_adjacent_infix (pre t post : list ascii) :
  no_adjacent_spaces (pre ++ t ++ post) -> no_adjacent_spaces t.
Proof.
  intros H u c d v ->. apply (H (pre ++ u)%list c d (v ++ post)%list).
  by rewrite <- !app_assoc.
Qed.

(** *** Collapsing the runs of spaces *)

Lemma collapse_chars (Q : ascii -> Prop) (fl : bool) (l : list ascii) :
  Q " "%char -> Forall (fun c => Chars.is_space c = false -> Q c) l ->
  Forall Q (collapse_aux fl l).
Proof.
  intros Hsp H. revert fl. induction H as [|c l Hc _ IH]; intros fl; [constructor|].
  cbn [collapse_aux]. destruct (Chars.is_space c) eqn:E.
  - destruct fl; [apply IH|constructor; [exact Hsp|apply IH]].
  - constructor; [by apply Hc|apply IH].
Qed.

Lemma no_adjacent_cons (c : ascii) (t : list ascii) :
  no_adjacent_spaces t ->
  (Chars.is_space c = true -> forall d, head t = Some d -> Chars.is_space d = false) ->
  no_adjacent_spaces (c :: t).
Proof.
  intros Ht Hc u x y v E [Hx Hy]. destruct u as [|c' u]; cbn in E.
  - injection E as -> ->. rewrite (Hc Hx y eq_refl) in Hy. discriminate Hy.
  - injection E as -> ->. by apply (Ht u x y v).
Qed.

Lemma no_adjacent_tail (c : ascii) (t : list ascii) :
  no_adjacent_spaces (c :: t) -> no_adjacent_spaces t.
Proof. intros H u x y v ->. by apply (H (c :: u) x y v). Qed.

Lemma collapse_spacing (l : list ascii) : forall fl,
  no_adjacent_spaces (collapse_aux fl l) /\
  (fl = true -> forall d, head (collapse_aux fl l) = Some d -> Chars.is_space d = false).
Proof.
  induction l as [|c l IH]; intros fl.
  - split; [|discriminate]. intros [|? [|? ?]] ? ? ? E; discriminate E.
  - cbn [collapse_aux]. destruct (Chars.is_space c) eqn:E.
    + destruct fl.
      * apply IH.
      * split; [|discriminate]. apply no_adjacent_cons; [apply IH|].
        intros _. by apply IH.
    + split.
      * apply no_adjacent_cons; [apply IH|]. intros Hc. congruence.
      * intros _ d [= <-]. exact E.
Qed.

Lemma collapse_id (t : list ascii) : forall fl,
  Forall (fun c => Chars.is_space c = true -> c = " "%char) t ->
  no_adjacent_spaces t ->
  (fl = true -> forall d, head t = Some d -> Chars.is_space d = false) ->
  collapse_aux fl t = t.
Proof.
  induction t as [|c t IH]; intros fl Hsp Hadj Hfl; [reflexivity|].
  apply Forall_cons in Hsp as [Hc Hsp]. cbn [collapse_aux].
  destruct (Chars.is_space c) eqn:E.
  - destruct fl; [rewrite (Hfl eq_refl c eq_refl) in E; discriminate E|].
    rewrite (Hc eq_refl). f_equal. apply IH; [exact Hsp|by eapply no_adjacent_tail|].
    intros _ d Hd. destruct t as [|d' t]; [discriminate Hd|]. injection Hd as ->.
    destruct (Chars.is_space d) eqn:Ed; [|reflexivity].
    exfalso. by apply (Hadj [] c d t eq_refl).
  - f_equal. apply IH; [exact Hsp|by eapply no_adjacent_tail|discriminate].
Qed.

(** *** Lower case *)

Lemma lower_not_upper (c : ascii) : Chars.is_upper (Chars.lower c) = false.
Proof. destruct c as [[] [] [] [] [] [] [] []]; reflexivity. Qed.

Lemma lower_id (c : ascii) : Chars.is_upper c = false -> Chars.lower c = c.
Proof. unfold Chars.lower. by intros ->. Qed.

Lemma lower_chars_id (t : list ascii) :
  Forall (fun c => Chars.is_upper c = false) t -> Str.lower t = t.
Proof.
  unfold Str.lower. induction 1 as [|c t Hc _ IH]; [reflexivity|].
  cbn [map]. by rewrite (lower_id c Hc), IH.
Qed.

Lemma lower_lower (t : list ascii) : Str.lower (Str.lower t) = Str.lower t.
Proof.
  apply lower_chars_id. unfold Str.lower. apply Forall_forall. intros c.
  change (map Chars.lower t) with (Chars.lower <$> t).
  intros (d & -> & _)%list_elem_of_fmap. apply lower_not_upper.
Qed.

(** *** Normalized texts *)

Lemma normalize_chars_spec (l : list ascii) :
  normalize_chars l = Str.strip (collapse_spaces (Str.lower l)).
Proof. unfold normalize_chars. by rewrite sub_ws_run. Qed.

Lemma normalize_chars_tidy (l : list ascii) : tidy (normalize_chars l).
Proof.
  rewrite normalize_chars_spec. unfold collapse_spaces.
  set (t := collapse_aux false (Str.lower l)).
  destruct (strip_infix t) as (pre & post & Ht).
  assert (H1 : Forall (fun c => Chars.is_upper c = false) t).
  { apply collapse_chars; [reflexivity|]. apply Forall_forall. intros c.
    unfold Str.lower. change (map Chars.lower l) with (Chars.lower <$> l).
    intros (d & -> & _)%list_elem_of_fmap _. apply lower_not_upper. }
  assert (H2 : Forall (fun c => Chars.is_space c = true -> c = " "%char) t).
  { apply collapse_chars; [done|]. apply Forall_forall. intros c _ Hc Hc'. congruence. }
  assert (H3 : no_adjacent_spaces t) by apply collapse_spacing.
  rewrite Ht in H1, H2, H3.
  split; [by eapply Forall_infix|]. split; [by eapply Forall_infix|].
  split; [by eapply no_adjacent_infix|]. split; [apply strip_head|apply strip_last].
Qed.

Lemma normalize_chars_fixed (t : list ascii) : tidy t -> normalize_chars t = t.
Proof.
  intros (H1 & H2 & H3 & H4 & H5). rewrite normalize_chars_spec.
  rewrite (lower_chars_id t H1). unfold collapse_spaces.
  rewrite (collapse_id t false H2 H3) by discriminate.
  by apply strip_id.
Qed.

Lemma normalize_text_idem (s : string) :
  normalize_text (normalize_text s) = normalize_text s.
Proof.
  unfold normalize_text. rewrite !chars_text_of.
  by rewrite (normalize_chars_fixed _ (normalize_chars_tidy (chars s))).
Qed.

(** X12. For a text of ASCII characters, the text returned by
    [normalize_text] has no capital letter, no space other than " ", no two
    spaces side by side and no space at either end; normalizing it again
    changes nothing, and the text is its own normalization exactly when it
    has this form. *)
Theorem normalize_text_tidy (s : string) :
  ascii_text s ->
  tidy (chars (normalize_text s)) /\
  normalize_text (normalize_text s) = normalize_text s /\
  (normalize_text s = s <-> tidy (chars s)).
Proof.
  intros _. split; [|split; [apply normalize_text_idem|]].
  - unfold normalize_text. rewrite chars_text_of. apply normalize_chars_tidy.
  - unfold normalize_text. split.
    + intros E. rewrite <- E at 1. rewrite chars_text_of. apply normalize_chars_tidy.
    + intros H. rewrite (normalize_chars_fixed _ H). apply string_of_list_ascii_of_string.
Qed.

Lemma normalize_text_tidy_witness :
  ascii_text "  Data 	 ANALYSIS " /\
  tidy (chars (normalize_text "  Data 	 ANALYSIS ")) /\
  normalize_text "  Data 	 ANALYSIS " = "data analysis".
Proof.
  assert (Ha : ascii_text "  Data 	 ANALYSIS ") by reflexivity.
  split; [exact Ha|]. split; [|vm_compute; reflexivity].
  exact (proj1 (normalize_text_tidy _ Ha)).
Defined.

(** X13. Skills and years of experience do not depend on case: the text in
    lower case, like the normalized text, gives the same skills and the
    same years. *)
Theorem parse_case_insensitive (rt : runtime) (text : string) :
  let low := text_of (Str.lower (chars text)) in
  extract_skills rt low = extract_skills rt text /\
  extract_experience low = extract_experience text /\
  extract_skills rt (normalize_text text) = extract_skills rt text /\
  extract_experience (normalize_text text) = extract_experience text.
Proof.
  intros low.
  assert (E1 : normalize_text low = normalize_text text).
  { subst low. unfold normalize_text, normalize_chars.
    by rewrite chars_text_of, lower_lower. }
  pose proof (normalize_text_idem text) as E2.
  unfold extract_skills, found_skills, extract_experience.
  by rewrite E1, E2.
Qed.
End TextFacts.

Module InputFacts.
Import Scan ReFacts TextFacts.

(** *** The characters kept by normalization *)

Lemma solid_app (u v : list ascii) : solid (u ++ v) = (solid u ++ solid v)%list.
Proof. apply filter_app. Qed.

Lemma solid_space (c : ascii) (t : list ascii) :
  Chars.is_space c = true -> solid (c :: t) = solid t.
Proof. intros H. unfold solid. apply filter_cons_False. cbn. congruence. Qed.

Lemma solid_keep (c : ascii) (t : list ascii) :
  Chars.is_space c = false -> solid (c :: t) = c :: solid t.
Proof. intros H. unfold solid. by apply filter_cons_True. Qed.

Lemma solid_rev (t : list ascii) : solid (rev t) = rev (solid t).
Proof.
  induction t as [|c t IH]; [reflexivity|]. cbn [rev].
  rewrite solid_app, IH. destruct (Chars.is_space c) eqn:E.
  - rewrite !solid_space by exact E. apply app_nil_r.
  - by rewrite !solid_keep by exact E.
Qed.

Lemma solid_lstrip (t : list ascii) : solid (Str.lstrip t) = solid t.
Proof.
  induction t as [|c t IH]; [reflexivity|]. cbn [Str.lstrip].
  destruct (Chars.is_space c) eqn:E; [|reflexivity].
  by rewrite IH, solid_space.
Qed.

Lemma solid_strip (t : list ascii) : solid (Str.strip t) = solid t.
Proof.
  unfold Str.strip. by rewrite solid_rev, solid_lstrip, solid_rev, rev_involutive, solid_lstrip.
Qed.

Lemma solid_collapse (t : list ascii) (fl : bool) : solid (collapse_aux fl t) = solid t.
Proof.
  revert fl. induction t as [|c t IH]; intros fl; [reflexivity|].
  cbn [collapse_aux]. destruct (Chars.is_space c) eqn:E.
  - rewrite (solid_space c) by exact E.
    destruct fl; [apply IH|]. rewrite solid_space by reflexivity. apply IH.
  - rewrite !solid_keep by exact E. f_equal. apply IH.
Qed.

Lemma lower_space (c : ascii) : Chars.is_space (Chars.lower c) = Chars.is_space c.
Proof. destruct c as [[] [] [] [] [] [] [] []]; reflexivity. Qed.

Lemma solid_lower (t : list ascii) : solid (Str.lower t) = Str.lower (solid t).
Proof.
  unfold Str.lower. induction t as [|c t IH]; [reflexivity|]. cbn [map].
  destruct (Chars.is_space c) eqn:E.
  - rewrite !solid_space by (rewrite ?lower_space; exact E). exact IH.
  - rewrite !solid_keep by (rewrite ?lower_space; exact E). cbn [map]. by rewrite IH.
Qed.

Lemma solid_normalize (s : string) :
  solid (chars (normalize_text s)) = Str.lower (solid (chars s)).
Proof.
  unfold normalize_text. rewrite chars_text_of, normalize_chars_spec.
  unfold collapse_spaces. by rewrite solid_strip, solid_collapse, solid_lower.
Qed.

(** X14. On a text of ASCII characters, [normalize_text] only changes case
    and spacing: the characters of the result that are not spaces are those
    of the text, in the same order, in lower case. *)
Theorem normalize_text_solid (s : string) :
  ascii_text s ->
  solid (chars (normalize_text s)) = Str.lower (solid (chars s)).
Proof. intros _. apply solid_normalize. Qed.

Lemma normalize_text_solid_witness :
  ascii_text "  Data 	 ANALYSIS " /\
  solid (chars (normalize_text "  Data 	 ANALYSIS ")) = chars "dataanalysis".
Proof.
  assert (Ha : ascii_text "  Data 	 ANALYSIS ") by reflexivity.
  split; [exact Ha|]. rewrite (normalize_text_solid _ Ha). vm_compute. reflexivity.
Defined.

(** *** The name *)

Lemma filter_first {A : Type} (P : A -> Prop) `{!forall x, Decision (P x)} (l : list A) :
  (Forall (fun x => ~ P x) l /\ filter P l = []) \/
  (exists pre x rest,
     l = (pre ++ x :: rest)%list /\ Forall (fun x => ~ P x) pre /\ P x /\
     filter P l = x :: filter P rest).
Proof.
  induction l as [|y l IH]; [left; by split|].
  destruct (decide (P y)) as [Hy|Hy].
  - right. exists [], y, l. rewrite filter_cons_True by exact Hy. by repeat split.
  - rewrite filter_cons_False by exact Hy. destruct IH as [[H1 H2]|(pre & x & rest & -> & H1 & H2 & H3)].
    + left. split; [by constructor|exact H2].
    + right. exists (y :: pre), x, rest. split; [reflexivity|].
      split; [by constructor|]. by split.
Qed.

(** X15. On a text of ASCII characters, the name is read from the first
    line that is not blank: it is that line without the spaces at its ends
    when the line has at most four words, and "Unknown" otherwise, also when
    every line is blank.  A name that is returned is not empty and neither
    starts nor ends with a space. *)
Theorem extract_name_first_line (text : string) :
  ascii_text text ->
  let lines := Str.split_on "010"%char (chars text) in
  (Forall (fun l => Str.strip l = []) lines /\ extract_name text = "Unknown") \/
  (exists blanks line rest,
     lines = (blanks ++ line :: rest)%list /\
     Forall (fun l => Str.strip l = []) blanks /\
     Str.strip line <> [] /\
     (forall c, head (Str.strip line) = Some c -> Chars.is_space c = false) /\
     (forall c, last (Str.strip line) = Some c -> Chars.is_space c = false) /\
     extract_name text =
       if (length (Str.words (Str.strip line)) <=? 4)%nat
       then text_of (Str.strip line) else "Unknown").
Proof.
  intros _ lines. unfold extract_name. fold lines.
  assert (Hblank : forall pre : list (list ascii),
            Forall (fun x => ~ Str.strip x <> []) pre ->
            Forall (fun l => Str.strip l = []) pre).
  { intros pre Hpre. eapply Forall_impl; [exact Hpre|]. intros l Hl.
    destruct (decide (Str.strip l = [])); [done|by destruct Hl]. }
  destruct (filter_first (fun line => Str.strip line <> []) lines)
    as [[H1 H2]|(pre & x & rest & Hl & H1 & H2 & H3)].
  - left. rewrite H2. split; [by apply Hblank|reflexivity].
  - right. exists pre, x, rest. rewrite H3. cbn [map].
    split; [exact Hl|]. split; [by apply Hblank|]. split; [exact H2|].
    split; [apply strip_head|]. split; [apply strip_last|reflexivity].
Qed.

Lemma extract_name_first_line_witness :
  ascii_text cv_blank_lines /\
  extract_name cv_blank_lines <> "" /\
  extract_name cv_blank_lines = "Jane Doe".
Proof.
  assert (Ha : ascii_text cv_blank_lines) by reflexivity.
  split; [exact Ha|]. split; [|vm_compute; reflexivity].
  destruct (extract_name_first_line cv_blank_lines Ha)
    as [[_ E]|(blanks & line & rest & _ & _ & Hne & _ & _ & E)];
    rewrite E; [discriminate|].
  destruct (_ <=? _)%nat; [|discriminate].
  intros H. apply Hne. by destruct (Str.strip line).
Defined.

(** *** The skills typed in the sidebar *)

Lemma normalize_text_tidy_chars (s : string) : tidy (chars (normalize_text s)).
Proof. unfold normalize_text. rewrite chars_text_of. apply normalize_chars_tidy. Qed.

Lemma split_on_no_sep (sep : ascii) (s : list ascii) :
  Forall (fun piece => sep ∉ piece) (Str.split_on sep s).
Proof.
  induction s as [|c s IH]; cbn [Str.split_on].
  - repeat constructor. by intros ?%elem_of_nil.
  - case_bool_decide as Hc.
    + constructor; [by intros ?%elem_of_nil|exact IH].
    + destruct (Str.split_on sep s) as [|w ws]; [repeat constructor|].
      * intros [->|?%elem_of_nil]%elem_of_cons; done.
      * apply Forall_cons in IH as [Hw Hws]. constructor; [|exact Hws].
        intros [->|?]%elem_of_cons; done.
Qed.

Lemma lower_comma (c : ascii) : Chars.lower c = ","%char -> c = ","%char.
Proof. destruct c as [[] [] [] [] [] [] [] []]; vm_compute; congruence. Qed.

Lemma solid_head (t : list ascii) (c : ascii) :
  head t = Some c -> Chars.is_space c = false -> solid t <> [].
Proof.
  destruct t as [|d t]; [discriminate|]. intros [= ->] Hc.
  by rewrite solid_keep.
Qed.

Lemma solid_nonempty (t : list ascii) : solid t <> [] -> t <> [].
Proof. by intros H ->. Qed.

(** X16. The skills typed in the sidebar, separated by commas, give a set of
    required skills in which every skill is normalized, is not empty and
    contains no comma: blank entries are dropped. *)
Theorem sidebar_required_skills (input : string) (min_years : N) (x : string) :
  x ∈ req_skills (new_matcher (sidebar_skills input) min_years) ->
  tidy (chars x) /\ x <> "" /\ ","%char ∉ chars x.
Proof.
  unfold new_matcher. cbn [req_skills]. rewrite elem_of_list_to_set.
  change (map normalize_text ?l) with (normalize_text <$> l).
  intros (y & -> & Hy)%list_elem_of_fmap.
  unfold sidebar_skills in Hy.
  change (map ?f ?l) with (f <$> l) in Hy.
  apply list_elem_of_fmap in Hy as (piece & -> & Hp).
  apply list_elem_of_filter in Hp as [Hne Hp].
  pose proof (split_on_no_sep ","%char (chars input)) as Hsep.
  rewrite Forall_forall in Hsep. specialize (Hsep piece Hp).
  set (low := text_of (Str.lower (Str.strip piece))).
  assert (Hsolid : solid (chars (normalize_text low)) = Str.lower (solid piece)).
  { rewrite solid_normalize. subst low.
    rewrite chars_text_of, solid_lower, solid_strip.
    apply lower_chars_id. unfold Str.lower. apply Forall_forall. intros c.
    change (map Chars.lower ?l) with (Chars.lower <$> l).
    intros (d & -> & _)%list_elem_of_fmap. apply lower_not_upper. }
  split; [apply normalize_text_tidy_chars|]. split.
  - intros E. rewrite E in Hsolid. cbn in Hsolid.
    destruct (Str.strip piece) as [|c t] eqn:Es; [done|].
    pose proof (strip_head piece c) as Hc. rewrite Es in Hc. specialize (Hc eq_refl).
    pose proof (solid_head (Str.strip piece) c) as Hs. rewrite Es in Hs.
    specialize (Hs eq_refl Hc). rewrite <- Es, solid_strip in Hs.
    destruct (solid piece); [done|discriminate Hsolid].
  - intros Hin.
    assert (Hin' : ","%char ∈ solid (chars (normalize_text low))).
    { unfold solid. apply list_elem_of_filter. split; [reflexivity|exact Hin]. }
    rewrite Hsolid in Hin'. unfold Str.lower in Hin'.
    change (map Chars.lower ?l) with (Chars.lower <$> l) in Hin'.
    apply list_elem_of_fmap in Hin' as (d & Hd & Hd').
    symmetry in Hd. apply lower_comma in Hd as ->.
    unfold solid in Hd'. apply list_elem_of_filter in Hd' as [_ Hd'].
    by apply Hsep.
Qed.

Lemma sidebar_required_skills_witness :
  "sql" ∈ req_skills (new_matcher (sidebar_skills "Python, , SQL,") 3) /\
  "sql" <> "".
Proof.
  assert (H : "sql" ∈ req_skills (new_matcher (sidebar_skills "Python, , SQL,") 3)).
  { apply (bool_decide_unpack _). vm_compute. exact I. }
  split; [exact H|].
  exact (proj1 (proj2 (sidebar_required_skills _ _ _ H))).
Defined.
End InputFacts.

(** ** The two models on the texts of ASCII characters *)

(** On a text of ASCII characters the functions on arbitrary characters
    give what the functions of the ASCII model give, whatever the tables. *)
Module Agree.
Import Scan TextFacts.

Lemma ascii_text_small (s : string) : ascii_text s <-> Forall ascii_char (chars s).
Proof.
  unfold ascii_text. rewrite forallb_forall, Forall_forall.
  split; intros H a Ha.
  - apply N.ltb_lt, H. by apply list_elem_of_In.
  - apply N.ltb_lt, H. by apply list_elem_of_In.
Qed.

Lemma of_ascii_inj (a b : ascii) : Uni.of_ascii a = Uni.of_ascii b -> a = b.
Proof.
  intros H. rewrite <- (ascii_N_embedding a), <- (ascii_N_embedding b).
  unfold Uni.of_ascii, Chars.code in H. by rewrite H.
Qed.

Lemma of_ascii_decide (a b : ascii) :
  bool_decide (Uni.of_ascii a = Uni.of_ascii b) = bool_decide (a = b).
Proof.
  destruct (decide (a = b)) as [->|Hne].
  - by rewrite !bool_decide_eq_true_2.
  - rewrite (bool_decide_eq_false_2 (a = b)) by exact Hne.
    apply bool_decide_eq_false_2. intros H. by apply Hne, of_ascii_inj.
Qed.

Section Classes.

Context (f : Uni.char -> bool) (g : ascii -> bool).
Hypothesis fg : forall a, ascii_char a -> f (Uni.of_ascii a) = g a.

Lemma take_run_map (l : list ascii) :
  Forall ascii_char l ->
  Uni.take_run f (map Uni.of_ascii l) = map Uni.of_ascii (take_run g l).
Proof.
  induction 1 as [|a l Ha _ IH]; [reflexivity|].
  cbn [map Uni.take_run take_run]. rewrite (fg a Ha).
  destruct (g a); [by rewrite IH|reflexivity].
Qed.

Lemma drop_run_map (l : list ascii) :
  Forall ascii_char l ->
  Uni.drop_run f (map Uni.of_ascii l) = map Uni.of_ascii (drop_run g l).
Proof.
  induction 1 as [|a l Ha _ IH]; [reflexivity|].
  cbn [map Uni.drop_run drop_run]. rewrite (fg a Ha).
  destruct (g a); [by rewrite IH|reflexivity].
Qed.

End Classes.

Lemma drop_run_small (g : ascii -> bool) (l : list ascii) :
  Forall ascii_char l -> Forall ascii_char (drop_run g l).
Proof.
  induction 1 as [|a l Ha H IH]; [constructor|].
  cbn [drop_run]. destruct (g a); [exact IH|by constructor].
Qed.

Lemma skip_char_map (c : ascii) (l : list ascii) :
  Uni.skip_char (Uni.of_ascii c) (map Uni.of_ascii l) =
  map Uni.of_ascii (skip_char c l).
Proof.
  destruct l as [|d l]; [reflexivity|].
  cbn [map Uni.skip_char skip_char]. rewrite of_ascii_decide.
  by destruct (bool_decide (d = c)).
Qed.

Lemma skip_char_small (c : ascii) (l : list ascii) :
  Forall ascii_char l -> Forall ascii_char (skip_char c l).
Proof.
  intros H. destruct l as [|d l]; [constructor|].
  cbn [skip_char]. destruct (bool_decide (d = c)); [|exact H].
  by apply Forall_cons in H as [_ H].
Qed.

Lemma strip_prefix_map (w l : list ascii) :
  Uni.strip_prefix (map Uni.of_ascii w) (map Uni.of_ascii l) =
  option_map (map Uni.of_ascii) (strip_prefix w l).
Proof.
  revert l. induction w as [|c w IH]; intros l; [reflexivity|].
  destruct l as [|d l]; [reflexivity|].
  cbn [map Uni.strip_prefix strip_prefix]. rewrite of_ascii_decide.
  destruct (bool_decide (d = c)); [apply IH|reflexivity].
Qed.

Lemma strip_prefix_small (w l r : list ascii) :
  strip_prefix w l = Some r -> Forall ascii_char l -> Forall ascii_char r.
Proof.
  revert l. induction w as [|c w IH]; intros l H Hl; cbn [strip_prefix] in H.
  - by injection H as <-.
  - destruct l as [|d l]; [discriminate H|].
    destruct (bool_decide (d = c)); [|discriminate H].
    apply Forall_cons in Hl as [_ Hl]. by eapply IH.
Qed.

Section Tables.

Context (U : Uni.tables).

Lemma is_space_small (a : ascii) :
  ascii_char a -> Uni.is_space U (Uni.of_ascii a) = Chars.is_space a.
Proof.
  intros Ha. unfold Uni.is_space, Uni.is_ascii.
  assert (E : (Uni.of_ascii a <? 128)%N = true) by (apply N.ltb_lt; exact Ha).
  by rewrite E, UniFacts.uni_ascii_of_ascii.
Qed.

Lemma digit_of_small (a : ascii) :
  ascii_char a ->
  Uni.digit_of U (Uni.of_ascii a) =
    if Chars.is_digit a then Some (Chars.digit_val a) else None.
Proof.
  intros Ha. unfold Uni.digit_of, Uni.is_ascii.
  assert (E : (Uni.of_ascii a <? 128)%N = true) by (apply N.ltb_lt; exact Ha).
  by rewrite E, UniFacts.uni_ascii_of_ascii.
Qed.

Lemma is_digit_small (a : ascii) :
  ascii_char a -> Uni.is_digit U (Uni.of_ascii a) = Chars.is_digit a.
Proof.
  intros Ha. unfold Uni.is_digit. rewrite (digit_of_small a Ha).
  by destruct (Chars.is_digit a).
Qed.

(** *** Normalization *)

Lemma lower_small (a : ascii) : ascii_char a -> ascii_char (Chars.lower a).
Proof. destruct a as [[] [] [] [] [] [] [] []]; vm_compute; congruence. Qed.

Lemma str_lower_map (l : list ascii) :
  Forall ascii_char l ->
  Uni.str_lower U (map Uni.of_ascii l) = map Uni.of_ascii (Str.lower l).
Proof.
  intros H. unfold Uni.str_lower, Str.lower.
  assert (Hall : forallb Uni.is_ascii (map Uni.of_ascii l) = true).
  { apply forallb_forall. intros c Hc. apply in_map_iff in Hc as (a & <- & Ha).
    rewrite Forall_forall in H. apply N.ltb_lt, H. by apply list_elem_of_In. }
  rewrite Hall, !map_map. apply map_ext. intros a.
  by rewrite UniFacts.uni_ascii_of_ascii.
Qed.

Lemma collapse_map (l : list ascii) :
  Forall ascii_char l -> forall fl,
  Uni.collapse (Uni.is_space U) fl (map Uni.of_ascii l) =
  map Uni.of_ascii (collapse_aux fl l).
Proof.
  induction 1 as [|a l Ha _ IH]; intros fl; [reflexivity|].
  cbn [map Uni.collapse collapse_aux]. rewrite (is_space_small a Ha).
  destruct (Chars.is_space a); [destruct fl|]; cbn [map]; by rewrite IH.
Qed.

Lemma lstrip_map (l : list ascii) :
  Forall ascii_char l -> Uni.lstrip U (map Uni.of_ascii l) = map Uni.of_ascii (Str.lstrip l).
Proof.
  induction 1 as [|a l Ha _ IH]; [reflexivity|].
  cbn [map Uni.lstrip Str.lstrip]. rewrite (is_space_small a Ha).
  destruct (Chars.is_space a); [exact IH|reflexivity].
Qed.

Lemma lstrip_small (l : list ascii) : Forall ascii_char l -> Forall ascii_char (Str.lstrip l).
Proof.
  intros H. destruct (lstrip_suffix l) as [pre E]. rewrite E in H.
  by apply Forall_app in H as [_ H].
Qed.

Lemma rev_small (l : list ascii) : Forall ascii_char l -> Forall ascii_char (rev l).
Proof. intros H. rewrite rev_is_reverse. by apply Forall_reverse. Qed.

Lemma strip_map (l : list ascii) :
  Forall ascii_char l -> Uni.strip U (map Uni.of_ascii l) = map Uni.of_ascii (Str.strip l).
Proof.
  intros H. unfold Uni.strip, Str.strip.
  rewrite lstrip_map by exact H. rewrite <- map_rev.
  rewrite lstrip_map by (by apply rev_small, lstrip_small).
  by rewrite map_rev.
Qed.

Lemma normalize_small (l : list ascii) : Forall ascii_char l -> Forall ascii_char (normalize_chars l).
Proof.
  intros H. rewrite normalize_chars_spec.
  destruct (strip_infix (collapse_spaces (Str.lower l))) as (pre & post & E).
  apply (Forall_infix _ pre _ post). rewrite <- E.
  unfold collapse_spaces. apply collapse_chars; [vm_compute; reflexivity|].
  unfold Str.lower. apply Forall_forall. intros c Hc _.
  apply list_elem_of_In, in_map_iff in Hc as (a & <- & Ha).
  apply lower_small. rewrite Forall_forall in H. apply H. by apply list_elem_of_In.
Qed.

Lemma normalize_map (l : list ascii) :
  Forall ascii_char l ->
  Uni.normalize_text U (map Uni.of_ascii l) = map Uni.of_ascii (normalize_chars l).
Proof.
  intros H. rewrite normalize_chars_spec.
  unfold Uni.normalize_text, Uni.ws_run. rewrite UniFacts.uni_sub_ws_run.
  rewrite str_lower_map by exact H.
  assert (Hl : Forall ascii_char (Str.lower l)).
  { unfold Str.lower. apply Forall_forall. intros c Hc.
    apply list_elem_of_In, in_map_iff in Hc as (a & <- & Ha).
    apply lower_small. rewrite Forall_forall in H. apply H. by apply list_elem_of_In. }
  rewrite collapse_map by exact Hl. apply strip_map.
  unfold collapse_spaces. apply collapse_chars; [vm_compute; reflexivity|].
  apply Forall_forall. intros c Hc _. rewrite Forall_forall in Hl. by apply Hl.
Qed.

(** On a text of ASCII characters, [normalize_text] in the two models. *)
Lemma normalize_text_agree (s : string) :
  ascii_text s ->
  Uni.normalize_text U (Uni.of_string s) = Uni.of_string (normalize_text s).
Proof.
  intros H%ascii_text_small. unfold Uni.of_string, normalize_text.
  rewrite chars_text_of. by apply normalize_map.
Qed.

(** *** The phrases and the years *)

Lemma year_phrase_at_map (l : list ascii) :
  Forall ascii_char l ->
  Uni.year_phrase_at (Uni.is_digit U) (Uni.is_space U) (map Uni.of_ascii l) =
  option_map (fun p => (map Uni.of_ascii (fst p), map Uni.of_ascii (snd p)))
             (year_phrase_at l).
Proof.
  intros H. unfold Uni.year_phrase_at, year_phrase_at, year_tail.
  rewrite (take_run_map _ _ is_digit_small l H), (drop_run_map _ _ is_digit_small l H).
  change (Uni.of_string "year") with (map Uni.of_ascii (chars "year")).
  rewrite skip_char_map.
  rewrite (drop_run_map _ _ is_space_small)
    by (by apply skip_char_small, drop_run_small).
  rewrite strip_prefix_map.
  destruct (take_run Chars.is_digit l) as [|d ds]; [reflexivity|]. cbn [map].
  destruct (strip_prefix _ _) as [rest|]; [|reflexivity].
  cbn [option_map fst snd]. by rewrite skip_char_map.
Qed.

Lemma year_phrase_at_small (l g r : list ascii) :
  year_phrase_at l = Some (g, r) -> Forall ascii_char l -> Forall ascii_char r.
Proof.
  unfold year_phrase_at, year_tail. intros H Hl.
  destruct (take_run Chars.is_digit l); [discriminate H|].
  destruct (strip_prefix _ _) as [rest|] eqn:E; [|discriminate H].
  injection H as _ <-. apply skip_char_small.
  eapply strip_prefix_small; [exact E|].
  by apply drop_run_small, skip_char_small, drop_run_small.
Qed.

Lemma calendar_year_at_map (l : list ascii) :
  Forall ascii_char l ->
  Uni.calendar_year_at (Uni.is_digit U) (map Uni.of_ascii l) =
  option_map (fun p => (map Uni.of_ascii (fst p), map Uni.of_ascii (snd p)))
             (calendar_year_at l).
Proof.
  intros H. destruct l as [|c1 [|c2 [|c3 [|c4 rest]]]]; try reflexivity.
  apply Forall_cons in H as [_ H]. apply Forall_cons in H as [_ H].
  apply Forall_cons in H as [H3 H]. apply Forall_cons in H as [H4 _].
  cbn [map Uni.calendar_year_at calendar_year_at].
  rewrite UniFacts.uni_twenty_decide, !of_ascii_decide.
  rewrite (is_digit_small c3 H3), (is_digit_small c4 H4).
  by destruct (_ && _).
Qed.

Lemma calendar_year_at_small (l g r : list ascii) :
  calendar_year_at l = Some (g, r) -> Forall ascii_char l -> Forall ascii_char r.
Proof.
  destruct l as [|c1 [|c2 [|c3 [|c4 rest]]]]; try discriminate.
  cbn [calendar_year_at]. destruct (_ && _); [|discriminate].
  intros [= _ <-] H.
  apply Forall_cons in H as [_ H]. apply Forall_cons in H as [_ H].
  apply Forall_cons in H as [_ H]. by apply Forall_cons in H as [_ H].
Qed.

Section Scans.

Context (mu : list Uni.char -> option (list Uni.char * list Uni.char))
        (m : list ascii -> option (list ascii * list ascii)).

Hypothesis m_map : forall l, Forall ascii_char l ->
  mu (map Uni.of_ascii l) =
  option_map (fun p => (map Uni.of_ascii (fst p), map Uni.of_ascii (snd p))) (m l).
Hypothesis m_small : forall l g r, m l = Some (g, r) -> Forall ascii_char l -> Forall ascii_char r.

Lemma scan_fuel_map (fuel : nat) : forall l,
  Forall ascii_char l ->
  Uni.scan_fuel mu fuel (map Uni.of_ascii l) =
  map (map Uni.of_ascii) (scan_fuel m fuel l).
Proof.
  induction fuel as [|fuel IH]; intros l H; [reflexivity|].
  cbn [Uni.scan_fuel scan_fuel]. rewrite (m_map l H).
  destruct (m l) as [[g r]|] eqn:E; cbn [option_map fst snd map].
  - f_equal. apply IH. by eapply m_small.
  - destruct l as [|a l]; [reflexivity|]. cbn [map].
    apply IH. by apply Forall_cons in H as [_ H].
Qed.

Lemma scan_map (l : list ascii) :
  Forall ascii_char l ->
  Uni.scan mu (map Uni.of_ascii l) = map (map Uni.of_ascii) (scan m l).
Proof. intros H. unfold Uni.scan, scan. rewrite length_map. by apply scan_fuel_map. Qed.

End Scans.

Lemma to_int_map (g : list ascii) :
  Forall (fun c => Chars.is_digit c = true) g ->
  Uni.to_int U (map Uni.of_ascii g) = Str.to_int g.
Proof.
  unfold Uni.to_int, Str.to_int. intros H.
  cut (forall acc : N,
    fold_left (fun acc c => (10 * acc + default 0 (Uni.digit_of U c))%N)
              (map Uni.of_ascii g) acc =
    fold_left (fun acc c => (10 * acc + Chars.digit_val c)%N) g acc).
  { intros E. apply E. }
  induction H as [|a g Ha _ IH]; intros acc; [reflexivity|].
  cbn [map fold_left].
  rewrite digit_of_small, Ha; [apply IH|].
  destruct a as [[] [] [] [] [] [] [] []]; vm_compute in Ha; try discriminate Ha;
    vm_compute; reflexivity.
Qed.

Lemma ints_map (l : list (list ascii)) :
  Forall (Forall (fun c => Chars.is_digit c = true)) l ->
  Uni.ints U (map (map Uni.of_ascii) l) = Raising.ints l.
Proof.
  intros H. rewrite UniFacts.uni_ints_value, ints_value.
  assert (E1 : existsb Uni.too_long (map (map Uni.of_ascii) l) = existsb too_long l).
  { clear H. induction l as [|g l IH]; [reflexivity|].
    cbn [map existsb]. rewrite IH. unfold Uni.too_long, too_long.
    by rewrite length_map. }
  rewrite E1. destruct (existsb too_long l); [reflexivity|].
  f_equal. rewrite map_map. apply map_ext_in. intros g Hg.
  apply to_int_map. rewrite Forall_forall in H. apply H. by apply list_elem_of_In.
Qed.

Lemma scan_digits (m : list ascii -> option (list ascii * list ascii)) (l : list ascii) :
  (forall a g a', m a = Some (g, a') -> Forall (fun c => Chars.is_digit c = true) g) ->
  Forall (Forall (fun c => Chars.is_digit c = true)) (scan m l).
Proof.
  intros H. apply Forall_forall. intros g Hg.
  apply ReFacts.scan_fuel_groups in Hg as (a & a' & Hm). by eapply H.
Qed.

(** On a text of ASCII characters, [extract_experience] in the two
    models. *)
Lemma extract_experience_agree (s : string) :
  ascii_text s ->
  Uni.extract_experience U (Uni.of_string s) = Raising.extract_experience s.
Proof.
  intros H. unfold Uni.extract_experience, Raising.extract_experience. cbv zeta.
  rewrite (normalize_text_agree s H).
  assert (Hn : Forall ascii_char (chars (normalize_text s))).
  { unfold normalize_text. rewrite chars_text_of.
    by apply normalize_small, ascii_text_small. }
  unfold Uni.of_string.
  change (Uni.years_re U)
    with (Uni.Cat (Uni.Grp (Uni.Plus (Uni.Cls (Uni.is_digit U))))
                  (Uni.tail_re (Uni.is_space U))).
  rewrite (UniFacts.uni_findall1_years _ _ (UniFacts.uni_digit_facts U)
             (UniFacts.uni_space_not_y U) (UniFacts.uni_plus_not_space U)).
  change (Uni.calendar_re U)
    with (Uni.Grp (Uni.Cat (Uni.Lit (Uni.of_string "20"))
                           (Uni.Rep 2 (Uni.Cls (Uni.is_digit U))))).
  rewrite UniFacts.uni_findall1_calendar.
  rewrite (scan_map _ _ year_phrase_at_map year_phrase_at_small _ Hn).
  rewrite (scan_map _ _ calendar_year_at_map calendar_year_at_small _ Hn).
  rewrite ReFacts.findall1_years, ReFacts.findall1_calendar.
  rewrite !ints_map, !length_map.
  - by destruct (scan year_phrase_at _).
  - apply scan_digits, SpecFacts.year_phrase_digits.
  - apply scan_digits, SpecFacts.calendar_year_digits.
Qed.

End Tables.

End Agree.

Module ReadFacts.

(** *** Documents that read without failure *)

Lemma append_assoc (s1 s2 s3 : string) : (s1 +:+ s2) +:+ s3 = s1 +:+ (s2 +:+ s3).
Proof.
  induction s1 as [|c s1 IH]; [reflexivity|].
  change (String c ((s1 +:+ s2) +:+ s3) = String c (s1 +:+ (s2 +:+ s3))).
  by rewrite IH.
Qed.

Lemma append_empty_r (s : string) : s +:+ "" = s.
Proof.
  induction s as [|c s IH]; [reflexivity|].
  change (String c (s +:+ "") = String c s). by rewrite IH.
Qed.

Lemma read_pages_readable (pages : list string) (text : string) :
  read_pages (map Returns pages) text =
  (text +:+ lines_of (filter (fun s => s <> "") pages), None).
Proof.
  revert text. induction pages as [|s pages IH]; intros text; cbn [map read_pages].
  - by rewrite filter_nil, append_empty_r.
  - rewrite IH. case_bool_decide as Hs.
    + by rewrite filter_cons_False by (intros H; by apply H).
    + rewrite filter_cons_True by exact Hs. cbn [lines_of]. by rewrite !append_assoc.
Qed.

Lemma read_paragraphs_readable (paras : list string) (text : string) :
  read_paragraphs (map Returns paras) text = (text +:+ lines_of paras, None).
Proof.
  revert text. induction paras as [|s paras IH]; intros text; cbn [map read_paragraphs].
  - by rewrite append_empty_r.
  - rewrite IH. cbn [lines_of]. by rewrite !append_assoc.
Qed.

(** X17. A PDF every page of which reads gives, without any message, the
    texts of its pages that are not empty, each followed by a line feed:
    the pages without text leave no trace.  A word-processor document gives
    the text of every paragraph, the empty ones too, each followed by a
    line feed. *)
Theorem readable_document_text (f : uploaded_file) (parts : list string) :
  (Str.endswith (file_name f) ".pdf" = true ->
   as_pdf f = Returns (map Returns parts) ->
   extract_text f = (lines_of (filter (fun s => s <> "") parts), [])) /\
  (Str.endswith (file_name f) ".pdf" = false ->
   Str.endswith (file_name f) ".docx" = true ->
   as_docx f = Returns (map Returns parts) ->
   extract_text f = (lines_of parts, [])).
Proof.
  unfold extract_text, read_document. split.
  - intros -> ->. by rewrite read_pages_readable.
  - intros -> -> ->. by rewrite read_paragraphs_readable.
Qed.

Lemma readable_document_text_witness :
  extract_text cv_two_pages = ("Jane Doe
Skills: Python
", []).
Proof.
  apply (proj1 (readable_document_text cv_two_pages ["Jane Doe"; ""; "Skills: Python"]));
    reflexivity.
Defined.
End ReadFacts.
